(** * Certificate plugin of the cryptography scanner: model and properties

    A shallow embedding of [scanner/plugins/certificates/certificates.go]
    and of the directory walker [PlainFilesystem.WalkDir].

    Go values are modelled as follows.
    - A pointer field ([*T]) is an [option T]; dereferencing [None] is the
      runtime panic "nil pointer dereference".  Pointees are owned by the
      record that holds the pointer: sharing of one pointee between two
      records is not modelled.
    - A slice is a [list]; the nil slice and the empty slice are both [[]].
    - The string-typed enumerations of CycloneDX ([CryptoAssetType],
      [CryptoPrimitive], [BOMReference], ...) are [string]s, as in cyclonedx-go.
    - A function that can panic returns an [outcome]. *)

From stdpp Require Import base option list strings gmap.
From Stdlib.Strings Require Import Ascii Byte.
From Equations Require Import Equations.

Set Default Proof Using "Type".
Set Warnings "-clear-no-such-hyp".
Open Scope string_scope.
Open Scope list_scope.

(** ** Panics and outcomes *)

Inductive panic : Type :=
  | PanicMsg (msg : string)   (* an explicit [panic("...")] *)
  | NilDereference.           (* runtime error: nil pointer dereference *)

Inductive outcome (A : Type) : Type :=
  | Returns (a : A)
  | Panics (p : panic).
Arguments Returns {A} a.
Arguments Panics {A} p.

#[global] Instance outcome_bind : MBind outcome := fun A B k m =>
  match m with
  | Returns a => k a
  | Panics p => Panics p
  end.

Definition panics {A} (o : outcome A) : Prop :=
  match o with Panics _ => True | Returns _ => False end.

(** [deref p] is the Go expression [*p] (or a field selection through [p]). *)
Definition deref {A} (p : option A) : outcome A :=
  match p with
  | Some a => Returns a
  | None => Panics NilDereference
  end.

(** ** The CycloneDX data model (package cyclonedx-go) *)

Module cdx.

Definition BOMReference := string.
Definition CryptoAssetType := string.

Definition CryptoAssetTypeAlgorithm : CryptoAssetType := "algorithm".
Definition CryptoAssetTypeCertificate : CryptoAssetType := "certificate".
Definition CryptoAssetTypeProtocol : CryptoAssetType := "protocol".
Definition CryptoAssetTypeRelatedCryptoMaterial : CryptoAssetType :=
  "related-crypto-material".

Record CryptoAlgorithmProperties : Type := {
  Primitive : string;
  ParameterSetIdentifier : string;
  Curve : string;
  ExecutionEnvironment : string;
  ImplementationPlatform : string;
  CertificationLevel : option (list string);   (* *[]CryptoCertificationLevel *)
  Mode : string;
  Padding : string;
  CryptoFunctions : option (list string);      (* *[]CryptoFunction *)
  ClassicalSecurityLevel : option Z;           (* *int *)
  NistQuantumSecurityLevel : option Z          (* *int *)
}.

Record CertificateProperties : Type := {
  SubjectName : string;
  IssuerName : string;
  NotValidBefore : string;
  NotValidAfter : string;
  SignatureAlgorithmRef : BOMReference;
  SubjectPublicKeyRef : BOMReference;
  CertificateFormat : string;
  CertificateExtension : string
}.

Record RelatedCryptoMaterialProperties : Type := {
  RcmType : string;      (* field [Type] *)
  RcmID : string;        (* field [ID] *)
  RcmState : string;     (* field [State] *)
  AlgorithmRef : BOMReference;
  RcmValue : string;     (* field [Value] *)
  RcmSize : option Z     (* field [Size], *int *)
}.

Record CryptoProperties : Type := {
  AssetType : CryptoAssetType;
  AlgorithmProperties : option CryptoAlgorithmProperties;
  CertificatePropertiesOf : option CertificateProperties;
  RelatedCryptoMaterialPropertiesOf : option RelatedCryptoMaterialProperties;
  OID : string
}.

(** [Component]: the fields the plugin reads or writes, and a few of the
    descriptive ones it never looks at. *)
Record Component : Type := {
  BOMRef : string;
  ComponentType : string;   (* field [Type] *)
  Name : string;
  Version : string;
  Description : string;
  CryptoPropertiesOf : option CryptoProperties
}.

(** The zero value [cdx.Component{}]. *)
Definition zeroComponent : Component :=
  {| BOMRef := ""; ComponentType := ""; Name := ""; Version := "";
     Description := ""; CryptoPropertiesOf := None |}.

Record Dependency : Type := {
  Ref : string;
  Dependencies : option (list string)   (* *[]string *)
}.

End cdx.

#[global] Instance panic_eq_dec : EqDecision panic.
Proof. solve_decision. Defined.
#[global] Instance CryptoAlgorithmProperties_eq_dec : EqDecision cdx.CryptoAlgorithmProperties.
Proof. solve_decision. Defined.
#[global] Instance CertificateProperties_eq_dec : EqDecision cdx.CertificateProperties.
Proof. solve_decision. Defined.
#[global] Instance RelatedCryptoMaterialProperties_eq_dec :
  EqDecision cdx.RelatedCryptoMaterialProperties.
Proof. solve_decision. Defined.
#[global] Instance CryptoProperties_eq_dec : EqDecision cdx.CryptoProperties.
Proof. solve_decision. Defined.
#[global] Instance Component_eq_dec : EqDecision cdx.Component.
Proof. solve_decision. Defined.
#[global] Instance Dependency_eq_dec : EqDecision cdx.Dependency.
Proof. solve_decision. Defined.

(** ** Reference-blind equality of algorithm components *)

Definition strippedAlgorithmContains_panic : panic :=
  PanicMsg "scanner: strippedAlgorithmContains was called on a non-algorithm component".
Definition strippedAlgorithmEquals_panic : panic :=
  PanicMsg "scanner: strippedAlgorithmEquals was called on a non-algorithm component".

(** Go's [==] on strings and [slices.Equal] on slices of strings. *)
Definition str_eq (x y : string) : bool := bool_decide (x = y).
Definition slices_Equal (x y : list string) : bool := bool_decide (x = y).

(** [c.CryptoProperties.AssetType] *)
Definition assetType (c : cdx.Component) : outcome cdx.CryptoAssetType :=
  cp ← deref (cdx.CryptoPropertiesOf c); Returns (cdx.AssetType cp).

(** [c.CryptoProperties.AlgorithmProperties.f] *)
Definition algField {A} (f : cdx.CryptoAlgorithmProperties -> A) (c : cdx.Component)
  : outcome A :=
  cp ← deref (cdx.CryptoPropertiesOf c);
  ap ← deref (cdx.AlgorithmProperties cp);
  Returns (f ap).

(** [*c.CryptoProperties.AlgorithmProperties.f] for a pointer field [f] *)
Definition algPtrField {A} (f : cdx.CryptoAlgorithmProperties -> option A)
  (c : cdx.Component) : outcome A :=
  p ← algField f c; deref p.

(** [c.CryptoProperties.OID] *)
Definition oidOf (c : cdx.Component) : outcome string :=
  cp ← deref (cdx.CryptoPropertiesOf c); Returns (cdx.OID cp).

(** [x == y && rest], operands evaluated left to right, [rest] only when
    the comparison holds. *)
Definition and_then {A} (cmp : A -> A -> bool) (x y : outcome A)
  (rest : outcome bool) : outcome bool :=
  vx ← x; vy ← y; if cmp vx vy then rest else Returns false.

(** Check if a equals b while ignoring BOMReferences *)
Definition strippedAlgorithmEquals (a b : cdx.Component) : outcome bool :=
  ta ← assetType a;
  if negb (str_eq ta cdx.CryptoAssetTypeAlgorithm) then Panics strippedAlgorithmEquals_panic
  else
    tb ← assetType b;
    if negb (str_eq tb cdx.CryptoAssetTypeAlgorithm) then Panics strippedAlgorithmEquals_panic
    else
      and_then str_eq (Returns (cdx.Name a)) (Returns (cdx.Name b)) (
      and_then str_eq (algField cdx.Primitive a) (algField cdx.Primitive b) (
      and_then str_eq (algField cdx.ExecutionEnvironment a)
                      (algField cdx.ExecutionEnvironment b) (
      and_then str_eq (algField cdx.ImplementationPlatform a)
                      (algField cdx.ImplementationPlatform b) (
      and_then slices_Equal (algPtrField cdx.CertificationLevel a)
                            (algPtrField cdx.CertificationLevel b) (
      and_then slices_Equal (algPtrField cdx.CryptoFunctions a)
                            (algPtrField cdx.CryptoFunctions b) (
      and_then str_eq (oidOf a) (oidOf b) (
      vx ← algField cdx.Padding a; vy ← algField cdx.Padding b;
      Returns (str_eq vx vy)))))))).

(** The loop of [strippedAlgorithmContains] over its argument [list]. *)
Fixpoint strippedAlgorithmContains_loop (comp : cdx.Component) (lst : list cdx.Component)
  : outcome (bool * cdx.Component) :=
  match lst with
  | [] => Returns (false, cdx.zeroComponent)
  | comp2 :: rest =>
      t2 ← assetType comp2;
      if str_eq t2 cdx.CryptoAssetTypeAlgorithm then
        same ← strippedAlgorithmEquals comp comp2;
        if (same : bool) then Returns (true, comp2)
        else strippedAlgorithmContains_loop comp rest
      else strippedAlgorithmContains_loop comp rest
  end.

(** Check if comp is contained in list while ignoring BOMReferences *)
Definition strippedAlgorithmContains (comp : cdx.Component) (lst : list cdx.Component)
  : outcome (bool * cdx.Component) :=
  t ← assetType comp;
  if negb (str_eq t cdx.CryptoAssetTypeAlgorithm) then Panics strippedAlgorithmContains_panic
  else strippedAlgorithmContains_loop comp lst.

(** ** Rewriting references: [replaceBomRefUsages] *)

Definition setSignatureAlgorithmRef (r : cdx.BOMReference) (c : cdx.CertificateProperties)
  : cdx.CertificateProperties :=
  {| cdx.SubjectName := cdx.SubjectName c; cdx.IssuerName := cdx.IssuerName c;
     cdx.NotValidBefore := cdx.NotValidBefore c; cdx.NotValidAfter := cdx.NotValidAfter c;
     cdx.SignatureAlgorithmRef := r;
     cdx.SubjectPublicKeyRef := cdx.SubjectPublicKeyRef c;
     cdx.CertificateFormat := cdx.CertificateFormat c;
     cdx.CertificateExtension := cdx.CertificateExtension c |}.

Definition setSubjectPublicKeyRef (r : cdx.BOMReference) (c : cdx.CertificateProperties)
  : cdx.CertificateProperties :=
  {| cdx.SubjectName := cdx.SubjectName c; cdx.IssuerName := cdx.IssuerName c;
     cdx.NotValidBefore := cdx.NotValidBefore c; cdx.NotValidAfter := cdx.NotValidAfter c;
     cdx.SignatureAlgorithmRef := cdx.SignatureAlgorithmRef c;
     cdx.SubjectPublicKeyRef := r;
     cdx.CertificateFormat := cdx.CertificateFormat c;
     cdx.CertificateExtension := cdx.CertificateExtension c |}.

Definition setAlgorithmRef (r : cdx.BOMReference) (m : cdx.RelatedCryptoMaterialProperties)
  : cdx.RelatedCryptoMaterialProperties :=
  {| cdx.RcmType := cdx.RcmType m; cdx.RcmID := cdx.RcmID m; cdx.RcmState := cdx.RcmState m;
     cdx.AlgorithmRef := r; cdx.RcmValue := cdx.RcmValue m; cdx.RcmSize := cdx.RcmSize m |}.

Definition setCertificateProperties (c : cdx.CertificateProperties) (cp : cdx.CryptoProperties)
  : cdx.CryptoProperties :=
  {| cdx.AssetType := cdx.AssetType cp; cdx.AlgorithmProperties := cdx.AlgorithmProperties cp;
     cdx.CertificatePropertiesOf := Some c;
     cdx.RelatedCryptoMaterialPropertiesOf := cdx.RelatedCryptoMaterialPropertiesOf cp;
     cdx.OID := cdx.OID cp |}.

Definition setRelatedCryptoMaterialProperties (m : cdx.RelatedCryptoMaterialProperties)
  (cp : cdx.CryptoProperties) : cdx.CryptoProperties :=
  {| cdx.AssetType := cdx.AssetType cp; cdx.AlgorithmProperties := cdx.AlgorithmProperties cp;
     cdx.CertificatePropertiesOf := cdx.CertificatePropertiesOf cp;
     cdx.RelatedCryptoMaterialPropertiesOf := Some m;
     cdx.OID := cdx.OID cp |}.

Definition setBOMRef (r : string) (c : cdx.Component) : cdx.Component :=
  {| cdx.BOMRef := r; cdx.ComponentType := cdx.ComponentType c; cdx.Name := cdx.Name c;
     cdx.Version := cdx.Version c; cdx.Description := cdx.Description c;
     cdx.CryptoPropertiesOf := cdx.CryptoPropertiesOf c |}.

Definition setCryptoProperties (cp : option cdx.CryptoProperties) (c : cdx.Component)
  : cdx.Component :=
  {| cdx.BOMRef := cdx.BOMRef c; cdx.ComponentType := cdx.ComponentType c;
     cdx.Name := cdx.Name c; cdx.Version := cdx.Version c;
     cdx.Description := cdx.Description c; cdx.CryptoPropertiesOf := cp |}.

(** The writes of one iteration that go through the pointer
    [comp.CryptoProperties]: at most one reference field is rewritten, then
    the iteration ends with [continue]. *)
Definition replaceInCryptoProperties (oldRef newRef : cdx.BOMReference)
  (cp : cdx.CryptoProperties) : cdx.CryptoProperties :=
  match cdx.CertificatePropertiesOf cp with
  | Some cert =>
      if str_eq (cdx.SignatureAlgorithmRef cert) oldRef then
        setCertificateProperties (setSignatureAlgorithmRef newRef cert) cp   (* continue *)
      else if str_eq (cdx.SubjectPublicKeyRef cert) oldRef then
        setCertificateProperties (setSubjectPublicKeyRef newRef cert) cp     (* continue *)
      else cp
  | None =>
      match cdx.RelatedCryptoMaterialPropertiesOf cp with
      | Some m =>
          if str_eq (cdx.AlgorithmRef m) oldRef then
            setRelatedCryptoMaterialProperties (setAlgorithmRef newRef m) cp (* continue *)
          else cp
      | None => cp
      end
  end.

(** One iteration of [for _, comp := range *components].  The loop variable
    [comp] is a copy of the slice element [elem]; the copy and the element
    point to the same [CryptoProperties].  The result is the pair of the
    loop variable and of the slice element when the iteration ends. *)
Definition replaceBomRefUsages_iteration (oldRef newRef : cdx.BOMReference)
  (elem : cdx.Component) : cdx.Component * cdx.Component :=
  let comp := elem in
  let comp := if str_eq (cdx.BOMRef comp) oldRef then setBOMRef newRef comp else comp in
  let pointee := replaceInCryptoProperties oldRef newRef <$> cdx.CryptoPropertiesOf comp in
  (setCryptoProperties pointee comp, setCryptoProperties pointee elem).

(** Replace all usages of oldRef by newRef in components.  The result is the
    slice [*components] when the function returns. *)
Definition replaceBomRefUsages (oldRef newRef : cdx.BOMReference)
  (components : option (list cdx.Component)) : outcome (list cdx.Component) :=
  elems ← deref components;
  Returns (map (fun elem => snd (replaceBomRefUsages_iteration oldRef newRef elem)) elems).

(** The reference fields of a component and all identifiers it mentions. *)
Definition referenceFields (c : cdx.Component) : list cdx.BOMReference :=
  match cdx.CryptoPropertiesOf c with
  | Some cp =>
      match cdx.CertificatePropertiesOf cp with
      | Some cert => [cdx.SignatureAlgorithmRef cert; cdx.SubjectPublicKeyRef cert]
      | None => []
      end ++
      match cdx.RelatedCryptoMaterialPropertiesOf cp with
      | Some m => [cdx.AlgorithmRef m]
      | None => []
      end
  | None => []
  end.

Definition occurrences (c : cdx.Component) : list string :=
  cdx.BOMRef c :: referenceFields c.

(** ** Dependency records *)

(** The order in which one [range] statement visits the entries of a Go
    map is chosen by the runtime: each entry once, in an unspecified order
    that may differ from one run to the next. *)
Record MapRangeOrder : Type := {
  range_order : gmap cdx.BOMReference (list string) -> list (cdx.BOMReference * list string);
  range_order_perm : forall m, range_order m ≡ₚ map_to_list m
}.

(** [dependencyMapToStructSlice]: one record for each entry of the map, in
    the order of the range.  Each record points to the targets of its own
    entry ([&dependsOn] with a loop variable for each iteration, as from
    Go 1.22). *)
Definition dependencyMapToStructSlice (ρ : MapRangeOrder)
  (dependencyMap : gmap cdx.BOMReference (list string)) : list cdx.Dependency :=
  (fun entry => {| cdx.Ref := fst entry; cdx.Dependencies := Some (snd entry) |})
    <$> range_order ρ dependencyMap.

Fixpoint indexOf (slice : list cdx.Dependency) (bomRef : cdx.BOMReference) : option nat :=
  match slice with
  | [] => None
  | dep :: rest =>
      if str_eq (cdx.Ref dep) bomRef then Some O
      else S <$> indexOf rest bomRef
  end.

(** Return index in slice if bomRef is found in slice or -1 if not present *)
Definition IndexBomRefInDependencySlice (slice : list cdx.Dependency)
  (bomRef : cdx.BOMReference) : Z :=
  match indexOf slice bomRef with
  | Some i => Z.of_nat i
  | None => (-1)%Z
  end.

(** The inner loop of [MergeDependencyStructSlice] over the targets [s] of
    [otherStruct]; [cur] is the pointer [this[i].Dependencies] with its
    pointee. *)
Fixpoint mergeTargets (targets : list string) (cur : option (list string))
  : outcome (option (list string)) :=
  match targets with
  | [] => Returns cur
  | s :: rest =>
      l ← deref cur;
      if bool_decide (s ∈ l) then mergeTargets rest cur
      else mergeTargets rest (Some (l ++ [s]))
  end.

Definition indexOutOfRange : panic := PanicMsg "runtime error: index out of range".

(** The body of the outer loop for one [otherStruct]. *)
Definition mergeDependency (this : list cdx.Dependency) (otherStruct : cdx.Dependency)
  : outcome (list cdx.Dependency) :=
  let i := IndexBomRefInDependencySlice this (cdx.Ref otherStruct) in
  if bool_decide (i ≠ (-1)%Z) then
    targets ← deref (cdx.Dependencies otherStruct);
    match this !! Z.to_nat i with
    | Some rec =>
        deps ← mergeTargets targets (cdx.Dependencies rec);
        Returns (<[Z.to_nat i := {| cdx.Ref := cdx.Ref rec; cdx.Dependencies := deps |}]> this)
    | None => Panics indexOutOfRange
    end
  else Returns (this ++ [otherStruct]).

Fixpoint MergeDependencyStructSlice (this other : list cdx.Dependency)
  : outcome (list cdx.Dependency) :=
  match other with
  | [] => Returns this
  | otherStruct :: rest =>
      this' ← mergeDependency this otherStruct;
      MergeDependencyStructSlice this' rest
  end.

(** The document: [cdx.BOM], with the two collections the plugin updates. *)
Record BOM : Type := {
  SerialNumber : string;
  Components : option (list cdx.Component);      (* *[]Component *)
  BomDependencies : option (list cdx.Dependency) (* field [Dependencies], *[]Dependency *)
}.

(** The end of [UpdateBOM]: the components and the dependency map of the
    merged graph are added to the document. *)
Definition addToBOM (ρ : MapRangeOrder) (bom : BOM) (components : list cdx.Component)
  (dependencyMap : gmap cdx.BOMReference (list string)) : outcome BOM :=
  let comps := match Components bom with Some cs => cs | None => [] end in
  let comps := comps ++ components in
  let deps := match BomDependencies bom with Some ds => ds | None => [] end in
  deps ← MergeDependencyStructSlice deps (dependencyMapToStructSlice ρ dependencyMap);
  Returns {| SerialNumber := SerialNumber bom; Components := Some comps;
          BomDependencies := Some deps |}.

(** ** Errors and the log *)

(** Go [error] values.  A nil [error] is [None] of [option error].  The
    sentinels are package-level variables compared by identity:
    [errX509UnknownAlgorithm] of this package,
    [ErrParsingFailedAlthoughChecked] of [scanner/errors], and the two
    walk-control values [fs.SkipDir] and [fs.SkipAll] of [io/fs];
    [wrapError] and [wrapErrors] are the errors [fmt.Errorf] builds with
    one or two [%w] verbs. *)
Inductive error : Type :=
  | errX509UnknownAlgorithm
  | ErrParsingFailedAlthoughChecked
  | fs_SkipDir
  | fs_SkipAll
  | errorString (msg : string)
  | wrapError (msg : string) (inner : error)
  | wrapErrors (msg : string) (first second : error).

#[global] Instance error_eq_dec : EqDecision error.
Proof. solve_decision. Defined.

(** [errors.Is(err, target)] for a non-nil [err]. *)
Fixpoint errors_Is_nonnil (err target : error) : bool :=
  bool_decide (err = target) ||
  match err with
  | wrapError _ inner => errors_Is_nonnil inner target
  | wrapErrors _ e1 e2 => errors_Is_nonnil e1 target || errors_Is_nonnil e2 target
  | _ => false
  end.

(** [errors.Is(err, target)]; a nil [err] matches no sentinel. *)
Definition errors_Is (err : option error) (target : error) : bool :=
  match err with
  | Some e => errors_Is_nonnil e target
  | None => false
  end.

(** Modelled from the spec: the helper [GetParsingFailedAlthoughCheckedError]
    of package [scanner/errors] is not part of the sources at hand.  The
    specification says a file that "matched a recognized extension but failed
    to parse" is signalled "distinctly from other I/O errors" through "a
    sentinel error value checked by identity along the call chain": the
    helper wraps the sentinel together with the parse error. *)
Definition GetParsingFailedAlthoughCheckedError (parsingError : error) (plugin : string)
  : error :=
  wrapErrors plugin ErrParsingFailedAlthoughChecked parsingError.

Inductive level : Type := LevelDebug | LevelInfo | LevelWarn | LevelError.

#[global] Instance level_eq_dec : EqDecision level.
Proof. solve_decision. Defined.

Record logEntry : Type := { entryLevel : level; entryMsg : string }.

#[global] Instance logEntry_eq_dec : EqDecision logEntry.
Proof. solve_decision. Defined.

Definition log := list logEntry.

Definition slog_Info (msg : string) (lg : log) : log :=
  lg ++ [{| entryLevel := LevelInfo; entryMsg := msg |}].
Definition slog_Warn (msg : string) (lg : log) : log :=
  lg ++ [{| entryLevel := LevelWarn; entryMsg := msg |}].
Definition slog_Error (msg : string) (lg : log) : log :=
  lg ++ [{| entryLevel := LevelError; entryMsg := msg |}].

Definition warnings (lg : log) : list logEntry :=
  filter (fun e => entryLevel e = LevelWarn) lg.

(** ** Decoding collaborators *)

#[global] Instance byte_eq_dec : EqDecision byte := Byte.byte_eq_dec.

(** [inspect a] keeps the equation between [a] and the pattern it is
    matched against. *)
Definition inspect {A} (a : A) : {b | a = b} := exist _ a eq_refl.

Definition bytes := list byte.

(** [pem.Block] *)
Record pem_Block : Type := {
  BlockType : string;                     (* field [Type] *)
  BlockHeaders : list (string * string);  (* field [Headers] *)
  BlockBytes : bytes                      (* field [Bytes] *)
}.

(** [encoding/pem]: [pem.Decode data] returns the next block and the rest of
    the input, or no block and the whole input.  A block that was found
    consumed at least its framing. *)
Class PemDecoder : Type := {
  pem_Decode : bytes -> option pem_Block * bytes;
  pem_Decode_consumes : forall data block rest,
    pem_Decode data = (Some block, rest) -> length rest < length data
}.

(** The other decoders: [pkcs7.Parse] (its result is the [Certificates]
    field of the parsed object, or a nil object), and the two constructors
    of [x509CertificateWithMetadata] of this package. *)
Class CertificateParsers (Certificate CertWithMetadata : Type) : Type := {
  pkcs7_Parse : bytes -> option (list Certificate) * option error;
  newX509CertificateWithMetadata :
    Certificate -> string -> CertWithMetadata * option error;
  parseCertificatesToX509CertificateWithMetadata :
    bytes -> string -> list CertWithMetadata * option error
}.

Definition unsupportedPemPart : string :=
  "PEM file contains part that is not yet supported, continuing anyway".

Section Parsing.
Context `{PemDecoder} {Certificate CertWithMetadata : Type}.
Context `{!CertificateParsers Certificate CertWithMetadata}.

(** The first loop of [parsex509CertFromPath]: [for len(rest) != 0].  Each
    turn that goes on has decoded a block, so [rest] got shorter. *)
Equations? collectBlocks (rest : bytes) (blocks : list pem_Block) (lg : log)
  : list pem_Block * log by wf (length rest) lt :=
  collectBlocks [] blocks lg := (blocks, lg);
  collectBlocks (c :: cs) blocks lg with inspect (pem_Decode (c :: cs)) := {
    | exist _ (Some newBlock, rest') E =>
        if negb (str_eq (BlockType newBlock) "CERTIFICATE") then
          collectBlocks rest' blocks (slog_Warn unsupportedPemPart lg)   (* continue *)
        else collectBlocks rest' (blocks ++ [newBlock]) lg;
    | exist _ (None, _) E => (blocks, lg) }.                              (* break *)
Proof. all: apply pem_Decode_consumes in E; simpl in E; lia. Qed.

(** The second loop of [parsex509CertFromPath]: [for _, block := range blocks]. *)
Fixpoint parseBlocks (blocks : list pem_Block) (path : string)
  (certs : list CertWithMetadata) : list CertWithMetadata * option error :=
  match blocks with
  | [] => (certs, None)
  | block :: rest =>
      let '(moreCerts, err) :=
        parseCertificatesToX509CertificateWithMetadata (BlockBytes block) path in
      match err with
      | Some e => (moreCerts, Some e)
      | None => parseBlocks rest path (certs ++ moreCerts)
      end
  end.

(** Parse a X.509 certificate from the given path (in base64 PEM or binary DER) *)
Definition parsex509CertFromPath (raw : bytes) (path : string) (lg : log)
  : list CertWithMetadata * option error * log :=
  let '(blocks, lg') := collectBlocks raw [] lg in
  match blocks with
  | [] => (parseCertificatesToX509CertificateWithMetadata raw path, lg')
  | _ :: _ => (parseBlocks blocks path [], lg')
  end.

(** The loop of [parsePKCS7FromPath] over [pkcs7Object.Certificates]. *)
Fixpoint certificatesWithMetadata (certificates : list Certificate) (path : string)
  (certsWithMetadata : list CertWithMetadata) : list CertWithMetadata * option error :=
  match certificates with
  | [] => (certsWithMetadata, None)
  | cert :: rest =>
      let '(certWithMetadata, err) := newX509CertificateWithMetadata cert path in
      match err with
      | Some e => ([], Some e)
      | None => certificatesWithMetadata rest path (certsWithMetadata ++ [certWithMetadata])
      end
  end.

(** Parse X.509 certificates from a PKCS7 file (base64 PEM format) *)
Definition parsePKCS7FromPath (raw : bytes) (path : string)
  : outcome (list CertWithMetadata * option error) :=
  let '(block, _) := pem_Decode raw in
  b ← deref block;     (* [block.Bytes] *)
  let '(pkcs7Object, err) := pkcs7_Parse (BlockBytes b) in
  match err, pkcs7Object with
  | None, Some certificates => Returns (certificatesWithMetadata certificates path [])
  | _, _ => Returns ([], err)
  end.

End Parsing.

(** ** The filesystem walk *)

Definition is_sep_or_dot (c : ascii) : bool :=
  bool_decide (c = "/"%char) || bool_decide (c = "."%char).

Fixpoint has_sep_or_dot (s : string) : bool :=
  match s with
  | EmptyString => false
  | String c rest => is_sep_or_dot c || has_sep_or_dot rest
  end.

(** [filepath.Ext]: the suffix beginning at the final dot in the final
    element of [path]; empty if there is no dot. *)
Fixpoint filepath_Ext (path : string) : string :=
  match path with
  | EmptyString => EmptyString
  | String c rest =>
      if has_sep_or_dot rest then filepath_Ext rest
      else if bool_decide (c = "."%char) then path
      else EmptyString
  end.

Definition certificateExtensions : list string :=
  [".pem"; ".cer"; ".cert"; ".der"; ".ca-bundle"; ".crt"].
Definition pkcs7Extensions : list string :=
  [".p7a"; ".p7b"; ".p7c"; ".p7r"; ".p7s"; ".spc"].

(** What [filepath.WalkDir] hands to its callback for one entry of the
    tree, with the result of [filepath.Rel(rootPath, path)].
    [entry_depth] is the number of directories above the entry, the root
    of the walk having depth 0: it tells which of the entries that follow
    lie inside a directory. *)
Record WalkEntry : Type := {
  entry_err : option error;
  entry_IsDir : bool;
  entry_Rel : string * option error;
  entry_depth : nat
}.

(** A filesystem: its entries in the order [filepath.WalkDir] visits them
    when none is skipped, and the contents of its files. *)
Record Filesystem : Type := {
  fs_entries : list WalkEntry;
  fs_ReadFile : string -> bytes * option error
}.

(** [FilePathAnalysisFunc], with the state [S] its closure captures. *)
Definition FilePathAnalysisFunc (S : Type) : Type :=
  string -> S -> log -> outcome (option error * S * log).

(** The entry [log.Warn(err.Error())] writes; the text of the error is not
    modelled, every such entry carries this message. *)
Definition skippedFile : string := "scanner: parsing failed although checked".

(** The callback [PlainFilesystem.WalkDir] gives to [filepath.WalkDir]. *)
Definition walkDirFunc {S} (fn : FilePathAnalysisFunc S) (entry : WalkEntry) (st : S)
  (lg : log) : outcome (option error * S * log) :=
  match entry_err entry with
  | Some e => Returns (Some e, st, lg)
  | None =>
      if entry_IsDir entry then Returns (None, st, lg)
      else
        let '(relativePath, err) := entry_Rel entry in
        match err with
        | Some e => Returns (Some e, st, lg)
        | None =>
            '(err, st', lg') ← fn relativePath st lg;
            if errors_Is err ErrParsingFailedAlthoughChecked then
              Returns (None, st', slog_Warn skippedFile lg')
            else Returns (err, st', lg')
        end
  end.

(** [filepath.WalkDir] over the entries of the tree, in the lexical order
    of the walk.  [skip] is the depth from which the entries are being
    skipped, if any.  What the callback returns decides how the walk goes on:
    - nil: with the next entry;
    - [fs.SkipDir] (compared by identity): the directory is skipped, which is
      the entry itself when it is a directory and the directory holding it
      otherwise, and the walk goes on behind it;
    - [fs.SkipAll] (compared by identity): the walk stops and returns nil;
    - any other error: the walk stops and returns that error. *)
Definition skipped (skip : option nat) (entry : WalkEntry) : bool :=
  match skip with
  | Some depth => bool_decide (depth <= entry_depth entry)
  | None => false
  end.

Definition skipFrom (entry : WalkEntry) : nat :=
  if entry_IsDir entry then S (entry_depth entry) else entry_depth entry.

Fixpoint walkEntries {S}
  (fn : WalkEntry -> S -> log -> outcome (option error * S * log))
  (skip : option nat) (entries : list WalkEntry) (st : S) (lg : log)
  : outcome (option error * S * log) :=
  match entries with
  | [] => Returns (None, st, lg)
  | entry :: rest =>
      if skipped skip entry then walkEntries fn skip rest st lg
      else
        '(err, st', lg') ← fn entry st lg;
        match err with
        | None => walkEntries fn None rest st' lg'
        | Some e =>
            if bool_decide (e = fs_SkipDir) then
              walkEntries fn (Some (skipFrom entry)) rest st' lg'
            else if bool_decide (e = fs_SkipAll) then Returns (None, st', lg')
            else Returns (Some e, st', lg')
        end
  end.

Definition filepath_WalkDir {S}
  (fn : WalkEntry -> S -> log -> outcome (option error * S * log))
  (entries : list WalkEntry) (st : S) (lg : log) : outcome (option error * S * log) :=
  walkEntries fn None entries st lg.

(** The entries behind a directory: those that follow once the entries of
    depth [depth] or more, which lie inside it, are left out. *)
Fixpoint afterDirectory (depth : nat) (entries : list WalkEntry) : list WalkEntry :=
  match entries with
  | [] => []
  | entry :: rest =>
      if bool_decide (depth <= entry_depth entry) then afterDirectory depth rest
      else entries
  end.

(** WalkDir Walk the whole PlainFilesystem using fn *)
Definition WalkDir {S} (fs : Filesystem) (fn : FilePathAnalysisFunc S) (st : S) (lg : log)
  : outcome (option error * S * log) :=
  filepath_WalkDir (walkDirFunc fn) (fs_entries fs) st lg.

(** ** [UpdateBOM] *)

(** The graph collaborators (package [bom-dag] and [generateDAG] of this
    package).  Node identifiers are drawn from the generator that
    [uuid.SetRand] installs; its state is threaded through the operations
    that create nodes. *)
Class BomDAG (CertWithMetadata DAG Rand : Type) : Type := {
  rand_NewSource : Z -> Rand;
  NewBomDAG : DAG;
  generateDAG : CertWithMetadata -> Rand -> DAG * option error * Rand;
  dag_Merge : DAG -> DAG -> Rand -> DAG * option error * Rand;
  GetCDXComponents :
    DAG -> list cdx.Component * gmap cdx.BOMReference (list string) * option error
}.

Definition pluginName : string := "Certificate File Plugin".
Definition unknownAlgorithms : string :=
  "X.509 certs contained unknown algorithms. Continuing anyway".
Definition mergingFailed : string := "Merging of DAGs failed".
Definition searchingDone : string := "Certificate searching done".

Section UpdateBOM.
Context `{PemDecoder} {Certificate CertWithMetadata DAG Rand : Type}.
Context `{!CertificateParsers Certificate CertWithMetadata}.
Context `{!BomDAG CertWithMetadata DAG Rand}.

(** The function literal [UpdateBOM] passes to [fs.WalkDir]; it appends to
    the captured variable [certificates]. *)
Definition analyseFile (fs : Filesystem) : FilePathAnalysisFunc (list CertWithMetadata) :=
  fun path certificates lg =>
  let ext := filepath_Ext path in
  if bool_decide (ext ∈ certificateExtensions) then
    let '(raw, err) := fs_ReadFile fs path in
    match err with
    | Some e => Returns (Some e, certificates, lg)
    | None =>
        let '(certs, err, lg') := parsex509CertFromPath raw path lg in
        match err with
        | Some e =>
            Returns (Some (GetParsingFailedAlthoughCheckedError e pluginName),
                     certificates, lg')
        | None => Returns (None, certificates ++ certs, lg')
        end
    end
  else if bool_decide (ext ∈ pkcs7Extensions) then
    let '(raw, err) := fs_ReadFile fs path in
    match err with
    | Some e => Returns (Some e, certificates, lg)
    | None =>
        '(certs, err) ← parsePKCS7FromPath raw path;
        match err with
        | Some e =>
            Returns (Some (GetParsingFailedAlthoughCheckedError e pluginName),
                     certificates, lg)
        | None => Returns (None, certificates ++ certs, lg)
        end
    end
  else Returns (None, certificates, lg).

(** One turn of [for _, cert := range certificates]: [inl] is the state
    the loop goes on with, [inr] the error [UpdateBOM] returns. *)
Definition mergeCertificate (cert : CertWithMetadata) (dag : DAG) (rng : Rand) (lg : log)
  : (DAG * Rand * log) + (error * DAG * Rand * log) :=
  let '(certDAG, err, rng1) := generateDAG cert rng in
  let merge (lg1 : log) :=
    let '(dag', merr, rng2) := dag_Merge dag certDAG rng1 in
    match merr with
    | Some e => inr (e, dag', rng2, slog_Error mergingFailed lg1)
    | None => inl (dag', rng2, lg1)
    end in
  if errors_Is err errX509UnknownAlgorithm then merge (slog_Info unknownAlgorithms lg)
  else
    match err with
    | Some e => inr (e, dag, rng1, lg)
    | None => merge lg
    end.

Fixpoint mergeCertificates (certificates : list CertWithMetadata) (dag : DAG) (rng : Rand)
  (lg : log) : option error * DAG * Rand * log :=
  match certificates with
  | [] => (None, dag, rng, lg)
  | cert :: rest =>
      match mergeCertificate cert dag rng lg with
      | inl (dag', rng', lg') => mergeCertificates rest dag' rng' lg'
      | inr (e, dag', rng', lg') => (Some e, dag', rng', lg')
      end
  end.

(** The seed [UpdateBOM] gives to [rand.NewSource]. *)
Definition uuidSeed : Z := 1.

(** Add the found certificates to the slice of components *)
Definition UpdateBOM (ρ : MapRangeOrder) (fs : Filesystem) (bom : BOM) (lg : log)
  : outcome (option error * BOM * log) :=
  '(err, certificates, lg1) ← WalkDir fs (analyseFile fs) [] lg;
  match err with
  | Some e => Returns (Some e, bom, lg1)
  | None =>
      let lg2 := slog_Info searchingDone lg1 in
      let rng := rand_NewSource uuidSeed in
      let dag := NewBomDAG in
      let '(err, dag', _, lg3) := mergeCertificates certificates dag rng lg2 in
      match err with
      | Some e => Returns (Some e, bom, lg3)
      | None =>
          let '(components, dependencyMap, err) := GetCDXComponents dag' in
          match err with
          | Some e => Returns (Some e, bom, lg3)
          | None =>
              bom' ← addToBOM ρ bom components dependencyMap;
              Returns (None, bom', lg3)
          end
      end
  end.

End UpdateBOM.

(** ** Vocabulary of the properties: algorithm components *)

(** [isAlgorithm c]: [c.CryptoProperties] is set and its asset type is
    [algorithm]. *)
Definition isAlgorithm (c : cdx.Component) : bool :=
  match cdx.CryptoPropertiesOf c with
  | Some cp => str_eq (cdx.AssetType cp) cdx.CryptoAssetTypeAlgorithm
  | None => false
  end.

(** The algorithm properties of a component, when they are set. *)
Definition algorithmPropertiesOf (c : cdx.Component) : option cdx.CryptoAlgorithmProperties :=
  cp ← cdx.CryptoPropertiesOf c; cdx.AlgorithmProperties cp.

(** [algorithmFieldsSet c]: the pointers [strippedAlgorithmEquals] follows in
    an algorithm component are all set. *)
Definition algorithmFieldsSet (c : cdx.Component) : bool :=
  match algorithmPropertiesOf c with
  | Some ap =>
      bool_decide (is_Some (cdx.CertificationLevel ap)) &&
      bool_decide (is_Some (cdx.CryptoFunctions ap))
  | None => false
  end.

(** The eight descriptive fields the specification lists. *)
Record agreeOnEight (a b : cdx.Component) : Prop := {
  agree_Name : cdx.Name a = cdx.Name b;
  agree_Primitive :
    cdx.Primitive <$> algorithmPropertiesOf a = cdx.Primitive <$> algorithmPropertiesOf b;
  agree_ExecutionEnvironment :
    cdx.ExecutionEnvironment <$> algorithmPropertiesOf a =
    cdx.ExecutionEnvironment <$> algorithmPropertiesOf b;
  agree_ImplementationPlatform :
    cdx.ImplementationPlatform <$> algorithmPropertiesOf a =
    cdx.ImplementationPlatform <$> algorithmPropertiesOf b;
  agree_CertificationLevel :
    algorithmPropertiesOf a ≫= cdx.CertificationLevel =
    algorithmPropertiesOf b ≫= cdx.CertificationLevel;
  agree_CryptoFunctions :
    algorithmPropertiesOf a ≫= cdx.CryptoFunctions =
    algorithmPropertiesOf b ≫= cdx.CryptoFunctions;
  agree_OID :
    cdx.OID <$> cdx.CryptoPropertiesOf a = cdx.OID <$> cdx.CryptoPropertiesOf b;
  agree_Padding :
    cdx.Padding <$> algorithmPropertiesOf a = cdx.Padding <$> algorithmPropertiesOf b
}.

(** An RSA signature algorithm whose [CertificationLevel] pointer is nil. *)
Definition sha256WithRSA_noLevels (ref : string) : cdx.Component :=
  {| cdx.BOMRef := ref; cdx.ComponentType := "cryptographic-asset";
     cdx.Name := "SHA256-RSA"; cdx.Version := ""; cdx.Description := "";
     cdx.CryptoPropertiesOf := Some
       {| cdx.AssetType := cdx.CryptoAssetTypeAlgorithm;
          cdx.AlgorithmProperties := Some
            {| cdx.Primitive := "signature"; cdx.ParameterSetIdentifier := "";
               cdx.Curve := ""; cdx.ExecutionEnvironment := "unknown";
               cdx.ImplementationPlatform := "unknown";
               cdx.CertificationLevel := None; cdx.Mode := "";
               cdx.Padding := "pkcs1v15"; cdx.CryptoFunctions := Some ["sign"];
               cdx.ClassicalSecurityLevel := None;
               cdx.NistQuantumSecurityLevel := None |};
          cdx.CertificatePropertiesOf := None;
          cdx.RelatedCryptoMaterialPropertiesOf := None;
          cdx.OID := "1.2.840.113549.1.1.11" |} |}.

(** An algorithm component with every pointer set. *)
Definition algorithmComponent (ref name primitive padding oid : string)
  (levels functions : list string) : cdx.Component :=
  {| cdx.BOMRef := ref; cdx.ComponentType := "cryptographic-asset";
     cdx.Name := name; cdx.Version := ""; cdx.Description := "";
     cdx.CryptoPropertiesOf := Some
       {| cdx.AssetType := cdx.CryptoAssetTypeAlgorithm;
          cdx.AlgorithmProperties := Some
            {| cdx.Primitive := primitive; cdx.ParameterSetIdentifier := "";
               cdx.Curve := ""; cdx.ExecutionEnvironment := "unknown";
               cdx.ImplementationPlatform := "unknown";
               cdx.CertificationLevel := Some levels; cdx.Mode := "";
               cdx.Padding := padding; cdx.CryptoFunctions := Some functions;
               cdx.ClassicalSecurityLevel := None;
               cdx.NistQuantumSecurityLevel := None |};
          cdx.CertificatePropertiesOf := None;
          cdx.RelatedCryptoMaterialPropertiesOf := None;
          cdx.OID := oid |} |}.

Definition sha256WithRSA (ref : string) : cdx.Component :=
  algorithmComponent ref "SHA256-RSA" "signature" "pkcs1v15" "1.2.840.113549.1.1.11"
    ["unknown"] ["sign"].

(** A certificate component. *)
Definition certificateComponent (ref sigRef keyRef : string) : cdx.Component :=
  {| cdx.BOMRef := ref; cdx.ComponentType := "cryptographic-asset";
     cdx.Name := "CN=example"; cdx.Version := ""; cdx.Description := "";
     cdx.CryptoPropertiesOf := Some
       {| cdx.AssetType := cdx.CryptoAssetTypeCertificate;
          cdx.AlgorithmProperties := None;
          cdx.CertificatePropertiesOf := Some
            {| cdx.SubjectName := "CN=example"; cdx.IssuerName := "CN=example";
               cdx.NotValidBefore := ""; cdx.NotValidAfter := "";
               cdx.SignatureAlgorithmRef := sigRef;
               cdx.SubjectPublicKeyRef := keyRef;
               cdx.CertificateFormat := "X.509"; cdx.CertificateExtension := ".pem" |};
          cdx.RelatedCryptoMaterialPropertiesOf := None;
          cdx.OID := "" |} |}.


(** [onlyNil o]: if [o] panics, it is with a nil dereference, not with an
    explicit [panic]. *)
Definition onlyNil {A} (o : outcome A) : Prop :=
  forall p, o = Panics p -> p = NilDereference.

(** ** Vocabulary of the properties: occurrences of a reference *)

(** All identifiers a list of components mentions. *)
Definition allOccurrences (components : list cdx.Component) : list string :=
  concat (map occurrences components).

(** A self-signed certificate whose two references name the same algorithm
    node, followed by that algorithm node. *)
Definition selfSignedWithDuplicate : list cdx.Component :=
  [certificateComponent "cert-1" "dup" "dup"; sha256WithRSA "dup"].

(** ** Vocabulary of the properties: union of dependency records *)

(** [depsSet d]: the [Dependencies] pointer of the record is set. *)
Definition depsSet (d : cdx.Dependency) : Prop := is_Some (cdx.Dependencies d).

(** The targets of a record; none when the pointer is nil. *)
Definition targetsOf (d : cdx.Dependency) : list string :=
  match cdx.Dependencies d with
  | Some l => l
  | None => []
  end.

(** The elements of a list, each once, in order of first appearance. *)
Fixpoint firstOccurrences (l : list string) : list string :=
  match l with
  | [] => []
  | x :: rest => x :: filter (fun y => y ≠ x) (firstOccurrences rest)
  end.

(** "existing targets ∪ new targets, no duplicates, order of first
    appearance preserved": the existing targets, then the new targets that
    are not among them. *)
Definition unionTargets (existing new : list string) : list string :=
  existing ++ firstOccurrences (filter (fun s => s ∉ existing) new).

(** The union of one record [o] into [this]: the first record of [this] with
    the same [Ref] receives the targets of [o]; without such a record, [o]
    is appended whole. *)
Fixpoint unionRecord (this : list cdx.Dependency) (o : cdx.Dependency)
  : list cdx.Dependency :=
  match this with
  | [] => [o]
  | rec :: rest =>
      if bool_decide (cdx.Ref rec = cdx.Ref o) then
        {| cdx.Ref := cdx.Ref rec;
           cdx.Dependencies := Some (unionTargets (targetsOf rec) (targetsOf o)) |} :: rest
      else rec :: unionRecord rest o
  end.

Definition unionRecords (this other : list cdx.Dependency) : list cdx.Dependency :=
  foldl unionRecord this other.

(** [absorbs this o]: the first record of [this] with the [Ref] of [o] holds
    every target of [o]. *)
Fixpoint absorbs (this : list cdx.Dependency) (o : cdx.Dependency) : Prop :=
  match this with
  | [] => False
  | rec :: rest =>
      if bool_decide (cdx.Ref rec = cdx.Ref o) then targetsOf o ⊆ targetsOf rec
      else absorbs rest o
  end.

(** Two ways the runtime may range over a dependency map: by ascending
    position in the map's list of entries, and the reverse. *)
Definition forwardOrder : MapRangeOrder :=
  {| range_order := map_to_list;
     range_order_perm := fun m => reflexivity (map_to_list m) |}.

Definition backwardOrder : MapRangeOrder :=
  {| range_order := fun m => reverse (map_to_list m);
     range_order_perm := fun m => reverse_Permutation (map_to_list m) |}.

(** A record with targets, and a record whose [Dependencies] pointer is nil
    (a document entry without [dependsOn]). *)
Definition dependencyRecord (ref : string) (targets : list string) : cdx.Dependency :=
  {| cdx.Ref := ref; cdx.Dependencies := Some targets |}.

Definition leafRecord (ref : string) : cdx.Dependency :=
  {| cdx.Ref := ref; cdx.Dependencies := None |}.

(** The collections of a document, empty when the pointer is nil. *)
Definition componentsOf (bom : BOM) : list cdx.Component :=
  match Components bom with Some cs => cs | None => [] end.

Definition dependenciesOf (bom : BOM) : list cdx.Dependency :=
  match BomDependencies bom with Some ds => ds | None => [] end.

(** A document of another scanner that already lists one component and one
    dependency record. *)
Definition existingBOM : BOM :=
  {| SerialNumber := "urn:uuid:1";
     Components := Some [sha256WithRSA "alg-1"];
     BomDependencies := Some [dependencyRecord "cert-1" ["alg-1"]] |}.

(** ** Vocabulary of the properties: PEM blocks *)

Section Blocks.
Context `{PemDecoder}.

(** The PEM blocks of an input in order of appearance: what repeated
    decoding yields until no block is found or nothing is left. *)
Equations? pemBlocks (data : bytes) : list pem_Block by wf (length data) lt :=
  pemBlocks [] := [];
  pemBlocks (c :: cs) with inspect (pem_Decode (c :: cs)) := {
    | exist _ (Some block, rest) E => block :: pemBlocks rest;
    | exist _ (None, _) E => [] }.
Proof. apply pem_Decode_consumes in E; simpl in E; lia. Qed.

End Blocks.

Definition isCertificateBlock (block : pem_Block) : Prop :=
  BlockType block = "CERTIFICATE".

#[global] Instance isCertificateBlock_dec block : Decision (isCertificateBlock block).
Proof. unfold isCertificateBlock. apply _. Defined.

(** The PEM blocks of type CERTIFICATE, in order of appearance. *)
Definition certificateBlocks `{PemDecoder} (data : bytes) : list pem_Block :=
  filter isCertificateBlock (pemBlocks data).

(** One warning for each block of another type. *)
Definition unsupportedWarnings `{PemDecoder} (data : bytes) : log :=
  (fun _ => {| entryLevel := LevelWarn; entryMsg := unsupportedPemPart |})
    <$> filter (fun block => ~ isCertificateBlock block) (pemBlocks data).

(** The certificates of a list of blocks, concatenated in the order of the
    blocks. *)
Definition concatCertificates {Certificate CertWithMetadata : Type}
  `{!CertificateParsers Certificate CertWithMetadata}
  (blocks : list pem_Block) (path : string) : list CertWithMetadata :=
  concat (map (fun block =>
     fst (parseCertificatesToX509CertificateWithMetadata (BlockBytes block) path)) blocks).

(** [parsed path block]: the contents of the block parse without error. *)
Definition parsed {Certificate CertWithMetadata : Type}
  `{!CertificateParsers Certificate CertWithMetadata}
  (path : string) (block : pem_Block) : Prop :=
  snd (parseCertificatesToX509CertificateWithMetadata (BlockBytes block) path) = None.

(** ** Stand-ins for the collaborators, used in the examples

    The theorems hold for every decoder, parser and graph that implement
    the interfaces above.  The stand-ins below give the examples something
    to run on. *)

(** A framing in which a block is a tag byte, ["C"] for a CERTIFICATE block
    and ["K"] for a PRIVATE KEY block, followed by one byte of contents;
    other bytes are skipped, as [pem.Decode] skips text between blocks. *)
Fixpoint tagScan (data : bytes) : option (pem_Block * bytes) :=
  match data with
  | [] => None
  | tag :: rest =>
      match rest with
      | contents :: rest' =>
          if bool_decide (tag = "C"%byte) then
            Some ({| BlockType := "CERTIFICATE"; BlockHeaders := [];
                     BlockBytes := [contents] |}, rest')
          else if bool_decide (tag = "K"%byte) then
            Some ({| BlockType := "PRIVATE KEY"; BlockHeaders := [];
                     BlockBytes := [contents] |}, rest')
          else tagScan rest
      | [] => None
      end
  end.

Definition tagDecode (data : bytes) : option pem_Block * bytes :=
  match tagScan data with
  | Some (block, rest) => (Some block, rest)
  | None => (None, data)
  end.

#[refine] Instance tagDecoder : PemDecoder := {| pem_Decode := tagDecode |}.
Proof.
  assert (forall data block rest,
    tagScan data = Some (block, rest) -> length rest < length data) as Hscan.
  { induction data as [|tag data IH]; intros block rest; simpl; [done|].
    destruct data as [|contents rest']; [done|].
    repeat case_bool_decide.
    - intros [= <- <-]. simpl. lia.
    - intros [= <- <-]. simpl. lia.
    - intros Hs. apply IH in Hs. simpl in *. lia. }
  intros data block rest. unfold tagDecode.
  destruct (tagScan data) as [[b r]|] eqn:E; [|done].
  intros [= <- <-]. by apply Hscan in E.
Defined.

(** Certificates are single bytes; the byte [x00] does not parse, and an
    empty PKCS7 container does not parse. *)
Definition toyCertificate : Type := byte.
Definition toyCertWithMetadata : Type := byte * string.

Definition malformedCertificate : error := errorString "x509: malformed certificate".
Definition malformedContainer : error := errorString "pkcs7: malformed container".

#[global] Instance toyParsers : CertificateParsers toyCertificate toyCertWithMetadata := {|
  pkcs7_Parse data :=
    match data with
    | [] => (None, Some malformedContainer)
    | _ :: _ => (Some data, None)
    end;
  newX509CertificateWithMetadata cert path := ((cert, path), None);
  parseCertificatesToX509CertificateWithMetadata data path :=
    if bool_decide ("000"%byte ∈ data) then ([], Some malformedCertificate)
    else (map (fun cert => (cert, path)) data, None)
|}.

(** A graph is the list of its components and the list of its dependency
    records; the generator of identifiers is a counter.  The certificate
    ["?"] names an algorithm the builder does not know, the certificate
    ["!"] cannot be turned into a graph at all, and a graph in which a node
    depends on itself is refused by the merge. *)
Definition toyDAG : Type := list cdx.Component * list (cdx.BOMReference * list string).

Definition nodeId (n : nat) : string :=
  String "n"%char (String (ascii_of_nat (48 + n)) EmptyString).

Definition unsupportedCertificate : error := errorString "x509: unsupported certificate".
Definition mergeConflict : error := errorString "bom-dag: edge would create a cycle".

Definition toyGenerateDAG (cert : toyCertWithMetadata) (rng : nat)
  : toyDAG * option error * nat :=
  let certRef := nodeId rng in
  if bool_decide (fst cert = "?"%byte) then
    (([certificateComponent certRef "" ""], []),
     Some (wrapError "signature algorithm" errX509UnknownAlgorithm), S rng)
  else if bool_decide (fst cert = "!"%byte) then
    (([], []), Some unsupportedCertificate, rng)
  else if bool_decide (fst cert = "#"%byte) then
    (([certificateComponent certRef certRef certRef], [(certRef, [certRef])]), None, S rng)
  else
    let algRef := nodeId (S rng) in
    (([certificateComponent certRef algRef algRef; sha256WithRSA algRef],
      [(certRef, [algRef])]), None, S (S rng)).

Definition selfDependent (record : cdx.BOMReference * list string) : Prop :=
  fst record ∈ snd record.

#[global] Instance selfDependent_dec record : Decision (selfDependent record).
Proof. unfold selfDependent. apply _. Defined.

Definition toyMerge (dag certDAG : toyDAG) (rng : nat) : toyDAG * option error * nat :=
  if bool_decide (Exists selfDependent (snd certDAG)) then (dag, Some mergeConflict, rng)
  else ((fst dag ++ fst certDAG, snd dag ++ snd certDAG), None, rng).

#[global] Instance toyBomDAG : BomDAG toyCertWithMetadata toyDAG nat := {|
  rand_NewSource seed := Z.to_nat seed;
  NewBomDAG := ([], []);
  generateDAG := toyGenerateDAG;
  dag_Merge := toyMerge;
  GetCDXComponents dag := (fst dag, list_to_map (snd dag), None)
|}.

(** The number of separators of a relative path. *)
Fixpoint separators (path : string) : nat :=
  match path with
  | EmptyString => 0
  | String c rest => (if bool_decide (c = "/"%char) then 1 else 0) + separators rest
  end.

(** The depth of the entry with the relative path [path]; the root is ["."]. *)
Definition depthOf (path : string) : nat :=
  if bool_decide (path = ".") then 0 else S (separators path).

Definition fileEntry (path : string) : WalkEntry :=
  {| entry_err := None; entry_IsDir := false; entry_Rel := (path, None);
     entry_depth := depthOf path |}.

Definition directoryEntry (path : string) : WalkEntry :=
  {| entry_err := None; entry_IsDir := true; entry_Rel := (path, None);
     entry_depth := depthOf path |}.

Definition notExist : error := errorString "open: no such file or directory".

(** A filesystem given by its files, visited in the order of the list. *)
Definition filesystemOf (files : list (string * bytes)) : Filesystem :=
  {| fs_entries := directoryEntry "." :: map (fun file => fileEntry (fst file)) files;
     fs_ReadFile path :=
       match list_find (fun file => fst file = path) files with
       | Some (_, file) => (snd file, None)
       | None => ([], Some notExist)
       end |}.

Definition emptyBOM : BOM :=
  {| SerialNumber := "urn:uuid:0"; Components := None; BomDependencies := None |}.

(** Two PEM files with one certificate each. *)
Definition twoCertificateFiles : Filesystem :=
  filesystemOf [("a.pem", ["C"; "1"]%byte); ("b.crt", ["C"; "2"]%byte)].

(** [isRegularFile entry path]: the walk reached the file without error and
    [path] is its path relative to the root. *)
Definition isRegularFile (entry : WalkEntry) (path : string) : Prop :=
  entry_err entry = None /\ entry_IsDir entry = false /\ entry_Rel entry = (path, None).

(** A file with a certificate extension whose contents do not parse,
    followed by a good one. *)
Definition brokenThenGood : Filesystem :=
  filesystemOf [("broken.pem", ["C"; "000"]%byte); ("good.pem", ["C"; "1"]%byte)].

(** A file that cannot be read. *)
Definition unreadableFile : Filesystem :=
  {| fs_entries := [fileEntry "gone.pem"; fileEntry "good.pem"];
     fs_ReadFile path :=
       if bool_decide (path = "good.pem") then (["C"; "1"]%byte, None)
       else ([], Some notExist) |}.

(** The filesystem [fs] with the walk going over [entries]. *)
Definition withEntries (fs : Filesystem) (entries : list WalkEntry) : Filesystem :=
  {| fs_entries := entries; fs_ReadFile := fs_ReadFile fs |}.

(** A per-file function that asks the walk to skip the directory of every
    file it is given, and counts the files it was given. *)
Definition skipDirectory : FilePathAnalysisFunc nat :=
  fun path visited lg => Returns (Some fs_SkipDir, S visited, lg).

(** A per-file function that ends the walk at the first file it is given. *)
Definition skipAll : FilePathAnalysisFunc nat :=
  fun path visited lg => Returns (Some fs_SkipAll, S visited, lg).

(** A tree with two files in a directory and one file behind it. *)
Definition nestedFiles : Filesystem :=
  {| fs_entries := [directoryEntry "."; directoryEntry "certs"; fileEntry "certs/a.pem";
                    fileEntry "certs/b.pem"; fileEntry "z.pem"];
     fs_ReadFile path := (["C"; "1"]%byte, None) |}.

(** A PKCS7 file in binary DER form: it holds no PEM block. *)
Definition derBundle : Filesystem :=
  filesystemOf [("bundle.p7b", ["0"; "1"; "2"]%byte)].


(** ** Vocabulary of the further properties: dependency slices *)

(** The [Ref]s of a slice, in order. *)
Definition refsOf (slice : list cdx.Dependency) : list string := map cdx.Ref slice.

(** The first record of a slice with a given [Ref], and its targets. *)
Fixpoint recordFor (slice : list cdx.Dependency) (ref : string) : option cdx.Dependency :=
  match slice with
  | [] => None
  | rec :: rest => if bool_decide (cdx.Ref rec = ref) then Some rec else recordFor rest ref
  end.

Definition targetsFor (slice : list cdx.Dependency) (ref : string) : list string :=
  match recordFor slice ref with
  | Some rec => targetsOf rec
  | None => []
  end.

(** [keepsRecord rec rec']: the same [Ref], and the targets of [rec] are the
    first targets of [rec']. *)
Definition keepsRecord (rec rec' : cdx.Dependency) : Prop :=
  cdx.Ref rec' = cdx.Ref rec /\ targetsOf rec `prefix_of` targetsOf rec'.

(** [keepsRecords this this']: [this'] holds, at the same positions, a record
    that keeps each record of [this]. *)
Definition keepsRecords (this this' : list cdx.Dependency) : Prop :=
  exists kept added, this' = kept ++ added /\ Forall2 keepsRecord this kept.

(** The union of [o] into [this] when [this] has a record with its [Ref];
    [this] itself otherwise. *)
Definition updateRecord (this : list cdx.Dependency) (o : cdx.Dependency)
  : list cdx.Dependency :=
  if bool_decide (cdx.Ref o ∈ refsOf this) then unionRecord this o else this.

(** The two parts of a merge: the records of [this] after the union of the
    records of [other] whose [Ref] it has, and the records of [other] whose
    [Ref] it does not have. *)
Definition updatePart (this other : list cdx.Dependency) : list cdx.Dependency :=
  foldl updateRecord this other.

Definition appendPart (this other : list cdx.Dependency) : list cdx.Dependency :=
  filter (fun o => cdx.Ref o ∉ refsOf this) other.

(** Two documents that agree on everything but the order of the dependency
    records that follow the first [n]. *)
Definition sameUpToNewRecords (n : nat) (bom1 bom2 : BOM) : Prop :=
  SerialNumber bom1 = SerialNumber bom2 /\
  Components bom1 = Components bom2 /\
  exists kept new1 new2,
    BomDependencies bom1 = Some (kept ++ new1) /\
    BomDependencies bom2 = Some (kept ++ new2) /\
    length kept = n /\ new1 ≡ₚ new2.

(** Two runs of [UpdateBOM] that end the same way: the same panic, or the
    same error with the same document and log, or success with the same
    log and documents that agree up to the order of the new dependency
    records. *)
Definition sameRun (n : nat) (run1 run2 : outcome (option error * BOM * log)) : Prop :=
  match run1, run2 with
  | Panics p1, Panics p2 => p1 = p2
  | Returns (Some e1, bom1, lg1), Returns (Some e2, bom2, lg2) =>
      e1 = e2 /\ bom1 = bom2 /\ lg1 = lg2
  | Returns (None, bom1, lg1), Returns (None, bom2, lg2) =>
      lg1 = lg2 /\ sameUpToNewRecords n bom1 bom2
  | _, _ => False
  end.

(** ** Vocabulary of the further properties: components *)

(** [matches comp x]: [x] is an algorithm component that
    [strippedAlgorithmEquals] judges equal to [comp]. *)
Definition matches (comp x : cdx.Component) : Prop :=
  isAlgorithm x = true /\ strippedAlgorithmEquals comp x = Returns true.

(** [differs comp x]: [x] is of another asset type, or an algorithm
    component that [strippedAlgorithmEquals] judges different from [comp]. *)
Definition differs (comp x : cdx.Component) : Prop :=
  (exists cp, cdx.CryptoPropertiesOf x = Some cp /\ isAlgorithm x = false) \/
  (isAlgorithm x = true /\ strippedAlgorithmEquals comp x = Returns false).

(** [scannable x]: the [CryptoProperties] of [x] are set and, when [x] is an
    algorithm, so are the pointers the comparison follows. *)
Definition scannable (x : cdx.Component) : Prop :=
  is_Some (cdx.CryptoPropertiesOf x) /\
  (isAlgorithm x = true -> algorithmFieldsSet x = true).

(** [rewritten oldRef newRef r r']: the reference [r'] is [r], or [r] was
    [oldRef] and [r'] is [newRef]. *)
Definition rewritten (oldRef newRef r r' : cdx.BOMReference) : Prop :=
  r' = r \/ (r = oldRef /\ r' = newRef).

(** The fields of the [CryptoProperties] of a component that are no
    references. *)
Definition descriptiveFields (c : cdx.Component)
  : option (cdx.CryptoAssetType * option cdx.CryptoAlgorithmProperties * string) :=
  (fun cp => (cdx.AssetType cp, cdx.AlgorithmProperties cp, cdx.OID cp))
    <$> cdx.CryptoPropertiesOf c.

(** A component with its three reference fields ([SignatureAlgorithmRef],
    [SubjectPublicKeyRef], [AlgorithmRef]) cleared.  Every other field is
    kept: those of the component, of its [CryptoProperties], of its
    [CertificateProperties] and of its [RelatedCryptoMaterialProperties],
    and which of these pointers are nil. *)
Definition withoutReferences (c : cdx.Component) : cdx.Component :=
  {| cdx.BOMRef := cdx.BOMRef c;
     cdx.ComponentType := cdx.ComponentType c;
     cdx.Name := cdx.Name c;
     cdx.Version := cdx.Version c;
     cdx.Description := cdx.Description c;
     cdx.CryptoPropertiesOf :=
       match cdx.CryptoPropertiesOf c with
       | None => None
       | Some cp =>
           Some
             {| cdx.AssetType := cdx.AssetType cp;
                cdx.AlgorithmProperties := cdx.AlgorithmProperties cp;
                cdx.CertificatePropertiesOf :=
                  match cdx.CertificatePropertiesOf cp with
                  | None => None
                  | Some cert =>
                      Some
                        {| cdx.SubjectName := cdx.SubjectName cert;
                           cdx.IssuerName := cdx.IssuerName cert;
                           cdx.NotValidBefore := cdx.NotValidBefore cert;
                           cdx.NotValidAfter := cdx.NotValidAfter cert;
                           cdx.SignatureAlgorithmRef := "";
                           cdx.SubjectPublicKeyRef := "";
                           cdx.CertificateFormat := cdx.CertificateFormat cert;
                           cdx.CertificateExtension := cdx.CertificateExtension cert |}
                  end;
                cdx.RelatedCryptoMaterialPropertiesOf :=
                  match cdx.RelatedCryptoMaterialPropertiesOf cp with
                  | None => None
                  | Some m =>
                      Some
                        {| cdx.RcmType := cdx.RcmType m;
                           cdx.RcmID := cdx.RcmID m;
                           cdx.RcmState := cdx.RcmState m;
                           cdx.AlgorithmRef := "";
                           cdx.RcmValue := cdx.RcmValue m;
                           cdx.RcmSize := cdx.RcmSize m |}
                  end;
                cdx.OID := cdx.OID cp |}
       end |}.

(** The references of the certificate properties of a component, and the
    reference of its related material when it has no certificate
    properties: the references [replaceBomRefUsages] looks at. *)
Definition visitedReferences (c : cdx.Component) : list cdx.BOMReference :=
  match cdx.CryptoPropertiesOf c with
  | Some cp =>
      match cdx.CertificatePropertiesOf cp with
      | Some cert => [cdx.SignatureAlgorithmRef cert; cdx.SubjectPublicKeyRef cert]
      | None =>
          match cdx.RelatedCryptoMaterialPropertiesOf cp with
          | Some m => [cdx.AlgorithmRef m]
          | None => []
          end
      end
  | None => []
  end.

(** A key that refers to its algorithm. *)
Definition keyComponent (ref algRef : string) : cdx.Component :=
  {| cdx.BOMRef := ref; cdx.ComponentType := "cryptographic-asset";
     cdx.Name := "public-key"; cdx.Version := ""; cdx.Description := "";
     cdx.CryptoPropertiesOf := Some
       {| cdx.AssetType := cdx.CryptoAssetTypeRelatedCryptoMaterial;
          cdx.AlgorithmProperties := None;
          cdx.CertificatePropertiesOf := None;
          cdx.RelatedCryptoMaterialPropertiesOf := Some
            {| cdx.RcmType := "public-key"; cdx.RcmID := ""; cdx.RcmState := "";
               cdx.AlgorithmRef := algRef; cdx.RcmValue := ""; cdx.RcmSize := None |};
          cdx.OID := "" |} |}.

(** ** Vocabulary of the further properties: the walk *)

(** [walkError entry e]: [filepath.WalkDir] or [filepath.Rel] failed on the
    entry with the error [e]. *)
Definition walkError (entry : WalkEntry) (e : error) : Prop :=
  entry_err entry = Some e \/
  (entry_err entry = None /\ entry_IsDir entry = false /\ snd (entry_Rel entry) = Some e).

(** [ignoredEntry entry]: a directory, or a file whose extension is in
    neither family, reached without error. *)
Definition ignoredEntry (entry : WalkEntry) : Prop :=
  entry_err entry = None /\
  (entry_IsDir entry = true \/
   (snd (entry_Rel entry) = None /\
    (filepath_Ext (fst (entry_Rel entry)) ∉ certificateExtensions) /\
    (filepath_Ext (fst (entry_Rel entry)) ∉ pkcs7Extensions))).

(** A tree of files the plugin does not look at, none of which can be
    read. *)
Definition otherFiles : Filesystem :=
  {| fs_entries := [directoryEntry "etc"; fileEntry "etc/passwd"; fileEntry "etc/ca.PEM"];
     fs_ReadFile path := ([], Some notExist) |}.

(** [PlainFilesystem] and its identifier:
    [fmt.Sprintf("Plain Filesystem (%v)", rootPath)]. *)
Record PlainFilesystem : Type := { rootPath : string }.

Definition NewPlainFilesystem (rootPath : string) : PlainFilesystem :=
  {| rootPath := rootPath |}.

Definition GetIdentifier (plainFilesystem : PlainFilesystem) : string :=
  String.append "Plain Filesystem (" (String.append (rootPath plainFilesystem) ")").
(** * Properties *)

(** ** Reference-blind equality *)

Example equals_same_fields :
  strippedAlgorithmEquals (sha256WithRSA "ref-1") (sha256WithRSA "ref-2") = Returns true.
Proof. reflexivity. Qed.

Example equals_other_padding :
  strippedAlgorithmEquals (sha256WithRSA "ref-1")
    (algorithmComponent "ref-1" "SHA256-RSA" "signature" "pss" "1.2.840.113549.1.1.11"
       ["unknown"] ["sign"]) = Returns false.
Proof. reflexivity. Qed.

Lemma str_eq_true x y : str_eq x y = true <-> x = y.
Proof. unfold str_eq. apply bool_decide_eq_true. Qed.

Lemma slices_Equal_true x y : slices_Equal x y = true <-> x = y.
Proof. unfold slices_Equal. apply bool_decide_eq_true. Qed.

Lemma isAlgorithm_assetType c :
  isAlgorithm c = true -> assetType c = Returns cdx.CryptoAssetTypeAlgorithm.
Proof.
  unfold isAlgorithm, assetType. destruct (cdx.CryptoPropertiesOf c) as [cp|]; [|done].
  intros E%str_eq_true. simpl. by rewrite E.
Qed.

Lemma not_isAlgorithm_assetType c :
  isAlgorithm c = false ->
  assetType c = Panics NilDereference \/
  exists t, assetType c = Returns t /\ str_eq t cdx.CryptoAssetTypeAlgorithm = false.
Proof.
  unfold isAlgorithm, assetType. destruct (cdx.CryptoPropertiesOf c) as [cp|]; simpl.
  - intros E. right. eauto.
  - by left.
Qed.

(** On algorithm components whose pointers are set the comparison returns,
    and returns the conjunction of the eight field comparisons. *)
Lemma strippedAlgorithmEquals_returns a b :
  isAlgorithm a = true -> isAlgorithm b = true ->
  algorithmFieldsSet a = true -> algorithmFieldsSet b = true ->
  exists r, strippedAlgorithmEquals a b = Returns r /\ (r = true <-> agreeOnEight a b).
Proof.
  destruct a as [refa tya na va da [[ta [apa|] ca ma oa]|]]; try done.
  destruct b as [refb tyb nb vb db [[tb [apb|] cb mb ob]|]]; try done.
  destruct apa as [pa psa cua ea ia [la|] moa pda [fa|] csa nqa]; try done.
  destruct apb as [pb psb cub eb ib [lb|] mob pdb [fb|] csb nqb]; try done.
  unfold isAlgorithm, algorithmFieldsSet, strippedAlgorithmEquals, assetType; simpl.
  intros -> -> _ _. simpl.
  unfold and_then, algPtrField, algField, oidOf; simpl.
  repeat match goal with
  | |- context [str_eq ?x ?y] =>
      let E := fresh "E" in destruct (str_eq x y) eqn:E;
      [apply str_eq_true in E; subst | ]; simpl
  | |- context [slices_Equal ?x ?y] =>
      let E := fresh "E" in destruct (slices_Equal x y) eqn:E;
      [apply slices_Equal_true in E; subst | ]; simpl
  end;
  (eexists; split; [reflexivity|]; split; [intros Hr | intros Hag]);
  try discriminate Hr; try reflexivity; try (by constructor).
  all: destruct Hag as [H1 H2 H3 H4 H5 H6 H7 H8]; simpl in *;
    match goal with
    | E : str_eq ?x ?y = false |- _ =>
        assert (x = y) as Hxy by congruence; apply str_eq_true in Hxy; congruence
    | E : slices_Equal ?x ?y = false |- _ =>
        assert (x = y) as Hxy by congruence; apply slices_Equal_true in Hxy; congruence
    end.
Qed.

Lemma strippedAlgorithmEquals_ignores_BOMRef a b ra rb :
  strippedAlgorithmEquals (setBOMRef ra a) (setBOMRef rb b) = strippedAlgorithmEquals a b.
Proof. reflexivity. Qed.

Example equals_nil_levels :
  strippedAlgorithmEquals (sha256WithRSA_noLevels "ref-1") (sha256WithRSA_noLevels "ref-2")
  = Panics NilDereference.
Proof. reflexivity. Qed.

(** C1 as stated fails.  Two algorithm components that differ only in
    [BOMRef], and so agree on all eight fields, but whose [CertificationLevel]
    pointer is nil: the comparison dereferences the nil pointer and panics,
    it does not return [true]. *)
Lemma strippedAlgorithmEquals_nil_pointer_counterexample :
  ~ (isAlgorithm (sha256WithRSA_noLevels "ref-1") = true ->
     isAlgorithm (sha256WithRSA_noLevels "ref-2") = true ->
     (strippedAlgorithmEquals (sha256WithRSA_noLevels "ref-1")
        (sha256WithRSA_noLevels "ref-2") = Returns true
      <-> agreeOnEight (sha256WithRSA_noLevels "ref-1") (sha256WithRSA_noLevels "ref-2"))).
Proof.
  intros Hclaim. specialize (Hclaim eq_refl eq_refl) as [_ Hback].
  assert (agreeOnEight (sha256WithRSA_noLevels "ref-1") (sha256WithRSA_noLevels "ref-2"))
    as Hagree by (by constructor).
  apply Hback in Hagree. rewrite equals_nil_levels in Hagree. discriminate Hagree.
Qed.

(** C1 (amended): for algorithm components whose [AlgorithmProperties],
    [CertificationLevel] and [CryptoFunctions] pointers are set,
    [strippedAlgorithmEquals] returns [true] exactly when the two agree on
    the eight fields Name, Primitive, ExecutionEnvironment,
    ImplementationPlatform, CertificationLevel, CryptoFunctions, OID and
    Padding, and returns [false] otherwise; [BOMRef] plays no role. *)
Theorem strippedAlgorithmEquals_eight_fields (a b : cdx.Component) :
  isAlgorithm a = true -> isAlgorithm b = true ->
  algorithmFieldsSet a = true -> algorithmFieldsSet b = true ->
  (strippedAlgorithmEquals a b = Returns true <-> agreeOnEight a b) /\
  (strippedAlgorithmEquals a b = Returns false <-> ~ agreeOnEight a b) /\
  (forall ra rb,
     strippedAlgorithmEquals (setBOMRef ra a) (setBOMRef rb b) = strippedAlgorithmEquals a b).
Proof.
  intros Ha Hb Hfa Hfb.
  destruct (strippedAlgorithmEquals_returns a b Ha Hb Hfa Hfb) as (r & Er & Hr).
  split; [|split].
  - rewrite Er, <- Hr. split; [by intros [= ->] | by intros ->].
  - rewrite Er, <- Hr. split.
    + intros [= ->]. discriminate.
    + destruct r; [by intros [] | done].
  - intros ra rb. apply strippedAlgorithmEquals_ignores_BOMRef.
Qed.

Lemma strippedAlgorithmEquals_eight_fields_witness :
  (strippedAlgorithmEquals (sha256WithRSA "ref-1") (sha256WithRSA "ref-2") = Returns true
   <-> agreeOnEight (sha256WithRSA "ref-1") (sha256WithRSA "ref-2")) /\
  (strippedAlgorithmEquals (sha256WithRSA "ref-1") (sha256WithRSA "ref-2") = Returns false
   <-> ~ agreeOnEight (sha256WithRSA "ref-1") (sha256WithRSA "ref-2")) /\
  (forall ra rb,
     strippedAlgorithmEquals (setBOMRef ra (sha256WithRSA "ref-1"))
       (setBOMRef rb (sha256WithRSA "ref-2"))
     = strippedAlgorithmEquals (sha256WithRSA "ref-1") (sha256WithRSA "ref-2")).
Proof.
  apply (strippedAlgorithmEquals_eight_fields (sha256WithRSA "ref-1") (sha256WithRSA "ref-2"));
    reflexivity.
Defined.

(** ** The guard against non-algorithm components *)

Lemma onlyNil_Returns {A} (a : A) : onlyNil (Returns a).
Proof. intros p [=]. Qed.

Lemma onlyNil_deref {A} (p : option A) : onlyNil (deref p).
Proof. destruct p; intros q [=]; done. Qed.

Lemma onlyNil_bind {A B} (m : outcome A) (k : A -> outcome B) :
  onlyNil m -> (forall a, m = Returns a -> onlyNil (k a)) -> onlyNil (m ≫= k).
Proof.
  intros Hm Hk. destruct m as [a|p]; simpl.
  - by apply Hk.
  - intros q [= <-]. by apply Hm.
Qed.

Lemma onlyNil_algField {A} (f : cdx.CryptoAlgorithmProperties -> A) c :
  onlyNil (algField f c).
Proof.
  unfold algField. apply onlyNil_bind; [apply onlyNil_deref|]. intros cp _.
  apply onlyNil_bind; [apply onlyNil_deref|]. intros ap _. apply onlyNil_Returns.
Qed.

Lemma onlyNil_algPtrField {A} (f : cdx.CryptoAlgorithmProperties -> option A) c :
  onlyNil (algPtrField f c).
Proof.
  unfold algPtrField. apply onlyNil_bind; [apply onlyNil_algField|].
  intros p _. apply onlyNil_deref.
Qed.

Lemma onlyNil_oidOf c : onlyNil (oidOf c).
Proof.
  unfold oidOf. apply onlyNil_bind; [apply onlyNil_deref|]. intros cp _.
  apply onlyNil_Returns.
Qed.

Lemma onlyNil_and_then {A} (cmp : A -> A -> bool) x y rest :
  onlyNil x -> onlyNil y -> onlyNil rest -> onlyNil (and_then cmp x y rest).
Proof.
  intros Hx Hy Hr. unfold and_then.
  apply onlyNil_bind; [done|]. intros vx _. apply onlyNil_bind; [done|]. intros vy _.
  destruct (cmp vx vy); [done | apply onlyNil_Returns].
Qed.

Create HintDb only_nil.
#[local] Hint Resolve onlyNil_Returns onlyNil_deref onlyNil_algField onlyNil_algPtrField
  onlyNil_oidOf onlyNil_and_then : only_nil.

Lemma strippedAlgorithmEquals_onlyNil a b :
  isAlgorithm a = true -> isAlgorithm b = true -> onlyNil (strippedAlgorithmEquals a b).
Proof.
  intros Ha%isAlgorithm_assetType Hb%isAlgorithm_assetType.
  unfold strippedAlgorithmEquals. rewrite Ha; simpl. rewrite Hb; simpl.
  destruct (str_eq (cdx.Name a) (cdx.Name b)); [|apply onlyNil_Returns].
  repeat (apply onlyNil_and_then; auto with only_nil).
  apply onlyNil_bind; [auto with only_nil|]. intros vx _.
  apply onlyNil_bind; [auto with only_nil|]. intros vy _. auto with only_nil.
Qed.

Lemma strippedAlgorithmEquals_guard_left c other :
  isAlgorithm c = false -> panics (strippedAlgorithmEquals c other).
Proof.
  intros [E | (t & E & Ht)]%not_isAlgorithm_assetType;
    unfold strippedAlgorithmEquals; rewrite E; simpl; [done|]. by rewrite Ht.
Qed.

Lemma strippedAlgorithmEquals_guard_right c other :
  isAlgorithm c = false -> panics (strippedAlgorithmEquals other c).
Proof.
  intros Hc. destruct (isAlgorithm other) eqn:Ho.
  - apply isAlgorithm_assetType in Ho.
    apply not_isAlgorithm_assetType in Hc as [E | (t & E & Ht)];
      unfold strippedAlgorithmEquals; rewrite Ho; simpl; rewrite E; simpl; [done|].
    by rewrite Ht.
  - by apply strippedAlgorithmEquals_guard_left.
Qed.

Lemma strippedAlgorithmContains_guard c lst :
  isAlgorithm c = false -> panics (strippedAlgorithmContains c lst).
Proof.
  intros [E | (t & E & Ht)]%not_isAlgorithm_assetType;
    unfold strippedAlgorithmContains; rewrite E; simpl; [done|]. by rewrite Ht.
Qed.

Lemma strippedAlgorithmContains_loop_onlyNil c lst :
  isAlgorithm c = true -> onlyNil (strippedAlgorithmContains_loop c lst).
Proof.
  intros Hc. induction lst as [|comp2 rest IH]; simpl; [apply onlyNil_Returns|].
  apply onlyNil_bind.
  { unfold assetType. apply onlyNil_bind; auto with only_nil. }
  intros t2 Ht2. destruct (str_eq t2 cdx.CryptoAssetTypeAlgorithm) eqn:E; [|done].
  apply onlyNil_bind.
  - apply strippedAlgorithmEquals_onlyNil; [done|].
    unfold isAlgorithm. unfold assetType in Ht2.
    destruct (cdx.CryptoPropertiesOf comp2); simpl in Ht2; [|done]. by injection Ht2 as ->.
  - intros [] _; [apply onlyNil_Returns | done].
Qed.

Example contains_finds_first :
  strippedAlgorithmContains (sha256WithRSA "new")
    [certificateComponent "c" "s" "k"; sha256WithRSA "old-1"; sha256WithRSA "old-2"]
  = Returns (true, sha256WithRSA "old-1").
Proof. reflexivity. Qed.

Example contains_on_certificate :
  strippedAlgorithmContains (certificateComponent "c" "s" "k") [sha256WithRSA "old-1"]
  = Panics strippedAlgorithmContains_panic.
Proof. reflexivity. Qed.

Example equals_on_certificate :
  strippedAlgorithmEquals (sha256WithRSA "a") (certificateComponent "c" "s" "k")
  = Panics strippedAlgorithmEquals_panic.
Proof. reflexivity. Qed.

(** C7: a component that is not an algorithm makes [strippedAlgorithmEquals]
    panic in either argument position and makes [strippedAlgorithmContains]
    panic as the probe (with the explicit panic of the guard when its
    [CryptoProperties] are set); on algorithm components the explicit panic
    is never reached, and when their pointers are set, as in the components
    the plugin builds, the comparison does not panic at all. *)
Theorem non_algorithm_component_panics (c other : cdx.Component) (lst : list cdx.Component) :
  (isAlgorithm c = false ->
     panics (strippedAlgorithmEquals c other) /\
     panics (strippedAlgorithmEquals other c) /\
     panics (strippedAlgorithmContains c lst)) /\
  (forall cp, cdx.CryptoPropertiesOf c = Some cp ->
     cdx.AssetType cp <> cdx.CryptoAssetTypeAlgorithm ->
     strippedAlgorithmEquals c other = Panics strippedAlgorithmEquals_panic /\
     strippedAlgorithmContains c lst = Panics strippedAlgorithmContains_panic) /\
  (isAlgorithm c = true -> isAlgorithm other = true ->
     strippedAlgorithmEquals c other <> Panics strippedAlgorithmEquals_panic) /\
  (isAlgorithm c = true ->
     strippedAlgorithmContains c lst <> Panics strippedAlgorithmContains_panic /\
     strippedAlgorithmContains c lst <> Panics strippedAlgorithmEquals_panic) /\
  (isAlgorithm c = true -> isAlgorithm other = true ->
     algorithmFieldsSet c = true -> algorithmFieldsSet other = true ->
     ~ panics (strippedAlgorithmEquals c other)).
Proof.
  split; [|split; [|split; [|split]]].
  - intros Hc. split; [|split].
    + by apply strippedAlgorithmEquals_guard_left.
    + by apply strippedAlgorithmEquals_guard_right.
    + by apply strippedAlgorithmContains_guard.
  - intros cp Hcp Hty.
    assert (str_eq (cdx.AssetType cp) cdx.CryptoAssetTypeAlgorithm = false) as E.
    { destruct (str_eq _ _) eqn:E; [|done]. by apply str_eq_true in E. }
    unfold strippedAlgorithmEquals, strippedAlgorithmContains, assetType.
    rewrite Hcp; simpl. by rewrite E.
  - intros Hc Ho E.
    pose proof (strippedAlgorithmEquals_onlyNil c other Hc Ho _ E) as X. discriminate X.
  - intros Hc. unfold strippedAlgorithmContains.
    rewrite (isAlgorithm_assetType c Hc); simpl.
    split; intros E;
      pose proof (strippedAlgorithmContains_loop_onlyNil c lst Hc _ E) as X; discriminate X.
  - intros Hc Ho Hfc Hfo Hp.
    destruct (strippedAlgorithmEquals_returns c other Hc Ho Hfc Hfo) as (r & Er & _).
    by rewrite Er in Hp.
Qed.

Lemma non_algorithm_component_panics_witness :
  (panics (strippedAlgorithmEquals (certificateComponent "c" "s" "k") (sha256WithRSA "a")) /\
   panics (strippedAlgorithmEquals (sha256WithRSA "a") (certificateComponent "c" "s" "k")) /\
   panics (strippedAlgorithmContains (certificateComponent "c" "s" "k") [sha256WithRSA "a"])) /\
  strippedAlgorithmEquals (sha256WithRSA "a") (sha256WithRSA_noLevels "b")
    <> Panics strippedAlgorithmEquals_panic /\
  ~ panics (strippedAlgorithmEquals (sha256WithRSA "a") (sha256WithRSA "b")).
Proof.
  split; [|split].
  - apply (non_algorithm_component_panics (certificateComponent "c" "s" "k")
             (sha256WithRSA "a") [sha256WithRSA "a"]). reflexivity.
  - apply (non_algorithm_component_panics (sha256WithRSA "a")
             (sha256WithRSA_noLevels "b") []); reflexivity.
  - apply (non_algorithm_component_panics (sha256WithRSA "a") (sha256WithRSA "b") []);
      reflexivity.
Defined.

(** ** Rewriting references *)

(** What one iteration does to the slice element: its [BOMRef] is kept (the
    assignment went to the loop variable), and the object behind
    [CryptoProperties] gets at most one field rewritten. *)
Lemma replaceBomRefUsages_iteration_element oldRef newRef elem :
  snd (replaceBomRefUsages_iteration oldRef newRef elem)
  = setCryptoProperties
      (replaceInCryptoProperties oldRef newRef <$> cdx.CryptoPropertiesOf elem) elem.
Proof.
  unfold replaceBomRefUsages_iteration.
  destruct (str_eq (cdx.BOMRef elem) oldRef); reflexivity.
Qed.

Lemma replaceBomRefUsages_keeps_BOMRef oldRef newRef components result :
  replaceBomRefUsages oldRef newRef (Some components) = Returns result ->
  map cdx.BOMRef result = map cdx.BOMRef components.
Proof.
  intros [= <-]. rewrite map_map. apply map_ext. intros elem.
  unfold replaceBomRefUsages_iteration.
  destruct (str_eq (cdx.BOMRef elem) oldRef); reflexivity.
Qed.

(** C3 (defect of the code): after [replaceBomRefUsages "dup" "canon"] on a
    certificate whose [SignatureAlgorithmRef] and [SubjectPublicKeyRef] both
    equal "dup", followed by the component whose own [BOMRef] is "dup", only
    the signature reference has become "canon": the public-key reference is
    still "dup" (the iteration ended at the first [continue]) and the
    component's [BOMRef] is still "dup" (it was assigned on the copy the
    [range] loop made), so "dup" still occurs in the list. *)
Theorem replaceBomRefUsages_leaves_oldRef :
  replaceBomRefUsages "dup" "canon" (Some selfSignedWithDuplicate)
  = Returns [certificateComponent "cert-1" "canon" "dup"; sha256WithRSA "dup"]
  /\ (forall result,
        replaceBomRefUsages "dup" "canon" (Some selfSignedWithDuplicate) = Returns result ->
        "dup" ∈ allOccurrences result).
Proof.
  split; [reflexivity|]. intros result [= <-]. vm_compute.
  do 2 apply list_elem_of_further. apply list_elem_of_here.
Qed.

(** ** Merging dependency records *)

Example merge_unions :
  MergeDependencyStructSlice
    [{| cdx.Ref := "cert-1"; cdx.Dependencies := Some ["alg-1"] |}]
    [{| cdx.Ref := "cert-1"; cdx.Dependencies := Some ["alg-2"; "alg-1"; "alg-2"] |};
     {| cdx.Ref := "cert-2"; cdx.Dependencies := Some ["alg-1"] |}]
  = Returns
    [{| cdx.Ref := "cert-1"; cdx.Dependencies := Some ["alg-1"; "alg-2"] |};
     {| cdx.Ref := "cert-2"; cdx.Dependencies := Some ["alg-1"] |}].
Proof. reflexivity. Qed.

Lemma filter_ne_absent (x : string) (l : list string) :
  x ∉ l -> filter (fun y => y ≠ x) l = l.
Proof.
  intros Hx. induction l as [|y l IH]; [done|].
  apply not_elem_of_cons in Hx as [Hne Hx].
  rewrite filter_cons_True by done. by rewrite IH.
Qed.

Lemma filter_firstOccurrences (P : string -> Prop) `{!forall x, Decision (P x)} l :
  filter P (firstOccurrences l) = firstOccurrences (filter P l).
Proof.
  induction l as [|x l IH]; [done|]. simpl.
  destruct (decide (P x)) as [Hx|Hx].
  - rewrite !filter_cons_True by done. simpl. f_equal.
    rewrite <- IH, !list_filter_filter. apply list_filter_iff. naive_solver.
  - rewrite !filter_cons_False by done.
    rewrite <- IH, list_filter_filter. apply list_filter_iff.
    intros y. split; [naive_solver|]. intros Hy. split; [done|]. by intros ->.
Qed.

Lemma firstOccurrences_NoDup l : NoDup (firstOccurrences l).
Proof.
  induction l as [|x l IH]; simpl; [constructor|]. constructor.
  - rewrite list_elem_of_filter. naive_solver.
  - by apply NoDup_filter.
Qed.

Lemma elem_of_firstOccurrences x l : x ∈ firstOccurrences l <-> x ∈ l.
Proof.
  induction l as [|y l IH]; simpl; [done|].
  rewrite !elem_of_cons, list_elem_of_filter, IH.
  destruct (decide (x = y)); naive_solver.
Qed.

(** The inner loop computes [unionTargets]. *)
Lemma mergeTargets_unionTargets targets existing :
  mergeTargets targets (Some existing) = Returns (Some (unionTargets existing targets)).
Proof.
  unfold unionTargets. revert existing.
  induction targets as [|s rest IH]; intros existing; simpl.
  - by rewrite app_nil_r.
  - case_bool_decide as Hs.
    + rewrite IH. rewrite filter_cons_False; [done|]. by intros Hn.
    + rewrite IH. rewrite filter_cons_True by done. simpl.
      rewrite <- app_assoc. simpl. do 4 f_equal.
      rewrite filter_firstOccurrences, list_filter_filter. f_equal.
      apply list_filter_iff. intros y.
      rewrite not_elem_of_app, list_elem_of_singleton. naive_solver.
Qed.

Lemma mergeTargets_nil targets : targets ≠ [] -> mergeTargets targets None = Panics NilDereference.
Proof. by destruct targets. Qed.

(** [indexOf] finds the first record with the given [Ref]. *)
Lemma indexOf_Some slice ref i :
  indexOf slice ref = Some i ->
  exists rec, slice !! i = Some rec /\ cdx.Ref rec = ref /\
    forall j rec', j < i -> slice !! j = Some rec' -> cdx.Ref rec' ≠ ref.
Proof.
  revert i. induction slice as [|dep rest IH]; intros i; simpl; [done|].
  destruct (str_eq (cdx.Ref dep) ref) eqn:E.
  - intros [= <-]. apply str_eq_true in E. exists dep. split_and!; [done..|]. lia.
  - destruct (indexOf rest ref) as [k|] eqn:Ek; simpl; [|done]. intros [= <-].
    destruct (IH k eq_refl) as (rec & Hrec & Href & Hfirst).
    exists rec. split_and!; [done..|].
    intros [|j] rec' Hj; simpl.
    + intros [= <-] Hr. apply str_eq_true in Hr. congruence.
    + apply Hfirst. lia.
Qed.

Lemma indexOf_None slice ref :
  indexOf slice ref = None -> Forall (fun rec => cdx.Ref rec ≠ ref) slice.
Proof.
  induction slice as [|dep rest IH]; simpl; [constructor|].
  destruct (str_eq (cdx.Ref dep) ref) eqn:E; [done|].
  destruct (indexOf rest ref); simpl; [done|]. intros _. constructor; [|by apply IH].
  intros Hr. apply str_eq_true in Hr. congruence.
Qed.

Lemma IndexBomRefInDependencySlice_found slice ref i :
  indexOf slice ref = Some i ->
  IndexBomRefInDependencySlice slice ref ≠ (-1)%Z /\
  Z.to_nat (IndexBomRefInDependencySlice slice ref) = i.
Proof. unfold IndexBomRefInDependencySlice. intros ->. lia. Qed.

Lemma IndexBomRefInDependencySlice_absent slice ref :
  indexOf slice ref = None -> IndexBomRefInDependencySlice slice ref = (-1)%Z.
Proof. unfold IndexBomRefInDependencySlice. by intros ->. Qed.

Lemma mergeDependency_found this o i rec existing targets :
  indexOf this (cdx.Ref o) = Some i -> this !! i = Some rec ->
  cdx.Dependencies rec = Some existing -> cdx.Dependencies o = Some targets ->
  mergeDependency this o
  = Returns (<[i := {| cdx.Ref := cdx.Ref rec;
                       cdx.Dependencies := Some (unionTargets existing targets) |}]> this).
Proof.
  intros Hi Hrec Hex Hta. unfold mergeDependency.
  destruct (IndexBomRefInDependencySlice_found _ _ _ Hi) as [Hne ->].
  rewrite bool_decide_eq_true_2 by done. rewrite Hta; simpl. rewrite Hrec, Hex.
  by rewrite mergeTargets_unionTargets.
Qed.

Lemma mergeDependency_absent this o :
  indexOf this (cdx.Ref o) = None -> mergeDependency this o = Returns (this ++ [o]).
Proof.
  intros Hi. unfold mergeDependency.
  rewrite (IndexBomRefInDependencySlice_absent _ _ Hi).
  by rewrite bool_decide_eq_false_2 by (by intros Hn).
Qed.

Lemma unionRecord_indexOf this o :
  match indexOf this (cdx.Ref o) with
  | Some i => exists rec, this !! i = Some rec /\
      unionRecord this o
      = <[i := {| cdx.Ref := cdx.Ref rec;
                  cdx.Dependencies := Some (unionTargets (targetsOf rec) (targetsOf o)) |}]> this
  | None => unionRecord this o = this ++ [o]
  end.
Proof.
  induction this as [|rec rest IH]; simpl; [done|]. unfold str_eq.
  case_bool_decide as E; simpl.
  - by exists rec.
  - destruct (indexOf rest (cdx.Ref o)) as [k|]; simpl.
    + destruct IH as (rec' & Hrec' & ->). by exists rec'.
    + by rewrite IH.
Qed.

(** On records whose pointers are set, the loop body is the union of one
    record. *)
Lemma mergeDependency_unionRecord this o :
  Forall depsSet this -> depsSet o ->
  mergeDependency this o = Returns (unionRecord this o).
Proof.
  intros Hthis [targets Hta].
  pose proof (unionRecord_indexOf this o) as Hu.
  destruct (indexOf this (cdx.Ref o)) as [i|] eqn:Hi.
  - destruct Hu as (rec & Hrec & ->).
    assert (depsSet rec) as [existing Hex].
    { eapply Forall_lookup_1; eauto. }
    rewrite (mergeDependency_found _ _ _ _ _ _ Hi Hrec Hex Hta).
    unfold targetsOf. by rewrite Hex, Hta.
  - rewrite Hu. by apply mergeDependency_absent.
Qed.

Lemma unionRecord_depsSet this o :
  Forall depsSet this -> depsSet o -> Forall depsSet (unionRecord this o).
Proof.
  intros Hthis Ho. induction Hthis as [|rec rest Hrec Hrest IH]; simpl.
  - by constructor.
  - case_bool_decide; constructor; try done. by eexists.
Qed.

Lemma MergeDependencyStructSlice_unionRecords this other :
  Forall depsSet this -> Forall depsSet other ->
  MergeDependencyStructSlice this other = Returns (unionRecords this other).
Proof.
  intros Hthis Hother. revert this Hthis.
  induction Hother as [|o rest Ho Hrest IH]; intros this Hthis; simpl; [done|].
  rewrite mergeDependency_unionRecord by done. simpl.
  apply IH. by apply unionRecord_depsSet.
Qed.

Lemma elem_of_unionTargets x existing new :
  x ∈ unionTargets existing new <-> x ∈ existing \/ x ∈ new.
Proof.
  unfold unionTargets.
  rewrite elem_of_app, elem_of_firstOccurrences, list_elem_of_filter.
  destruct (decide (x ∈ existing)); naive_solver.
Qed.

Lemma unionTargets_NoDup existing new :
  NoDup existing -> NoDup (unionTargets existing new).
Proof.
  intros Hex. unfold unionTargets. apply NoDup_app. split_and!; [done| |].
  - intros x Hx. rewrite elem_of_firstOccurrences, list_elem_of_filter. naive_solver.
  - apply firstOccurrences_NoDup.
Qed.

Lemma unionTargets_subseteq existing new :
  new ⊆ existing -> unionTargets existing new = existing.
Proof.
  intros Hsub. unfold unionTargets.
  assert (filter (fun s => s ∉ existing) new = []) as ->.
  { induction new as [|x new IH]; [done|].
    rewrite filter_cons_False; [|intros Hn; apply Hn, Hsub; by left].
    apply IH. intros y Hy. apply Hsub. by right. }
  apply app_nil_r.
Qed.

Lemma unionRecord_absorbs_id this o :
  Forall depsSet this -> absorbs this o -> unionRecord this o = this.
Proof.
  intros Hthis. induction Hthis as [|rec rest [l Hl] Hrest IH]; simpl; [done|].
  case_bool_decide as E.
  - intros Hsub. rewrite unionTargets_subseteq by done.
    f_equal. unfold targetsOf. rewrite Hl. destruct rec; simpl in *. by rewrite Hl.
  - intros Hab. by rewrite IH.
Qed.

Lemma unionRecord_absorbs this o : absorbs (unionRecord this o) o.
Proof.
  induction this as [|rec rest IH]; simpl.
  - by rewrite bool_decide_eq_true_2.
  - case_bool_decide as E; simpl.
    + rewrite bool_decide_eq_true_2 by done. unfold targetsOf at 2; simpl.
      intros x Hx. apply elem_of_unionTargets. by right.
    + by rewrite bool_decide_eq_false_2.
Qed.

Lemma unionRecord_absorbs_mono this o o' :
  absorbs this o -> absorbs (unionRecord this o') o.
Proof.
  induction this as [|rec rest IH]; simpl; [done|].
  case_bool_decide as E; intros Hab; case_bool_decide as E'; simpl.
  - rewrite bool_decide_eq_true_2 by done. unfold targetsOf at 2; simpl.
    intros x Hx. apply elem_of_unionTargets. left. by apply Hab.
  - by rewrite bool_decide_eq_true_2.
  - by rewrite bool_decide_eq_false_2.
  - rewrite bool_decide_eq_false_2 by done. by apply IH.
Qed.

Lemma unionRecords_absorbs_mono this other o :
  absorbs this o -> absorbs (unionRecords this other) o.
Proof.
  unfold unionRecords. revert this.
  induction other as [|o' rest IH]; intros this Hab; simpl; [done|].
  apply IH. by apply unionRecord_absorbs_mono.
Qed.

Lemma unionRecords_absorbs this other :
  Forall (absorbs (unionRecords this other)) other.
Proof.
  unfold unionRecords. revert this.
  induction other as [|o rest IH]; intros this; simpl; constructor; [|apply IH].
  apply unionRecords_absorbs_mono, unionRecord_absorbs.
Qed.

Lemma unionRecords_depsSet this other :
  Forall depsSet this -> Forall depsSet other -> Forall depsSet (unionRecords this other).
Proof.
  unfold unionRecords. intros Hthis Hother. revert this Hthis.
  induction Hother as [|o rest Ho Hrest IH]; intros this Hthis; simpl; [done|].
  apply IH. by apply unionRecord_depsSet.
Qed.

Lemma unionRecords_absorbed this other :
  Forall depsSet this -> Forall (absorbs this) other -> unionRecords this other = this.
Proof.
  unfold unionRecords. intros Hthis Hab.
  induction Hab as [|o rest Ho Hrest IH]; simpl; [done|].
  by rewrite unionRecord_absorbs_id.
Qed.

Lemma unionRecords_idempotent this other :
  Forall depsSet this -> Forall depsSet other ->
  unionRecords (unionRecords this other) other = unionRecords this other.
Proof.
  intros Hthis Hother. apply unionRecords_absorbed.
  - by apply unionRecords_depsSet.
  - apply unionRecords_absorbs.
Qed.

Lemma dependencyMapToStructSlice_depsSet ρ dependencyMap :
  Forall depsSet (dependencyMapToStructSlice ρ dependencyMap).
Proof.
  unfold dependencyMapToStructSlice. apply Forall_fmap, Forall_forall.
  intros entry _. by eexists.
Qed.

Example merge_nil_pointer :
  MergeDependencyStructSlice [leafRecord "cert-1"] [dependencyRecord "cert-1" ["alg-1"]]
  = Panics NilDereference.
Proof. reflexivity. Qed.

(** C4 as stated fails.  The existing record for "cert-1" has no target
    list (its [Dependencies] pointer is nil) and the other slice has a
    record for "cert-1" with one target: the union would be the record
    "cert-1" with that target, but the code dereferences the nil pointer
    and panics. *)
Lemma MergeDependencyStructSlice_nil_counterexample :
  ~ (MergeDependencyStructSlice [leafRecord "cert-1"] [dependencyRecord "cert-1" ["alg-1"]]
     = Returns (unionRecords [leafRecord "cert-1"] [dependencyRecord "cert-1" ["alg-1"]])).
Proof. rewrite merge_nil_pointer. discriminate. Qed.

(** C4 (amended): when the [Dependencies] pointer of every record is set,
    [MergeDependencyStructSlice this other] returns the union of the records
    of [other] into [this]: the first record with the same [Ref] gets the
    targets it does not hold yet appended after its own, each once and in
    order of first appearance, and a record whose [Ref] is absent is
    appended whole; the union adds no duplicate.  The components of the
    graph are appended to the components of the document as they are. *)
Theorem MergeDependencyStructSlice_unions (ρ : MapRangeOrder) (this other : list cdx.Dependency)
  (bom : BOM) (components : list cdx.Component)
  (dependencyMap : gmap cdx.BOMReference (list string)) :
  (Forall depsSet this -> Forall depsSet other ->
     MergeDependencyStructSlice this other = Returns (unionRecords this other)) /\
  (forall existing new,
     (forall x, x ∈ unionTargets existing new <-> x ∈ existing \/ x ∈ new) /\
     (NoDup existing -> NoDup (unionTargets existing new))) /\
  (Forall depsSet (dependenciesOf bom) ->
     exists bom', addToBOM ρ bom components dependencyMap = Returns bom' /\
       Components bom' = Some (componentsOf bom ++ components) /\
       BomDependencies bom' =
         Some (unionRecords (dependenciesOf bom)
                 (dependencyMapToStructSlice ρ dependencyMap))).
Proof.
  split; [|split].
  - apply MergeDependencyStructSlice_unionRecords.
  - intros existing new. split.
    + intros x. apply elem_of_unionTargets.
    + apply unionTargets_NoDup.
  - intros Hdeps. unfold addToBOM. fold (dependenciesOf bom). fold (componentsOf bom).
    rewrite MergeDependencyStructSlice_unionRecords
      by (done || apply dependencyMapToStructSlice_depsSet).
    simpl. by eexists.
Qed.

Lemma MergeDependencyStructSlice_unions_witness :
  MergeDependencyStructSlice
    [dependencyRecord "cert-1" ["alg-1"]]
    [dependencyRecord "cert-1" ["alg-2"; "alg-1"; "alg-2"]; dependencyRecord "cert-2" ["alg-1"]]
  = Returns [dependencyRecord "cert-1" ["alg-1"; "alg-2"]; dependencyRecord "cert-2" ["alg-1"]]
  /\ exists bom',
       addToBOM forwardOrder existingBOM [sha256WithRSA "alg-1"]
         {["cert-1" := ["alg-2"]]} = Returns bom' /\
       Components bom' = Some [sha256WithRSA "alg-1"; sha256WithRSA "alg-1"] /\
       BomDependencies bom' = Some [dependencyRecord "cert-1" ["alg-1"; "alg-2"]].
Proof.
  pose proof (MergeDependencyStructSlice_unions forwardOrder
    [dependencyRecord "cert-1" ["alg-1"]]
    [dependencyRecord "cert-1" ["alg-2"; "alg-1"; "alg-2"]; dependencyRecord "cert-2" ["alg-1"]]
    existingBOM [sha256WithRSA "alg-1"] {["cert-1" := ["alg-2"]]}) as (Hmerge & _ & Hbom).
  split.
  - apply Hmerge; repeat constructor; eexists; reflexivity.
  - destruct Hbom as (bom' & Hret & Hcomps & Hdeps).
    { repeat constructor; eexists; reflexivity. }
    exists bom'. split; [exact Hret|]. split; [exact Hcomps|].
    rewrite Hdeps. reflexivity.
Defined.

Example merge_twice_nil_pointer :
  MergeDependencyStructSlice [] [leafRecord "cert-1"] = Returns [leafRecord "cert-1"] /\
  MergeDependencyStructSlice [leafRecord "cert-1"] [leafRecord "cert-1"]
  = Panics NilDereference.
Proof. split; reflexivity. Qed.

(** C10 as stated fails.  The other slice holds one record without target
    list ([Dependencies] nil).  The first merge appends it to the empty
    slice; the second merge finds it, dereferences the nil pointer of the
    other record and panics, so merging twice is not merging once. *)
Lemma MergeDependencyStructSlice_twice_counterexample :
  ~ ((MergeDependencyStructSlice [] [leafRecord "cert-1"]
        ≫= fun merged => MergeDependencyStructSlice merged [leafRecord "cert-1"])
     = MergeDependencyStructSlice [] [leafRecord "cert-1"]).
Proof. discriminate. Qed.

(** C10 (amended): when the [Dependencies] pointer of every record of
    [this] and [other] is set, merging [other] a second time into
    [MergeDependencyStructSlice this other] returns the same slice: the same
    records in the same order, each with the same targets in the same order. *)
Theorem MergeDependencyStructSlice_idempotent (this other : list cdx.Dependency) :
  Forall depsSet this -> Forall depsSet other ->
  exists merged,
    MergeDependencyStructSlice this other = Returns merged /\
    MergeDependencyStructSlice merged other = Returns merged /\
    (MergeDependencyStructSlice this other
       ≫= fun merged => MergeDependencyStructSlice merged other)
    = MergeDependencyStructSlice this other.
Proof.
  intros Hthis Hother. exists (unionRecords this other).
  assert (MergeDependencyStructSlice (unionRecords this other) other
          = Returns (unionRecords this other)) as Hagain.
  { rewrite MergeDependencyStructSlice_unionRecords
      by (done || by apply unionRecords_depsSet).
    by rewrite unionRecords_idempotent. }
  rewrite MergeDependencyStructSlice_unionRecords by done. simpl.
  by rewrite Hagain.
Qed.

Lemma MergeDependencyStructSlice_idempotent_witness :
  exists merged,
    MergeDependencyStructSlice [dependencyRecord "cert-1" ["alg-1"]]
      [dependencyRecord "cert-2" ["alg-1"]; dependencyRecord "cert-1" ["alg-2"];
       dependencyRecord "cert-2" ["alg-3"]] = Returns merged /\
    MergeDependencyStructSlice merged
      [dependencyRecord "cert-2" ["alg-1"]; dependencyRecord "cert-1" ["alg-2"];
       dependencyRecord "cert-2" ["alg-3"]] = Returns merged /\
    (MergeDependencyStructSlice [dependencyRecord "cert-1" ["alg-1"]]
       [dependencyRecord "cert-2" ["alg-1"]; dependencyRecord "cert-1" ["alg-2"];
        dependencyRecord "cert-2" ["alg-3"]]
       ≫= fun merged => MergeDependencyStructSlice merged
            [dependencyRecord "cert-2" ["alg-1"]; dependencyRecord "cert-1" ["alg-2"];
             dependencyRecord "cert-2" ["alg-3"]])
    = MergeDependencyStructSlice [dependencyRecord "cert-1" ["alg-1"]]
        [dependencyRecord "cert-2" ["alg-1"]; dependencyRecord "cert-1" ["alg-2"];
         dependencyRecord "cert-2" ["alg-3"]].
Proof.
  apply (MergeDependencyStructSlice_idempotent [dependencyRecord "cert-1" ["alg-1"]]
    [dependencyRecord "cert-2" ["alg-1"]; dependencyRecord "cert-1" ["alg-2"];
     dependencyRecord "cert-2" ["alg-3"]]);
    repeat constructor; eexists; reflexivity.
Defined.

(** ** Decoding certificate files *)

Section ParsingProperties.
Context `{PemDecoder} {Certificate CertWithMetadata : Type}.
Context `{!CertificateParsers Certificate CertWithMetadata}.

Lemma pemBlocks_cons c cs :
  pemBlocks (c :: cs)
  = match pem_Decode (c :: cs) with
    | (Some block, rest) => block :: pemBlocks rest
    | (None, _) => []
    end.
Proof.
  simp pemBlocks.
  assert (forall x : {b | pem_Decode (c :: cs) = b},
    pemBlocks_unfold_clause_2 c cs x
    = match proj1_sig x with
      | (Some block, rest) => block :: pemBlocks rest
      | (None, _) => []
      end) as Hclause.
  { intros [[[block|] rest] E]; simp pemBlocks; reflexivity. }
  apply Hclause.
Qed.

(** The first loop collects the CERTIFICATE blocks in order of appearance
    and logs one warning for each other block. *)
Lemma collectBlocks_certificateBlocks rest blocks lg :
  collectBlocks rest blocks lg
  = (blocks ++ certificateBlocks rest, lg ++ unsupportedWarnings rest).
Proof.
  unfold certificateBlocks, unsupportedWarnings.
  funelim (collectBlocks rest blocks lg).
  - simp pemBlocks. simpl. by rewrite !app_nil_r.
  - rewrite pemBlocks_cons, E. unfold str_eq.
    case_bool_decide as Ety; simpl.
    + rewrite H1. rewrite filter_cons_True by done.
      rewrite filter_cons_False by (by intros Hn; apply Hn).
      by rewrite <- app_assoc.
    + rewrite H0. rewrite filter_cons_False by done.
      rewrite filter_cons_True by done. unfold slog_Warn.
      by rewrite fmap_cons, <- app_assoc.
  - rewrite pemBlocks_cons, E. simpl. by rewrite !app_nil_r.
Qed.

Lemma parseBlocks_all_parsed blocks path certs :
  Forall (parsed path) blocks ->
  parseBlocks blocks path certs = (certs ++ concatCertificates blocks path, None).
Proof.
  unfold concatCertificates. intros Hall. revert certs.
  induction Hall as [|block rest Hblock Hrest IH]; intros certs; simpl.
  - by rewrite app_nil_r.
  - unfold parsed in Hblock.
    destruct (parseCertificatesToX509CertificateWithMetadata (BlockBytes block) path)
      as [moreCerts err]; simpl in *; subst err.
    by rewrite IH, <- app_assoc.
Qed.

Lemma parseBlocks_first_failure good bad rest path certs moreCerts e :
  Forall (parsed path) good ->
  parseCertificatesToX509CertificateWithMetadata (BlockBytes bad) path = (moreCerts, Some e) ->
  parseBlocks (good ++ bad :: rest) path certs = (moreCerts, Some e).
Proof.
  intros Hgood Hbad. revert certs.
  induction Hgood as [|block good Hblock Hgood IH]; intros certs; simpl.
  - by rewrite Hbad.
  - unfold parsed in Hblock.
    destruct (parseCertificatesToX509CertificateWithMetadata (BlockBytes block) path)
      as [more err]; simpl in *; subst err. apply IH.
Qed.

(** C9: [parsex509CertFromPath] collects the PEM blocks of type CERTIFICATE
    in order of appearance, with one warning for each block of another
    type, and returns their certificates concatenated in that order (or the
    result of the first block that fails to parse); when there is no
    CERTIFICATE block, also when all blocks are of other types, it parses
    the whole input as DER. *)
Theorem parsex509CertFromPath_certificate_blocks (raw : bytes) (path : string) (lg : log) :
  (certificateBlocks raw = [] ->
     parsex509CertFromPath raw path lg
     = (parseCertificatesToX509CertificateWithMetadata raw path,
        lg ++ unsupportedWarnings raw)) /\
  (certificateBlocks raw ≠ [] -> Forall (parsed path) (certificateBlocks raw) ->
     parsex509CertFromPath raw path lg
     = (concatCertificates (certificateBlocks raw) path, None,
        lg ++ unsupportedWarnings raw)) /\
  (forall good bad rest moreCerts e,
     certificateBlocks raw = good ++ bad :: rest -> Forall (parsed path) good ->
     parseCertificatesToX509CertificateWithMetadata (BlockBytes bad) path
       = (moreCerts, Some e) ->
     parsex509CertFromPath raw path lg
     = (moreCerts, Some e, lg ++ unsupportedWarnings raw)).
Proof.
  unfold parsex509CertFromPath. rewrite collectBlocks_certificateBlocks. simpl.
  split; [|split].
  - by intros ->.
  - intros Hne Hall. destruct (certificateBlocks raw) as [|block blocks] eqn:E; [done|].
    by rewrite parseBlocks_all_parsed.
  - intros good bad rest moreCerts e -> Hgood Hbad.
    rewrite (parseBlocks_first_failure _ _ _ _ _ _ _ Hgood Hbad).
    by destruct good.
Qed.

(** C8 (defect of the code): whenever [pem.Decode] finds no block in the
    input, [parsePKCS7FromPath] selects a field of the nil block and panics
    with a nil dereference; it returns neither certificates nor an error. *)
Theorem parsePKCS7FromPath_no_block_panics (raw rest : bytes) (path : string) :
  pem_Decode raw = (None, rest) ->
  parsePKCS7FromPath raw path = Panics NilDereference.
Proof. intros E. unfold parsePKCS7FromPath. by rewrite E. Qed.

End ParsingProperties.

Example parsex509_two_certificates :
  parsex509CertFromPath ["C"; "1"; "K"; "2"; "C"; "3"]%byte "chain.pem" []
  = ([("1"%byte, "chain.pem"); ("3"%byte, "chain.pem")], None,
     [{| entryLevel := LevelWarn; entryMsg := unsupportedPemPart |}]).
Proof. reflexivity. Qed.

Example parsex509_only_other_blocks :
  parsex509CertFromPath ["K"; "1"; "K"; "2"]%byte "key.pem" []
  = ([("K"%byte, "key.pem"); ("1"%byte, "key.pem"); ("K"%byte, "key.pem");
      ("2"%byte, "key.pem")], None,
     [{| entryLevel := LevelWarn; entryMsg := unsupportedPemPart |};
      {| entryLevel := LevelWarn; entryMsg := unsupportedPemPart |}]).
Proof. reflexivity. Qed.

Lemma parsex509CertFromPath_certificate_blocks_witness :
  parsex509CertFromPath ["K"; "1"; "K"; "2"]%byte "key.pem" []
  = (parseCertificatesToX509CertificateWithMetadata ["K"; "1"; "K"; "2"]%byte "key.pem",
     [] ++ unsupportedWarnings ["K"; "1"; "K"; "2"]%byte)
  /\ parsex509CertFromPath ["C"; "1"; "K"; "2"; "C"; "3"]%byte "chain.pem" []
     = (concatCertificates (certificateBlocks ["C"; "1"; "K"; "2"; "C"; "3"]%byte)
          "chain.pem", None,
        [] ++ unsupportedWarnings ["C"; "1"; "K"; "2"; "C"; "3"]%byte)
  /\ parsex509CertFromPath ["C"; "1"; "C"; "000"; "C"; "3"]%byte "chain.pem" []
     = ([], Some malformedCertificate,
        [] ++ unsupportedWarnings ["C"; "1"; "C"; "000"; "C"; "3"]%byte).
Proof.
  split; [|split].
  - apply (parsex509CertFromPath_certificate_blocks ["K"; "1"; "K"; "2"]%byte "key.pem" []).
    reflexivity.
  - apply (parsex509CertFromPath_certificate_blocks
             ["C"; "1"; "K"; "2"; "C"; "3"]%byte "chain.pem" []).
    + discriminate.
    + repeat constructor.
  - apply (parsex509CertFromPath_certificate_blocks
             ["C"; "1"; "C"; "000"; "C"; "3"]%byte "chain.pem" [])
      with (good := [{| BlockType := "CERTIFICATE"; BlockHeaders := [];
                        BlockBytes := ["1"]%byte |}])
           (bad := {| BlockType := "CERTIFICATE"; BlockHeaders := [];
                      BlockBytes := ["000"]%byte |})
           (rest := [{| BlockType := "CERTIFICATE"; BlockHeaders := [];
                        BlockBytes := ["3"]%byte |}]).
    + reflexivity.
    + repeat constructor.
    + reflexivity.
Defined.

Example parsePKCS7_bundle :
  parsePKCS7FromPath ["C"; "1"]%byte "bundle.p7b" = Returns ([("1"%byte, "bundle.p7b")], None).
Proof. reflexivity. Qed.

Lemma parsePKCS7FromPath_no_block_panics_witness :
  parsePKCS7FromPath ["0"; "1"; "2"]%byte "bundle.p7b" = Panics NilDereference.
Proof.
  apply (parsePKCS7FromPath_no_block_panics ["0"; "1"; "2"]%byte ["0"; "1"; "2"]%byte
           "bundle.p7b").
  reflexivity.
Defined.

(** ** Running [UpdateBOM] *)

Example ext_examples :
  filepath_Ext "etc/ssl/ca.pem" = ".pem" /\ filepath_Ext "etc/ssl.d/ca" = "" /\
  filepath_Ext "a.tar.p7b" = ".p7b" /\ filepath_Ext "README" = "".
Proof. repeat split. Qed.

Example updateBOM_two_files :
  UpdateBOM forwardOrder twoCertificateFiles emptyBOM []
  = Returns (None,
      {| SerialNumber := "urn:uuid:0";
         Components := Some [certificateComponent "n1" "n2" "n2"; sha256WithRSA "n2";
                             certificateComponent "n3" "n4" "n4"; sha256WithRSA "n4"];
         BomDependencies := Some [dependencyRecord "n3" ["n4"];
                                  dependencyRecord "n1" ["n2"]] |},
      [{| entryLevel := LevelInfo; entryMsg := searchingDone |}]).
Proof. vm_compute. reflexivity. Qed.

(** The seed does not depend on the input. *)
Lemma uuidSeed_constant : uuidSeed = 1%Z.
Proof. reflexivity. Qed.

(** The records [dependencyMapToStructSlice] builds are those of the map,
    in the order of the range. *)
Lemma dependencyMapToStructSlice_perm ρ1 ρ2 dependencyMap :
  dependencyMapToStructSlice ρ1 dependencyMap ≡ₚ dependencyMapToStructSlice ρ2 dependencyMap.
Proof.
  unfold dependencyMapToStructSlice. apply fmap_Permutation.
  by rewrite !range_order_perm.
Qed.

(** C2 (defect of the code): two runs of [UpdateBOM] over the same two
    certificate files, visited in the same order, and the same empty
    document.  The generator is seeded with 1 in both, and both runs build
    the same components and the same dependency map; the runs differ only in
    the order in which [range] visits that map, and their documents list
    the dependency records in different orders. *)
Theorem UpdateBOM_dependency_order_differs :
  exists bom1 bom2 lg,
    UpdateBOM forwardOrder twoCertificateFiles emptyBOM [] = Returns (None, bom1, lg) /\
    UpdateBOM backwardOrder twoCertificateFiles emptyBOM [] = Returns (None, bom2, lg) /\
    Components bom1 = Components bom2 /\
    BomDependencies bom1 = Some [dependencyRecord "n3" ["n4"]; dependencyRecord "n1" ["n2"]] /\
    BomDependencies bom2 = Some [dependencyRecord "n1" ["n2"]; dependencyRecord "n3" ["n4"]] /\
    bom1 ≠ bom2.
Proof.
  do 3 eexists. split; [vm_compute; reflexivity|]. split; [vm_compute; reflexivity|].
  split; [reflexivity|]. split; [reflexivity|]. split; [reflexivity|]. discriminate.
Qed.

Lemma pkcs7Extension_not_certificate ext :
  ext ∈ pkcs7Extensions -> ext ∉ certificateExtensions.
Proof.
  unfold pkcs7Extensions, certificateExtensions.
  rewrite !elem_of_cons, !elem_of_nil. intros Hp Hc.
  repeat (destruct Hp as [-> | Hp]);
    repeat (destruct Hc as [Hc | Hc]; [discriminate Hc|]); done.
Qed.

Section UpdateBOMProperties.
Context `{PemDecoder} {Certificate CertWithMetadata DAG Rand : Type}.
Context `{!CertificateParsers Certificate CertWithMetadata}.
Context `{!BomDAG CertWithMetadata DAG Rand}.

(** An error of the walk ends [UpdateBOM] with that error. *)
Lemma UpdateBOM_walk_error ρ fs bom lg e certificates lg1 :
  WalkDir fs (analyseFile fs) [] lg = Returns (Some e, certificates, lg1) ->
  UpdateBOM ρ fs bom lg = Returns (Some e, bom, lg1).
Proof. intros Hwalk. unfold UpdateBOM. by rewrite Hwalk. Qed.

(** An error of the merge loop ends [UpdateBOM] with that error. *)
Lemma UpdateBOM_merge_error ρ fs bom lg e certificates lg1 dag rng lg3 :
  WalkDir fs (analyseFile fs) [] lg = Returns (None, certificates, lg1) ->
  mergeCertificates certificates NewBomDAG (rand_NewSource uuidSeed)
    (slog_Info searchingDone lg1) = (Some e, dag, rng, lg3) ->
  UpdateBOM ρ fs bom lg = Returns (Some e, bom, lg3).
Proof. intros Hwalk Hmerge. unfold UpdateBOM. rewrite Hwalk; simpl. by rewrite Hmerge. Qed.

(** C5 (amended): for a certificate whose graph construction fails with an
    error that is [errX509UnknownAlgorithm], the partial graph is merged
    into the running graph, a message is logged at level Info, and the loop
    goes on with the next certificate; any other construction error ends
    the loop with that error, before any merge; a failure of the merge ends
    the loop with the merge error; and an error of the loop is the error
    [UpdateBOM] returns. *)
Theorem unknown_algorithm_is_recoverable (cert : CertWithMetadata) (dag : DAG) (rng : Rand)
  (lg : log) (certDAG : DAG) (err : option error) (rng1 : Rand)
  (dag' : DAG) (merr : option error) (rng2 : Rand) :
  generateDAG cert rng = (certDAG, err, rng1) ->
  dag_Merge dag certDAG rng1 = (dag', merr, rng2) ->
  (errors_Is err errX509UnknownAlgorithm = true -> merr = None ->
     mergeCertificate cert dag rng lg = inl (dag', rng2, slog_Info unknownAlgorithms lg) /\
     forall rest, mergeCertificates (cert :: rest) dag rng lg
       = mergeCertificates rest dag' rng2 (slog_Info unknownAlgorithms lg)) /\
  (errors_Is err errX509UnknownAlgorithm = false -> forall e, err = Some e ->
     mergeCertificate cert dag rng lg = inr (e, dag, rng1, lg) /\
     forall rest, mergeCertificates (cert :: rest) dag rng lg = (Some e, dag, rng1, lg)) /\
  (forall e, merr = Some e ->
     err = None \/ errors_Is err errX509UnknownAlgorithm = true ->
     exists lg', mergeCertificate cert dag rng lg = inr (e, dag', rng2, lg') /\
       forall rest, mergeCertificates (cert :: rest) dag rng lg = (Some e, dag', rng2, lg')) /\
  (forall ρ fs bom lg0 certificates lg1 e d r lg3,
     WalkDir fs (analyseFile fs) [] lg0 = Returns (None, certificates, lg1) ->
     mergeCertificates certificates NewBomDAG (rand_NewSource uuidSeed)
       (slog_Info searchingDone lg1) = (Some e, d, r, lg3) ->
     UpdateBOM ρ fs bom lg0 = Returns (Some e, bom, lg3)).
Proof.
  intros Hgen Hmerge. split; [|split; [|split]].
  - intros Hunknown ->.
    assert (mergeCertificate cert dag rng lg
            = inl (dag', rng2, slog_Info unknownAlgorithms lg)) as Hstep.
    { unfold mergeCertificate. by rewrite Hgen, Hunknown, Hmerge. }
    split; [done|]. intros rest. simpl. by rewrite Hstep.
  - intros Hother e ->.
    assert (mergeCertificate cert dag rng lg = inr (e, dag, rng1, lg)) as Hstep.
    { unfold mergeCertificate. by rewrite Hgen, Hother. }
    split; [done|]. intros rest. simpl. by rewrite Hstep.
  - intros e -> Herr.
    assert (exists lg', mergeCertificate cert dag rng lg = inr (e, dag', rng2, lg'))
      as [lg' Hstep].
    { unfold mergeCertificate. rewrite Hgen.
      destruct Herr as [-> | Hunknown]; simpl.
      - rewrite Hmerge. by eexists.
      - rewrite Hunknown, Hmerge. by eexists. }
    exists lg'. split; [done|]. intros rest. simpl. by rewrite Hstep.
  - intros ρ fs bom lg0 certificates lg1 e d r lg3. apply UpdateBOM_merge_error.
Qed.

End UpdateBOMProperties.

Example unknown_algorithm_run :
  mergeCertificates [("?"%byte, "a.pem"); ("1"%byte, "b.pem")] NewBomDAG 1 []
  = (None,
     ([certificateComponent "n1" "" ""; certificateComponent "n2" "n3" "n3";
       sha256WithRSA "n3"], [("n2", ["n3"])]),
     4, [{| entryLevel := LevelInfo; entryMsg := unknownAlgorithms |}]).
Proof. reflexivity. Qed.

Example other_error_run :
  mergeCertificates [("!"%byte, "a.pem"); ("1"%byte, "b.pem")] NewBomDAG 1 []
  = (Some unsupportedCertificate, ([], []), 1, []).
Proof. reflexivity. Qed.

Example merge_failure_run :
  mergeCertificates [("#"%byte, "a.pem"); ("1"%byte, "b.pem")] NewBomDAG 1 []
  = (Some mergeConflict, ([], []), 2,
     [{| entryLevel := LevelError; entryMsg := mergingFailed |}]).
Proof. reflexivity. Qed.

(** C5 as stated fails.  For the certificate ["?"], whose construction
    fails with [errX509UnknownAlgorithm], the loop goes on with the merged
    partial graph, but the log it goes on with holds no entry of level
    Warn: the message was logged at level Info. *)
Lemma unknown_algorithm_warning_counterexample :
  ~ (exists dag' rng' lg',
       mergeCertificate ("?"%byte, "a.pem") NewBomDAG 1 [] = inl (dag', rng', lg') /\
       warnings lg' ≠ []).
Proof. intros (dag' & rng' & lg' & [= <- <- <-] & Hwarn). by apply Hwarn. Qed.

Lemma unknown_algorithm_is_recoverable_witness :
  (mergeCertificate ("?"%byte, "a.pem") NewBomDAG 1 []
   = inl (([certificateComponent "n1" "" ""], []), 2, slog_Info unknownAlgorithms []) /\
   forall rest, mergeCertificates (("?"%byte, "a.pem") :: rest) NewBomDAG 1 []
     = mergeCertificates rest ([certificateComponent "n1" "" ""], []) 2
         (slog_Info unknownAlgorithms [])) /\
  (mergeCertificate ("!"%byte, "a.pem") NewBomDAG 1 []
   = inr (unsupportedCertificate, NewBomDAG, 1, []) /\
   forall rest, mergeCertificates (("!"%byte, "a.pem") :: rest) NewBomDAG 1 []
     = (Some unsupportedCertificate, NewBomDAG, 1, [])) /\
  (exists lg', mergeCertificate ("#"%byte, "a.pem") NewBomDAG 1 []
     = inr (mergeConflict, NewBomDAG, 2, lg') /\
   forall rest, mergeCertificates (("#"%byte, "a.pem") :: rest) NewBomDAG 1 []
     = (Some mergeConflict, NewBomDAG, 2, lg')).
Proof.
  split; [|split].
  - apply (unknown_algorithm_is_recoverable ("?"%byte, "a.pem") NewBomDAG 1 []
             ([certificateComponent "n1" "" ""], [])
             (Some (wrapError "signature algorithm" errX509UnknownAlgorithm)) 2
             ([certificateComponent "n1" "" ""], []) None 2); reflexivity.
  - apply (unknown_algorithm_is_recoverable ("!"%byte, "a.pem") NewBomDAG 1 []
             ([], []) (Some unsupportedCertificate) 1 ([], []) None 1); reflexivity.
  - apply (unknown_algorithm_is_recoverable ("#"%byte, "a.pem") NewBomDAG 1 []
             ([certificateComponent "n1" "n1" "n1"], [("n1", ["n1"])]) None 2
             NewBomDAG (Some mergeConflict) 2); try reflexivity. by left.
Defined.

(** ** Files that fail to parse *)

Lemma GetParsingFailedAlthoughCheckedError_Is parsingError plugin :
  errors_Is (Some (GetParsingFailedAlthoughCheckedError parsingError plugin))
    ErrParsingFailedAlthoughChecked = true.
Proof. reflexivity. Qed.

(** Skipping from a depth is walking the entries behind the directory. *)
Lemma walkEntries_skip {S} (fn : WalkEntry -> S -> log -> outcome (option error * S * log))
  depth entries st lg :
  walkEntries fn (Some depth) entries st lg
  = filepath_WalkDir fn (afterDirectory depth entries) st lg.
Proof.
  unfold filepath_WalkDir. induction entries as [|entry rest IH]; [done|].
  cbn [walkEntries afterDirectory skipped].
  destruct (bool_decide (depth <= entry_depth entry)); [exact IH | reflexivity].
Qed.

(** One step of the directory walk. *)
Lemma filepath_WalkDir_cons {S}
  (fn : WalkEntry -> S -> log -> outcome (option error * S * log)) entry rest st lg :
  filepath_WalkDir fn (entry :: rest) st lg
  = '(err, st', lg') ← fn entry st lg;
    match err with
    | None => filepath_WalkDir fn rest st' lg'
    | Some e =>
        if bool_decide (e = fs_SkipDir) then
          filepath_WalkDir fn (afterDirectory (skipFrom entry) rest) st' lg'
        else if bool_decide (e = fs_SkipAll) then Returns (None, st', lg')
        else Returns (Some e, st', lg')
    end.
Proof.
  unfold filepath_WalkDir at 1. cbn [walkEntries skipped].
  destruct (fn entry st lg) as [[[[e|] st1] lg1]|]; simpl; try reflexivity.
  case_bool_decide; [apply walkEntries_skip | reflexivity].
Qed.

(** The directory walk keeps the walk-control values to itself. *)
Lemma walkEntries_no_control {S}
  (fn : WalkEntry -> S -> log -> outcome (option error * S * log))
  skip entries st lg e st' lg' :
  walkEntries fn skip entries st lg = Returns (Some e, st', lg') ->
  e ≠ fs_SkipDir /\ e ≠ fs_SkipAll.
Proof.
  revert skip st lg.
  induction entries as [|entry rest IH]; intros skip st lg; cbn [walkEntries]; [done|].
  destruct (skipped skip entry); [apply IH|].
  destruct (fn entry st lg) as [[[[e0|] st1] lg1]|]; simpl; [|apply IH|done].
  case_bool_decide; [apply IH|]. case_bool_decide; [done|].
  by intros [= <- <- <-].
Qed.

Section WalkProperties.
Context `{PemDecoder} {Certificate CertWithMetadata DAG Rand : Type}.
Context `{!CertificateParsers Certificate CertWithMetadata}.
Context `{!BomDAG CertWithMetadata DAG Rand}.

Lemma analyseFile_certificate_parse_error fs path certificates lg raw certs e lg' :
  filepath_Ext path ∈ certificateExtensions ->
  fs_ReadFile fs path = (raw, None) ->
  parsex509CertFromPath raw path lg = (certs, Some e, lg') ->
  analyseFile fs path certificates lg
  = Returns (Some (GetParsingFailedAlthoughCheckedError e pluginName), certificates, lg').
Proof.
  intros Hext Hread Hparse. unfold analyseFile.
  rewrite bool_decide_eq_true_2 by done. by rewrite Hread, Hparse.
Qed.

Lemma analyseFile_pkcs7_parse_error fs path certificates lg raw certs e :
  filepath_Ext path ∈ pkcs7Extensions ->
  fs_ReadFile fs path = (raw, None) ->
  parsePKCS7FromPath raw path = Returns (certs, Some e) ->
  analyseFile fs path certificates lg
  = Returns (Some (GetParsingFailedAlthoughCheckedError e pluginName), certificates, lg).
Proof.
  intros Hext Hread Hparse. unfold analyseFile.
  rewrite bool_decide_eq_false_2 by (by apply pkcs7Extension_not_certificate).
  rewrite bool_decide_eq_true_2 by done. by rewrite Hread, Hparse.
Qed.

Lemma walkDirFunc_skips {S} (fn : FilePathAnalysisFunc S) entry path st lg err st' lg' :
  isRegularFile entry path ->
  fn path st lg = Returns (err, st', lg') ->
  errors_Is err ErrParsingFailedAlthoughChecked = true ->
  walkDirFunc fn entry st lg = Returns (None, st', slog_Warn skippedFile lg').
Proof.
  intros (He & Hd & Hr) Hfn His. unfold walkDirFunc.
  rewrite He, Hd, Hr, Hfn; simpl. by rewrite His.
Qed.

Lemma walkDirFunc_propagates {S} (fn : FilePathAnalysisFunc S) entry path st lg err st' lg' :
  isRegularFile entry path ->
  fn path st lg = Returns (err, st', lg') ->
  errors_Is err ErrParsingFailedAlthoughChecked = false ->
  walkDirFunc fn entry st lg = Returns (err, st', lg').
Proof.
  intros (He & Hd & Hr) Hfn His. unfold walkDirFunc.
  rewrite He, Hd, Hr, Hfn; simpl. by rewrite His.
Qed.

(** C6 (amended): a file with a recognized extension on which the parser
    of its family returns an error makes the per-file function of
    [UpdateBOM] return that error wrapped as
    [ErrParsingFailedAlthoughChecked].  When the per-file function returns
    an error that is that condition for the file the walk is at,
    [PlainFilesystem.WalkDir] logs a warning, hands nil to the directory
    walk and goes on with the entries that follow.  Every other non-nil
    error of the per-file function is handed unchanged to the directory
    walk: if it is neither [fs.SkipDir] nor [fs.SkipAll], [WalkDir] stops
    before the next entry and returns it; on [fs.SkipAll] [WalkDir] stops
    and returns nil; on [fs.SkipDir] it leaves out the rest of the
    directory of the file and goes on behind it; and neither of the two is
    ever the error [WalkDir] returns.  An error returned by [WalkDir] is
    returned by [UpdateBOM], with the document as it was. *)
Theorem parse_failure_skips_file (S : Type) (fn : FilePathAnalysisFunc S)
  (ρ : MapRangeOrder) (fs : Filesystem) (bom : BOM)
  (entry : WalkEntry) (rest : list WalkEntry) (path : string)
  (st st' : S) (lg lg' : log) (err : option error) :
  (forall certificates raw certs e lg1,
     filepath_Ext path ∈ certificateExtensions ->
     fs_ReadFile fs path = (raw, None) ->
     parsex509CertFromPath raw path lg = (certs, Some e, lg1) ->
     analyseFile fs path certificates lg
     = Returns (Some (GetParsingFailedAlthoughCheckedError e pluginName), certificates, lg1)) /\
  (forall certificates raw certs e,
     filepath_Ext path ∈ pkcs7Extensions ->
     fs_ReadFile fs path = (raw, None) ->
     parsePKCS7FromPath raw path = Returns (certs, Some e) ->
     analyseFile fs path certificates lg
     = Returns (Some (GetParsingFailedAlthoughCheckedError e pluginName), certificates, lg)) /\
  (forall e plugin,
     errors_Is (Some (GetParsingFailedAlthoughCheckedError e plugin))
       ErrParsingFailedAlthoughChecked = true) /\
  (isRegularFile entry path -> fn path st lg = Returns (err, st', lg') ->
     (errors_Is err ErrParsingFailedAlthoughChecked = true ->
        walkDirFunc fn entry st lg = Returns (None, st', slog_Warn skippedFile lg') /\
        WalkDir (withEntries fs (entry :: rest)) fn st lg
        = WalkDir (withEntries fs rest) fn st' (slog_Warn skippedFile lg')) /\
     (errors_Is err ErrParsingFailedAlthoughChecked = false -> forall e, err = Some e ->
        walkDirFunc fn entry st lg = Returns (Some e, st', lg') /\
        (e ≠ fs_SkipDir -> e ≠ fs_SkipAll ->
           WalkDir (withEntries fs (entry :: rest)) fn st lg = Returns (Some e, st', lg')) /\
        (e = fs_SkipAll ->
           WalkDir (withEntries fs (entry :: rest)) fn st lg = Returns (None, st', lg')) /\
        (e = fs_SkipDir ->
           WalkDir (withEntries fs (entry :: rest)) fn st lg
           = WalkDir (withEntries fs (afterDirectory (entry_depth entry) rest)) fn st' lg'))) /\
  (forall e st1 lg1,
     WalkDir fs fn st lg = Returns (Some e, st1, lg1) -> e ≠ fs_SkipDir /\ e ≠ fs_SkipAll) /\
  (forall e certificates lg1,
     WalkDir fs (analyseFile fs) [] lg = Returns (Some e, certificates, lg1) ->
     UpdateBOM ρ fs bom lg = Returns (Some e, bom, lg1)).
Proof.
  split; [|split; [|split; [|split; [|split]]]].
  - intros certificates raw certs e lg1. apply analyseFile_certificate_parse_error.
  - intros certificates raw certs e. apply analyseFile_pkcs7_parse_error.
  - intros e plugin. apply GetParsingFailedAlthoughCheckedError_Is.
  - intros Hfile Hfn. unfold WalkDir. cbn [fs_entries withEntries].
    rewrite filepath_WalkDir_cons. split.
    + intros His.
      pose proof (walkDirFunc_skips fn entry path st lg err st' lg' Hfile Hfn His) as Hskip.
      split; [done|]. by rewrite Hskip.
    + intros His e ->.
      pose proof (walkDirFunc_propagates fn entry path st lg _ st' lg' Hfile Hfn His) as Hprop.
      split; [done|]. rewrite Hprop. cbn [mbind outcome_bind].
      split; [|split].
      * intros Hdir Hall. by rewrite !bool_decide_eq_false_2 by done.
      * by intros ->.
      * intros ->. rewrite bool_decide_eq_true_2 by done.
        destruct Hfile as (_ & Hd & _). unfold skipFrom. by rewrite Hd.
  - intros e st1 lg1. apply walkEntries_no_control.
  - intros e certificates lg1. apply UpdateBOM_walk_error.
Qed.

End WalkProperties.

Example walk_skips_broken_file :
  UpdateBOM forwardOrder brokenThenGood emptyBOM []
  = Returns (None,
      {| SerialNumber := "urn:uuid:0";
         Components := Some [certificateComponent "n1" "n2" "n2"; sha256WithRSA "n2"];
         BomDependencies := Some [dependencyRecord "n1" ["n2"]] |},
      [{| entryLevel := LevelWarn; entryMsg := skippedFile |};
       {| entryLevel := LevelInfo; entryMsg := searchingDone |}]).
Proof. vm_compute. reflexivity. Qed.

Example walk_stops_at_unreadable_file :
  UpdateBOM forwardOrder unreadableFile emptyBOM [] = Returns (Some notExist, emptyBOM, []).
Proof. vm_compute. reflexivity. Qed.

(** On [fs.SkipDir] for ["certs/a.pem"] the walk leaves out ["certs/b.pem"]
    and goes on with ["z.pem"], whose directory is the root: two files are
    visited and the walk returns nil. *)
Example walk_skips_directory :
  WalkDir nestedFiles skipDirectory 0 [] = Returns (None, 2, []).
Proof. reflexivity. Qed.

Example walk_skips_all :
  WalkDir nestedFiles skipAll 0 [] = Returns (None, 1, []).
Proof. reflexivity. Qed.

(** A PKCS7 file in binary DER form holds no PEM block: the scan panics. *)
Example updateBOM_der_pkcs7_panics :
  UpdateBOM forwardOrder derBundle emptyBOM [] = Panics NilDereference.
Proof. vm_compute. reflexivity. Qed.

(** C6 as stated fails, in two ways.  An error of the per-file function
    other than the [ErrParsingFailedAlthoughChecked] condition need not end
    the walk nor reach the caller: when the function returns [fs.SkipDir]
    for the files of [nestedFiles], the directory walk goes on behind the
    directory of the file and returns nil.  And a file with a PKCS7
    extension whose bytes hold no PEM block, so that no certificate is
    parsed from it, does not make the per-file function return a wrapped
    error: the function panics, and so does the walk. *)
Lemma parse_failure_skips_file_counterexample :
  ~ (forall (fn : FilePathAnalysisFunc nat) fs e entry path,
       entry ∈ fs_entries fs ->
       isRegularFile entry path ->
       (forall p visited lg, fn p visited lg = Returns (Some e, S visited, lg)) ->
       errors_Is (Some e) ErrParsingFailedAlthoughChecked = false ->
       exists visited lg, WalkDir fs fn 0 [] = Returns (Some e, visited, lg)) /\
  ~ (forall fs path raw (certificates : list toyCertWithMetadata) lg,
       filepath_Ext path ∈ pkcs7Extensions ->
       fs_ReadFile fs path = (raw, None) ->
       (forall certs, parsePKCS7FromPath raw path ≠ Returns (certs, None)) ->
       exists e, analyseFile fs path certificates lg
         = Returns (Some (GetParsingFailedAlthoughCheckedError e pluginName),
                    certificates, lg)) /\
  WalkDir nestedFiles skipDirectory 0 [] = Returns (None, 2, []) /\
  WalkDir derBundle (analyseFile derBundle) [] [] = Panics NilDereference.
Proof.
  split; [|split; [|split]].
  - intros Hclaim.
    destruct (Hclaim skipDirectory nestedFiles fs_SkipDir (fileEntry "certs/a.pem")
                "certs/a.pem") as (visited & lg & Hwalk).
    + cbn [fs_entries nestedFiles]. do 2 constructor 2. constructor 1.
    + repeat split.
    + reflexivity.
    + reflexivity.
    + vm_compute in Hwalk. discriminate Hwalk.
  - intros Hclaim.
    destruct (Hclaim derBundle "bundle.p7b" ["0"; "1"; "2"]%byte [] []) as [e He].
    + apply (bool_decide_unpack _). vm_compute. exact I.
    + reflexivity.
    + intros certs. vm_compute. discriminate.
    + vm_compute in He. discriminate He.
  - reflexivity.
  - vm_compute. reflexivity.
Qed.

Lemma parse_failure_skips_file_witness :
  (walkDirFunc (analyseFile brokenThenGood) (fileEntry "broken.pem") [] []
   = Returns (None, [], slog_Warn skippedFile []) /\
   WalkDir (withEntries brokenThenGood [fileEntry "broken.pem"; fileEntry "good.pem"])
     (analyseFile brokenThenGood) [] []
   = WalkDir (withEntries brokenThenGood [fileEntry "good.pem"])
       (analyseFile brokenThenGood) [] (slog_Warn skippedFile [])) /\
  (walkDirFunc (analyseFile unreadableFile) (fileEntry "gone.pem") [] []
   = Returns (Some notExist, [], []) /\
   WalkDir (withEntries unreadableFile [fileEntry "gone.pem"; fileEntry "good.pem"])
     (analyseFile unreadableFile) [] []
   = Returns (Some notExist, [], [])) /\
  UpdateBOM forwardOrder unreadableFile emptyBOM [] = Returns (Some notExist, emptyBOM, []).
Proof.
  split; [|split].
  - apply (parse_failure_skips_file (list toyCertWithMetadata) (analyseFile brokenThenGood)
             forwardOrder brokenThenGood emptyBOM (fileEntry "broken.pem")
             [fileEntry "good.pem"] "broken.pem" [] [] [] []
             (Some (GetParsingFailedAlthoughCheckedError malformedCertificate pluginName)));
      [repeat split | reflexivity | reflexivity].
  - pose proof (parse_failure_skips_file (list toyCertWithMetadata)
             (analyseFile unreadableFile) forwardOrder unreadableFile emptyBOM
             (fileEntry "gone.pem") [fileEntry "good.pem"] "gone.pem" [] [] [] []
             (Some notExist)) as (_ & _ & _ & Hwalk & _).
    destruct Hwalk as [_ Hother]; [repeat split | reflexivity |].
    destruct (Hother eq_refl notExist eq_refl) as (Hstep & Hstop & _).
    split; [exact Hstep | apply Hstop; discriminate].
  - pose proof (parse_failure_skips_file (list toyCertWithMetadata)
             (analyseFile unreadableFile) forwardOrder unreadableFile emptyBOM
             (fileEntry "gone.pem") [fileEntry "good.pem"] "gone.pem" [] [] [] []
             (Some notExist)) as (_ & _ & _ & _ & _ & Hcaller).
    apply (Hcaller notExist [] []). reflexivity.
Defined.

(** * Further properties *)

(** ** [IndexBomRefInDependencySlice] and [MergeDependencyStructSlice] *)

Lemma indexOf_None_iff slice ref : indexOf slice ref = None <-> ref ∉ refsOf slice.
Proof.
  unfold refsOf. induction slice as [|dep rest IH]; simpl.
  - split; [intros _; apply not_elem_of_nil | done].
  - rewrite not_elem_of_cons. unfold str_eq. case_bool_decide as E.
    + split; [done | intros [Hne _]; congruence].
    + destruct (indexOf rest ref) as [k|]; simpl.
      * split; [done|]. intros [_ Hn]. by apply IH in Hn.
      * split; [|done]. intros _. split; [congruence | by apply IH].
Qed.

Lemma indexOf_lt slice ref i : indexOf slice ref = Some i -> i < length slice.
Proof.
  intros (rec & Hrec & _)%indexOf_Some. by apply lookup_lt_Some in Hrec.
Qed.

(** X1: the index returned is that of the first record with the given [Ref],
    and it is [-1] exactly when no record has that [Ref]. *)
Theorem IndexBomRefInDependencySlice_first (slice : list cdx.Dependency)
  (bomRef : cdx.BOMReference) :
  (IndexBomRefInDependencySlice slice bomRef = (-1)%Z <-> bomRef ∉ refsOf slice) /\
  (IndexBomRefInDependencySlice slice bomRef ≠ (-1)%Z ->
     (0 <= IndexBomRefInDependencySlice slice bomRef < Z.of_nat (length slice))%Z /\
     exists rec,
       slice !! Z.to_nat (IndexBomRefInDependencySlice slice bomRef) = Some rec /\
       cdx.Ref rec = bomRef /\
       forall j rec', j < Z.to_nat (IndexBomRefInDependencySlice slice bomRef) ->
         slice !! j = Some rec' -> cdx.Ref rec' ≠ bomRef).
Proof.
  unfold IndexBomRefInDependencySlice.
  destruct (indexOf slice bomRef) as [i|] eqn:Hi.
  - split.
    + split; [lia|]. intros Hn. apply indexOf_None_iff in Hn. congruence.
    + intros _. pose proof (indexOf_lt _ _ _ Hi).
      split; [lia|]. rewrite Nat2Z.id. by apply indexOf_Some.
  - split; [|done]. split; [|done]. intros _. by apply indexOf_None_iff.
Qed.

Lemma IndexBomRefInDependencySlice_first_witness :
  (0 <= IndexBomRefInDependencySlice
          [dependencyRecord "a" []; dependencyRecord "b" ["x"]; dependencyRecord "b" []] "b"
     < Z.of_nat 3)%Z /\
  exists rec,
    [dependencyRecord "a" []; dependencyRecord "b" ["x"]; dependencyRecord "b" []]
      !! Z.to_nat (IndexBomRefInDependencySlice
           [dependencyRecord "a" []; dependencyRecord "b" ["x"]; dependencyRecord "b" []] "b")
      = Some rec /\
    cdx.Ref rec = "b" /\
    forall j rec', j < Z.to_nat (IndexBomRefInDependencySlice
           [dependencyRecord "a" []; dependencyRecord "b" ["x"]; dependencyRecord "b" []] "b") ->
      [dependencyRecord "a" []; dependencyRecord "b" ["x"]; dependencyRecord "b" []] !! j
        = Some rec' -> cdx.Ref rec' ≠ "b".
Proof.
  apply (IndexBomRefInDependencySlice_first
    [dependencyRecord "a" []; dependencyRecord "b" ["x"]; dependencyRecord "b" []] "b").
  discriminate.
Defined.

Lemma unionTargets_cons existing s rest :
  unionTargets existing (s :: rest)
  = if bool_decide (s ∈ existing) then unionTargets existing rest
    else unionTargets (existing ++ [s]) rest.
Proof.
  pose proof (mergeTargets_unionTargets (s :: rest) existing) as Hm. simpl in Hm.
  case_bool_decide; rewrite mergeTargets_unionTargets in Hm; by injection Hm.
Qed.

Lemma unionTargets_nil existing : unionTargets existing [] = existing.
Proof. unfold unionTargets. simpl. apply app_nil_r. Qed.

Lemma unionTargets_prefix existing new : existing `prefix_of` unionTargets existing new.
Proof. unfold unionTargets. by eexists. Qed.

Lemma mergeTargets_returns targets cur cur' :
  mergeTargets targets cur = Returns cur' ->
  (cur = None /\ targets = [] /\ cur' = None) \/
  (exists existing, cur = Some existing /\ cur' = Some (unionTargets existing targets)).
Proof.
  destruct cur as [existing|].
  - rewrite mergeTargets_unionTargets. intros [= <-]. right. by eexists.
  - destruct targets; [|done]. intros [= <-]. by left.
Qed.

(** What one turn of the outer loop returns, when it returns. *)
Lemma mergeDependency_returns this o this' :
  mergeDependency this o = Returns this' ->
  (indexOf this (cdx.Ref o) = None /\ this' = this ++ [o]) \/
  (exists i rec targets cur',
     indexOf this (cdx.Ref o) = Some i /\ this !! i = Some rec /\
     cdx.Dependencies o = Some targets /\
     mergeTargets targets (cdx.Dependencies rec) = Returns cur' /\
     this' = <[i := {| cdx.Ref := cdx.Ref rec; cdx.Dependencies := cur' |}]> this).
Proof.
  destruct (indexOf this (cdx.Ref o)) as [i|] eqn:Hi.
  - intros Hm. right. unfold mergeDependency in Hm.
    destruct (IndexBomRefInDependencySlice_found _ _ _ Hi) as [Hne Hto].
    rewrite Hto, bool_decide_eq_true_2 in Hm by done.
    destruct (cdx.Dependencies o) as [targets|]; [|done]. simpl in Hm.
    destruct (this !! i) as [rec|] eqn:Hrec; [|done].
    destruct (mergeTargets targets (cdx.Dependencies rec)) as [cur'|] eqn:Ht; [|done].
    simpl in Hm. injection Hm as <-. by exists i, rec, targets, cur'.
  - rewrite mergeDependency_absent by done. intros [= <-]. by left.
Qed.

Lemma refsOf_insert_same (this : list cdx.Dependency) i rec rec' :
  this !! i = Some rec -> cdx.Ref rec' = cdx.Ref rec -> refsOf (<[i := rec']> this) = refsOf this.
Proof.
  intros Hrec Href. unfold refsOf. rewrite list_fmap_insert, Href.
  apply list_insert_id. by rewrite list_lookup_fmap, Hrec.
Qed.

Lemma mergeDependency_refsOf this o this' :
  mergeDependency this o = Returns this' ->
  refsOf this' = unionTargets (refsOf this) [cdx.Ref o].
Proof.
  intros [[Hi ->] | (i & rec & targets & cur' & Hi & Hrec & _ & _ & ->)]%mergeDependency_returns;
    rewrite unionTargets_cons, !unionTargets_nil.
  - apply indexOf_None_iff in Hi. rewrite bool_decide_eq_false_2 by done.
    unfold refsOf. by rewrite map_app.
  - rewrite bool_decide_eq_true_2.
    + by apply (refsOf_insert_same _ _ rec).
    + destruct (decide (cdx.Ref o ∈ refsOf this)) as [|Hn]; [done|].
      apply indexOf_None_iff in Hn. congruence.
Qed.

Lemma unionTargets_app existing new1 new2 :
  unionTargets existing (new1 ++ new2) = unionTargets (unionTargets existing new1) new2.
Proof.
  revert existing. induction new1 as [|s new1 IH]; intros existing; simpl.
  - by rewrite unionTargets_nil.
  - rewrite !unionTargets_cons. case_bool_decide; apply IH.
Qed.

Lemma MergeDependencyStructSlice_refsOf this other merged :
  MergeDependencyStructSlice this other = Returns merged ->
  refsOf merged = unionTargets (refsOf this) (refsOf other).
Proof.
  revert this. induction other as [|o rest IH]; intros this; simpl.
  - intros [= <-]. by rewrite unionTargets_nil.
  - destruct (mergeDependency this o) as [this'|] eqn:Hstep; [|done]. simpl.
    intros Hrest. rewrite (IH _ Hrest), (mergeDependency_refsOf _ _ _ Hstep).
    change (cdx.Ref o :: refsOf rest) with ([cdx.Ref o] ++ refsOf rest).
    by rewrite unionTargets_app.
Qed.

(** X2: when the merge returns, the [Ref]s of the result are the [Ref]s of
    [this], in their order, followed by the [Ref]s of [other] that [this]
    does not have, each once and in order of first appearance; so records
    with pairwise distinct [Ref]s stay pairwise distinct, and the merge
    adds at most one record for each record of [other]. *)
Theorem MergeDependencyStructSlice_refs (this other merged : list cdx.Dependency) :
  MergeDependencyStructSlice this other = Returns merged ->
  refsOf merged
    = refsOf this ++ firstOccurrences (filter (fun r => r ∉ refsOf this) (refsOf other)) /\
  (NoDup (refsOf this) -> NoDup (refsOf merged)) /\
  length this <= length merged <= length this + length other.
Proof.
  intros Hm. pose proof (MergeDependencyStructSlice_refsOf _ _ _ Hm) as Hrefs.
  split; [done|]. split.
  - rewrite Hrefs. apply unionTargets_NoDup.
  - assert (length (refsOf merged)
            = length (refsOf this)
              + length (firstOccurrences (filter (fun r => r ∉ refsOf this) (refsOf other))))
      as Hlen by (by rewrite Hrefs; unfold unionTargets; rewrite length_app).
    assert (forall l : list string, length (firstOccurrences l) <= length l) as Hfirst.
    { induction l as [|x l IHl]; simpl; [lia|].
      pose proof (length_filter (fun y => y ≠ x) (firstOccurrences l)). lia. }
    pose proof (Hfirst (filter (fun r => r ∉ refsOf this) (refsOf other))).
    pose proof (length_filter (fun r => r ∉ refsOf this) (refsOf other)).
    unfold refsOf in *. rewrite !length_map in *. lia.
Qed.

Lemma MergeDependencyStructSlice_refs_witness :
  refsOf [dependencyRecord "a" ["x"]; dependencyRecord "b" []; dependencyRecord "c" ["x"]]
    = refsOf [dependencyRecord "a" []]
      ++ firstOccurrences
           (filter (fun r => r ∉ refsOf [dependencyRecord "a" []])
              (refsOf [dependencyRecord "b" []; dependencyRecord "a" ["x"];
                       dependencyRecord "c" ["x"]; dependencyRecord "b" []])) /\
  (NoDup (refsOf [dependencyRecord "a" []]) ->
   NoDup (refsOf [dependencyRecord "a" ["x"]; dependencyRecord "b" [];
                  dependencyRecord "c" ["x"]])) /\
  length [dependencyRecord "a" []]
    <= length [dependencyRecord "a" ["x"]; dependencyRecord "b" []; dependencyRecord "c" ["x"]]
    <= length [dependencyRecord "a" []]
       + length [dependencyRecord "b" []; dependencyRecord "a" ["x"];
                 dependencyRecord "c" ["x"]; dependencyRecord "b" []].
Proof.
  apply (MergeDependencyStructSlice_refs [dependencyRecord "a" []]
    [dependencyRecord "b" []; dependencyRecord "a" ["x"]; dependencyRecord "c" ["x"];
     dependencyRecord "b" []]).
  reflexivity.
Defined.

Lemma keepsRecord_refl rec : keepsRecord rec rec.
Proof. by split. Qed.

Lemma keepsRecord_trans rec1 rec2 rec3 :
  keepsRecord rec1 rec2 -> keepsRecord rec2 rec3 -> keepsRecord rec1 rec3.
Proof.
  intros [Hr1 Hp1] [Hr2 Hp2]. split; [congruence|]. by etrans.
Qed.

Lemma Forall2_keepsRecord_refl this : Forall2 keepsRecord this this.
Proof. apply Forall_Forall2_diag, Forall_forall. intros rec _. apply keepsRecord_refl. Qed.

Lemma Forall2_keepsRecord_trans l1 l2 l3 :
  Forall2 keepsRecord l1 l2 -> Forall2 keepsRecord l2 l3 -> Forall2 keepsRecord l1 l3.
Proof.
  intros H12. revert l3. induction H12 as [|x y l1 l2 Hxy H12 IH]; intros l3 H23.
  - by apply Forall2_nil_inv_l in H23 as ->.
  - inversion H23 as [|? z ? l3' Hyz H23']; subst. constructor.
    + by eapply keepsRecord_trans.
    + by apply IH.
Qed.

Lemma keepsRecords_refl this : keepsRecords this this.
Proof. exists this, []. split; [by rewrite app_nil_r | apply Forall2_keepsRecord_refl]. Qed.

Lemma keepsRecords_trans l1 l2 l3 :
  keepsRecords l1 l2 -> keepsRecords l2 l3 -> keepsRecords l1 l3.
Proof.
  intros (kept & added & -> & H12) (kept' & added' & -> & H23).
  apply Forall2_app_inv_l in H23 as (k1 & k2 & Hk1 & Hk2 & ->).
  exists k1, (k2 ++ added'). split; [by rewrite app_assoc|].
  by eapply Forall2_keepsRecord_trans.
Qed.

Lemma mergeDependency_keepsRecords this o this' :
  mergeDependency this o = Returns this' -> keepsRecords this this'.
Proof.
  intros [[Hi ->] | (i & rec & targets & cur' & Hi & Hrec & _ & Ht & ->)]%mergeDependency_returns.
  - exists this, [o]. split; [done | apply Forall2_keepsRecord_refl].
  - exists (<[i := {| cdx.Ref := cdx.Ref rec; cdx.Dependencies := cur' |}]> this), [].
    split; [by rewrite app_nil_r|].
    rewrite <- (list_insert_id this i rec) at 1 by done.
    apply Forall2_insert; [apply Forall2_keepsRecord_refl|].
    split; [done|]. unfold targetsOf; simpl.
    apply mergeTargets_returns in Ht as [(-> & _ & ->) | (existing & -> & ->)]; [done|].
    apply unionTargets_prefix.
Qed.

Lemma MergeDependencyStructSlice_keepsRecords this other merged :
  MergeDependencyStructSlice this other = Returns merged -> keepsRecords this merged.
Proof.
  revert this. induction other as [|o rest IH]; intros this; simpl.
  - intros [= <-]. apply keepsRecords_refl.
  - destruct (mergeDependency this o) as [this'|] eqn:Hstep; [|done]. simpl.
    intros Hrest. eapply keepsRecords_trans; [by eapply mergeDependency_keepsRecords|].
    by apply IH.
Qed.

(** X3: when the merge returns, every record of [this] is still at its
    position in the result, with the same [Ref] and with its targets as the
    first targets of the record there: the merge removes no record and no
    target, and reorders none. *)
Theorem MergeDependencyStructSlice_keeps_existing (this other merged : list cdx.Dependency) :
  MergeDependencyStructSlice this other = Returns merged ->
  forall i rec, this !! i = Some rec ->
    exists rec', merged !! i = Some rec' /\ cdx.Ref rec' = cdx.Ref rec /\
      targetsOf rec `prefix_of` targetsOf rec'.
Proof.
  intros (kept & added & -> & Hkept)%MergeDependencyStructSlice_keepsRecords i rec Hrec.
  destruct (Forall2_lookup_l _ _ _ _ _ Hkept Hrec) as (rec' & Hrec' & Href & Hpre).
  exists rec'. split; [|done]. by apply lookup_app_l_Some.
Qed.

Lemma MergeDependencyStructSlice_keeps_existing_witness :
  exists rec',
    [dependencyRecord "a" ["x"; "y"]; dependencyRecord "b" ["z"]; dependencyRecord "c" []]
      !! 1 = Some rec' /\
    cdx.Ref rec' = cdx.Ref (dependencyRecord "b" ["z"]) /\
    targetsOf (dependencyRecord "b" ["z"]) `prefix_of` targetsOf rec'.
Proof.
  apply (MergeDependencyStructSlice_keeps_existing
    [dependencyRecord "a" ["x"]; dependencyRecord "b" ["z"]]
    [dependencyRecord "c" []; dependencyRecord "a" ["y"; "x"]]
    [dependencyRecord "a" ["x"; "y"]; dependencyRecord "b" ["z"]; dependencyRecord "c" []]);
    reflexivity.
Defined.

Lemma recordFor_indexOf slice ref :
  recordFor slice ref = indexOf slice ref ≫= fun i => slice !! i.
Proof.
  induction slice as [|rec rest IH]; simpl; [done|]. unfold str_eq.
  case_bool_decide; simpl; [done|]. rewrite IH.
  by destruct (indexOf rest ref).
Qed.

Lemma indexOf_refsOf slice1 slice2 ref :
  refsOf slice1 = refsOf slice2 -> indexOf slice1 ref = indexOf slice2 ref.
Proof.
  revert slice2. induction slice1 as [|rec1 rest1 IH]; intros [|rec2 rest2]; simpl; try done.
  intros [= Href Hrest]. rewrite Href, (IH rest2 Hrest). done.
Qed.

Lemma indexOf_app slice1 slice2 ref :
  indexOf (slice1 ++ slice2) ref
  = match indexOf slice1 ref with
    | Some i => Some i
    | None => (fun i => length slice1 + i) <$> indexOf slice2 ref
    end.
Proof.
  induction slice1 as [|rec rest IH]; simpl.
  - by destruct (indexOf slice2 ref).
  - destruct (str_eq (cdx.Ref rec) ref); [done|]. rewrite IH.
    destruct (indexOf rest ref); simpl; [done|]. by destruct (indexOf slice2 ref).
Qed.

Lemma targetsFor_insert_other this i rec' ref :
  indexOf this ref ≠ Some i ->
  refsOf (<[i := rec']> this) = refsOf this ->
  targetsFor (<[i := rec']> this) ref = targetsFor this ref.
Proof.
  intros Hi Hrefs. unfold targetsFor. rewrite !recordFor_indexOf.
  rewrite (indexOf_refsOf _ _ ref Hrefs).
  destruct (indexOf this ref) as [j|]; simpl; [|done].
  rewrite list_lookup_insert_ne; [done | congruence].
Qed.

Lemma targetsFor_insert_same this i rec rec' ref :
  indexOf this ref = Some i -> this !! i = Some rec ->
  refsOf (<[i := rec']> this) = refsOf this ->
  targetsFor (<[i := rec']> this) ref = targetsOf rec' /\ targetsFor this ref = targetsOf rec.
Proof.
  intros Hi Hrec Hrefs. unfold targetsFor. rewrite !recordFor_indexOf.
  rewrite (indexOf_refsOf _ _ ref Hrefs), Hi. simpl.
  rewrite list_lookup_insert_eq by (by eapply lookup_lt_Some). by rewrite Hrec.
Qed.

(** The targets recorded for a [Ref] after one turn of the outer loop. *)
Lemma mergeDependency_targetsFor this o this' ref s :
  mergeDependency this o = Returns this' ->
  s ∈ targetsFor this' ref <->
  s ∈ targetsFor this ref \/ (ref = cdx.Ref o /\ s ∈ targetsOf o).
Proof.
  intros [[Hi ->] | (i & rec & targets & cur' & Hi & Hrec & Ho & Ht & ->)]%mergeDependency_returns.
  - unfold targetsFor. rewrite !recordFor_indexOf, indexOf_app. simpl. unfold str_eq.
    destruct (indexOf this ref) as [j|] eqn:Hj; simpl.
    + destruct (indexOf_Some _ _ _ Hj) as (r & Hr & Href & _).
      rewrite (lookup_app_l_Some _ _ _ _ Hr), Hr.
      split; [by left|]. intros [|[-> _]]; [done|]. congruence.
    + case_bool_decide as E; simpl.
      * rewrite Nat.add_0_r, list_lookup_middle by done.
        split; [by right | by intros [Hs%elem_of_nil|[_ Hs]]].
      * split; [by intros Hs%elem_of_nil|].
        intros [Hs%elem_of_nil|[-> _]]; done.
  - assert (refsOf (<[i := {| cdx.Ref := cdx.Ref rec; cdx.Dependencies := cur' |}]> this)
            = refsOf this) as Hrefs by (by apply (refsOf_insert_same _ _ rec)).
    assert (forall x, x ∈ targetsOf {| cdx.Ref := cdx.Ref rec; cdx.Dependencies := cur' |}
                      <-> x ∈ targetsOf rec \/ x ∈ targetsOf o) as Hnew.
    { intros x. unfold targetsOf; simpl. rewrite Ho.
      apply mergeTargets_returns in Ht as [(-> & -> & ->) | (existing & -> & ->)].
      - rewrite elem_of_nil. naive_solver.
      - apply elem_of_unionTargets. }
    destruct (decide (ref = cdx.Ref o)) as [->|Hne].
    + destruct (targetsFor_insert_same _ _ _ _ _ Hi Hrec Hrefs) as [-> ->].
      rewrite Hnew. naive_solver.
    + rewrite targetsFor_insert_other; [naive_solver | | done].
      intros Hi'. apply indexOf_Some in Hi as (r1 & Hr1 & Href1 & _).
      apply indexOf_Some in Hi' as (r2 & Hr2 & Href2 & _). congruence.
Qed.

(** X4: for slices in which every record owns its target list (no two
    records of [this] and [other] share a [Dependencies] pointer, which is
    how the records are modelled), when the merge returns, the targets the
    result records for a [Ref] (in its first record with that [Ref]) are
    exactly the targets [this] recorded for it together with the targets of
    every record of [other] with that [Ref]: no edge is lost and none is
    invented.  Records that share a pointer are outside this statement: a
    write through the pointer of one reaches the others. *)
Theorem MergeDependencyStructSlice_union_of_edges (this other merged : list cdx.Dependency)
  (ref s : string) :
  MergeDependencyStructSlice this other = Returns merged ->
  s ∈ targetsFor merged ref <->
  s ∈ targetsFor this ref \/ exists o, o ∈ other /\ cdx.Ref o = ref /\ s ∈ targetsOf o.
Proof.
  revert this. induction other as [|o rest IH]; intros this; simpl.
  - intros [= <-]. split; [by left|]. intros [|(o & Ho & _)]; [done|].
    by apply elem_of_nil in Ho.
  - destruct (mergeDependency this o) as [this'|] eqn:Hstep; [|done]. simpl.
    intros Hrest. rewrite (IH _ Hrest), (mergeDependency_targetsFor _ _ _ ref s Hstep).
    split.
    + intros [[|[-> Hs]]|(o' & Ho' & Href & Hs)].
      * by left.
      * right. exists o. split_and!; [left|done..].
      * right. exists o'. split_and!; [by right|done..].
    + intros [|(o' & Ho' & Href & Hs)]; [by left; left|].
      apply elem_of_cons in Ho' as [->|Ho'].
      * left. right. by split.
      * right. by exists o'.
Qed.

Lemma MergeDependencyStructSlice_union_of_edges_witness :
  "y" ∈ targetsFor [dependencyRecord "a" ["x"; "y"]; dependencyRecord "b" ["z"]] "a" <->
  "y" ∈ targetsFor [dependencyRecord "a" ["x"]] "a" \/
  exists o, o ∈ [dependencyRecord "b" ["z"]; dependencyRecord "a" ["y"; "x"]] /\
    cdx.Ref o = "a" /\ "y" ∈ targetsOf o.
Proof.
  apply (MergeDependencyStructSlice_union_of_edges [dependencyRecord "a" ["x"]]
    [dependencyRecord "b" ["z"]; dependencyRecord "a" ["y"; "x"]]
    [dependencyRecord "a" ["x"; "y"]; dependencyRecord "b" ["z"]] "a" "y").
  reflexivity.
Defined.

(** X5: merging the concatenation of two slices is merging the first and
    then, into the result, the second; a panic of the first merge is the
    panic of the whole. *)
Theorem MergeDependencyStructSlice_app (this other1 other2 : list cdx.Dependency) :
  MergeDependencyStructSlice this (other1 ++ other2)
  = MergeDependencyStructSlice this other1
      ≫= fun merged => MergeDependencyStructSlice merged other2.
Proof.
  revert this. induction other1 as [|o rest IH]; intros this; simpl; [done|].
  destruct (mergeDependency this o) as [this'|p]; simpl; [apply IH | done].
Qed.

Lemma MergeDependencyStructSlice_append_fresh this other :
  NoDup (refsOf other) -> (forall r, r ∈ refsOf other -> r ∉ refsOf this) ->
  MergeDependencyStructSlice this other = Returns (this ++ other).
Proof.
  revert this. induction other as [|o rest IH]; intros this Hnd Hfresh; simpl.
  - by rewrite app_nil_r.
  - apply NoDup_cons in Hnd as [Ho Hnd].
    rewrite mergeDependency_absent.
    + simpl. rewrite IH; [by rewrite <- app_assoc | done |].
      intros r Hr. unfold refsOf. rewrite map_app, not_elem_of_app. split.
      * apply Hfresh. by right.
      * simpl. rewrite list_elem_of_singleton. intros ->. done.
    + apply indexOf_None_iff, Hfresh. by left.
Qed.

(** X6: records whose [Ref]s are pairwise distinct and absent from [this]
    are appended to [this] as they are and in their order, whether or not
    their [Dependencies] pointers are set; in particular merging such
    records into the empty slice returns them unchanged. *)
Theorem MergeDependencyStructSlice_fresh (this other : list cdx.Dependency) :
  NoDup (refsOf other) -> (forall r, r ∈ refsOf other -> r ∉ refsOf this) ->
  MergeDependencyStructSlice this other = Returns (this ++ other) /\
  MergeDependencyStructSlice [] other = Returns other.
Proof.
  intros Hnd Hfresh. split; [by apply MergeDependencyStructSlice_append_fresh|].
  rewrite MergeDependencyStructSlice_append_fresh; [done..|].
  intros r _. apply not_elem_of_nil.
Qed.

Lemma MergeDependencyStructSlice_fresh_witness :
  MergeDependencyStructSlice [dependencyRecord "a" ["x"]]
    [leafRecord "b"; dependencyRecord "c" ["x"; "x"]]
  = Returns ([dependencyRecord "a" ["x"]] ++ [leafRecord "b"; dependencyRecord "c" ["x"; "x"]])
  /\ MergeDependencyStructSlice [] [leafRecord "b"; dependencyRecord "c" ["x"; "x"]]
     = Returns [leafRecord "b"; dependencyRecord "c" ["x"; "x"]].
Proof.
  apply (MergeDependencyStructSlice_fresh [dependencyRecord "a" ["x"]]
    [leafRecord "b"; dependencyRecord "c" ["x"; "x"]]).
  - apply (bool_decide_unpack _). vm_compute. exact I.
  - apply Forall_forall. apply (bool_decide_unpack _). vm_compute. exact I.
Defined.

(** X7: merging a single record panics exactly when [this] has a record
    with its [Ref] and either the [Dependencies] pointer of the merged
    record is nil, or the one of the first such record of [this] is nil
    while the merged record has a target; in every other case it returns. *)
Theorem MergeDependencyStructSlice_single_panics (this : list cdx.Dependency)
  (o : cdx.Dependency) :
  panics (MergeDependencyStructSlice this [o]) <->
  exists rec, recordFor this (cdx.Ref o) = Some rec /\
    (cdx.Dependencies o = None \/
     (cdx.Dependencies rec = None /\ targetsOf o ≠ [])).
Proof.
  simpl. rewrite recordFor_indexOf. unfold mergeDependency.
  destruct (indexOf this (cdx.Ref o)) as [i|] eqn:Hi; simpl.
  - destruct (IndexBomRefInDependencySlice_found _ _ _ Hi) as [Hne ->].
    rewrite bool_decide_eq_true_2 by done.
    destruct (indexOf_Some _ _ _ Hi) as (rec & Hrec & _). rewrite Hrec.
    unfold targetsOf.
    destruct (cdx.Dependencies o) as [targets|]; simpl.
    + destruct (cdx.Dependencies rec) as [existing|] eqn:Hex.
      * rewrite mergeTargets_unionTargets. simpl.
        split; [done|]. intros (rec' & [= <-] & [|[]]); congruence.
      * destruct targets as [|s targets]; simpl.
        -- split; [done|]. intros (rec' & [= <-] & [|[]]); congruence.
        -- split; [|done]. intros _. exists rec. split; [done|]. right. by split.
    + split; [|done]. intros _. exists rec. split; [done|]. by left.
  - rewrite (IndexBomRefInDependencySlice_absent _ _ Hi).
    rewrite bool_decide_eq_false_2 by (by intros Hn). simpl.
    split; [done|]. by intros (rec & [=] & _).
Qed.

(** ** [dependencyMapToStructSlice] and the order of the range *)

Lemma refsOf_dependencyMapToStructSlice ρ dependencyMap :
  refsOf (dependencyMapToStructSlice ρ dependencyMap) = (range_order ρ dependencyMap).*1.
Proof.
  unfold refsOf, dependencyMapToStructSlice.
  rewrite <- list_fmap_compose. done.
Qed.

Lemma dependencyMapToStructSlice_NoDup ρ dependencyMap :
  NoDup (refsOf (dependencyMapToStructSlice ρ dependencyMap)).
Proof.
  rewrite refsOf_dependencyMapToStructSlice, range_order_perm.
  apply NoDup_fst_map_to_list.
Qed.

(** X8: [dependencyMapToStructSlice] returns one record for each key of the
    map and none else, each with exactly the targets of its key behind a
    pointer that is set; the [Ref]s of the records are pairwise distinct. *)
Theorem dependencyMapToStructSlice_entries (ρ : MapRangeOrder)
  (dependencyMap : gmap cdx.BOMReference (list string)) :
  (forall rec, rec ∈ dependencyMapToStructSlice ρ dependencyMap <->
     exists targets, dependencyMap !! cdx.Ref rec = Some targets /\
       cdx.Dependencies rec = Some targets) /\
  NoDup (refsOf (dependencyMapToStructSlice ρ dependencyMap)) /\
  length (dependencyMapToStructSlice ρ dependencyMap) = size dependencyMap.
Proof.
  split; [|split].
  - intros rec. unfold dependencyMapToStructSlice. rewrite list_elem_of_fmap. split.
    + intros ([ref targets] & -> & Hin). simpl.
      rewrite range_order_perm in Hin. apply elem_of_map_to_list in Hin. by exists targets.
    + intros (targets & Hm & Hd). exists (cdx.Ref rec, targets). split.
      * destruct rec; simpl in *. by rewrite Hd.
      * rewrite range_order_perm. by apply elem_of_map_to_list.
  - apply dependencyMapToStructSlice_NoDup.
  - unfold dependencyMapToStructSlice.
    by rewrite length_fmap, range_order_perm, length_map_to_list.
Qed.

Lemma unionRecord_absent this o :
  cdx.Ref o ∉ refsOf this -> unionRecord this o = this ++ [o].
Proof.
  intros Hi%indexOf_None_iff. pose proof (unionRecord_indexOf this o) as Hu.
  by rewrite Hi in Hu.
Qed.

Lemma refsOf_unionRecord_present this o :
  cdx.Ref o ∈ refsOf this -> refsOf (unionRecord this o) = refsOf this.
Proof.
  unfold refsOf. induction this as [|rec rest IH]; simpl.
  - by intros Hin%elem_of_nil.
  - case_bool_decide as E; simpl; [done|].
    intros [Hin|Hin]%elem_of_cons; [congruence|]. by rewrite IH.
Qed.

Lemma unionRecord_app_present base tail o :
  cdx.Ref o ∈ refsOf base -> unionRecord (base ++ tail) o = unionRecord base o ++ tail.
Proof.
  unfold refsOf. induction base as [|rec rest IH]; simpl.
  - by intros Hin%elem_of_nil.
  - case_bool_decide as E; simpl; [done|].
    intros [Hin|Hin]%elem_of_cons; [congruence|]. by rewrite IH.
Qed.

Lemma refsOf_updateRecord this o : refsOf (updateRecord this o) = refsOf this.
Proof.
  unfold updateRecord. case_bool_decide; [|done]. by apply refsOf_unionRecord_present.
Qed.

Lemma refsOf_updatePart this other : refsOf (updatePart this other) = refsOf this.
Proof.
  unfold updatePart. revert this. induction other as [|o rest IH]; intros this; simpl; [done|].
  by rewrite IH, refsOf_updateRecord.
Qed.

Lemma appendPart_refsOf this this' other :
  refsOf this' = refsOf this -> appendPart this' other = appendPart this other.
Proof. unfold appendPart. by intros ->. Qed.

(** A merge is the update of the records [this] has, followed by the
    records it does not have. *)
Lemma unionRecords_parts base tail other :
  NoDup (refsOf other) -> (forall r, r ∈ refsOf other -> r ∉ refsOf tail) ->
  unionRecords (base ++ tail) other
  = updatePart base other ++ tail ++ appendPart base other.
Proof.
  unfold unionRecords, updatePart. revert base tail.
  induction other as [|o rest IH]; intros base tail Hnd Htail; simpl.
  - unfold appendPart. simpl. by rewrite app_nil_r.
  - apply NoDup_cons in Hnd as [Ho Hnd].
    assert (cdx.Ref o ∉ refsOf tail) as Hot by (apply Htail; by left).
    unfold updateRecord at 2. case_bool_decide as Hbase.
    + rewrite unionRecord_app_present by done.
      rewrite IH; [|done|intros r Hr; apply Htail; by right].
      rewrite (appendPart_refsOf base) by (by apply refsOf_unionRecord_present).
      unfold appendPart at 2. by rewrite filter_cons_False by (by intros Hn).
    + rewrite unionRecord_absent by
        (unfold refsOf in *; rewrite map_app, not_elem_of_app; done).
      rewrite <- app_assoc. rewrite IH; [|done|].
      * unfold appendPart at 2. rewrite filter_cons_True by done.
        by rewrite <- !app_assoc.
      * intros r Hr. unfold refsOf. rewrite map_app, not_elem_of_app. split.
        -- apply Htail. by right.
        -- simpl. rewrite list_elem_of_singleton. by intros ->.
Qed.

Lemma unionRecord_comm this o1 o2 :
  cdx.Ref o1 ≠ cdx.Ref o2 -> cdx.Ref o1 ∈ refsOf this -> cdx.Ref o2 ∈ refsOf this ->
  unionRecord (unionRecord this o1) o2 = unionRecord (unionRecord this o2) o1.
Proof.
  intros Hne. unfold refsOf. induction this as [|rec rest IH]; simpl.
  - by intros Hin%elem_of_nil.
  - intros H1 H2. case_bool_decide as E1; case_bool_decide as E2; simpl.
    + congruence.
    + rewrite bool_decide_eq_false_2 by done. by rewrite bool_decide_eq_true_2.
    + rewrite bool_decide_eq_true_2 by done. by rewrite bool_decide_eq_false_2.
    + rewrite !bool_decide_eq_false_2 by done. f_equal. apply IH.
      * apply elem_of_cons in H1 as [|]; [congruence | done].
      * apply elem_of_cons in H2 as [|]; [congruence | done].
Qed.

Lemma updateRecord_comm this o1 o2 :
  cdx.Ref o1 ≠ cdx.Ref o2 ->
  updateRecord (updateRecord this o1) o2 = updateRecord (updateRecord this o2) o1.
Proof.
  intros Hne. unfold updateRecord at 1 3.
  rewrite !refsOf_updateRecord. unfold updateRecord.
  repeat case_bool_decide; try done. by apply unionRecord_comm.
Qed.

Lemma updatePart_Permutation other1 other2 :
  other1 ≡ₚ other2 -> NoDup (refsOf other1) ->
  forall this, updatePart this other1 = updatePart this other2.
Proof.
  unfold updatePart. induction 1 as [|x l1 l2 Hp IH|x y l|l1 l2 l3 Hp1 IH1 Hp2 IH2];
    intros Hnd this; simpl.
  - done.
  - apply NoDup_cons in Hnd as [_ Hnd]. by apply IH.
  - apply NoDup_cons in Hnd as [Hy _]. rewrite updateRecord_comm; [done|].
    intros Heq. apply Hy. simpl. rewrite Heq. by left.
  - rewrite IH1 by done. apply IH2. unfold refsOf in *. by rewrite <- Hp1.
Qed.

(** Merging the same records in another order changes only the order of
    the records that are appended. *)
Lemma unionRecords_Permutation this other1 other2 :
  other1 ≡ₚ other2 -> NoDup (refsOf other1) ->
  exists kept new1 new2,
    unionRecords this other1 = kept ++ new1 /\ unionRecords this other2 = kept ++ new2 /\
    length kept = length this /\ new1 ≡ₚ new2.
Proof.
  intros Hp Hnd.
  assert (NoDup (refsOf other2)) as Hnd2 by (unfold refsOf in *; by rewrite <- Hp).
  exists (updatePart this other1), (appendPart this other1), (appendPart this other2).
  pose proof (unionRecords_parts this [] other1 Hnd) as H1.
  pose proof (unionRecords_parts this [] other2 Hnd2) as H2.
  rewrite app_nil_r in H1, H2. simpl in H1, H2.
  rewrite H1, H2 by (intros r _; apply not_elem_of_nil).
  split; [done|]. split; [by rewrite (updatePart_Permutation _ _ Hp Hnd)|]. split.
  - pose proof (refsOf_updatePart this other1) as Hr. unfold refsOf in Hr.
    apply (f_equal length) in Hr. by rewrite !length_map in Hr.
  - unfold appendPart. by rewrite Hp.
Qed.

Lemma addToBOM_sameUpToNewRecords ρ1 ρ2 bom components dependencyMap :
  Forall depsSet (dependenciesOf bom) ->
  exists bom1 bom2,
    addToBOM ρ1 bom components dependencyMap = Returns bom1 /\
    addToBOM ρ2 bom components dependencyMap = Returns bom2 /\
    sameUpToNewRecords (length (dependenciesOf bom)) bom1 bom2.
Proof.
  intros Hdeps. unfold addToBOM. fold (dependenciesOf bom).
  rewrite !MergeDependencyStructSlice_unionRecords
    by (done || apply dependencyMapToStructSlice_depsSet).
  simpl. do 2 eexists. split; [done|]. split; [done|].
  split; [done|]. split; [done|]. simpl.
  destruct (unionRecords_Permutation (dependenciesOf bom)
              (dependencyMapToStructSlice ρ1 dependencyMap)
              (dependencyMapToStructSlice ρ2 dependencyMap))
    as (kept & new1 & new2 & -> & -> & Hlen & Hperm).
  - apply dependencyMapToStructSlice_perm.
  - apply dependencyMapToStructSlice_NoDup.
  - by exists kept, new1, new2.
Qed.

Section RangeOrder.
Context `{PemDecoder} {Certificate CertWithMetadata DAG Rand : Type}.
Context `{!CertificateParsers Certificate CertWithMetadata}.
Context `{!BomDAG CertWithMetadata DAG Rand}.

(** X9: for a document whose dependency records have their pointers set,
    two runs of [UpdateBOM] over the same input that differ only in the
    order in which [range] visits the dependency map end the same way: with
    the same panic, or the same error, document and log, or with success,
    the same log, and documents with the same components whose dependency
    records are the same up to the order of the records appended after the
    existing ones. *)
Theorem UpdateBOM_same_up_to_range_order (ρ1 ρ2 : MapRangeOrder) (fs : Filesystem)
  (bom : BOM) (lg : log) :
  Forall depsSet (dependenciesOf bom) ->
  sameRun (length (dependenciesOf bom)) (UpdateBOM ρ1 fs bom lg) (UpdateBOM ρ2 fs bom lg).
Proof.
  intros Hdeps. unfold UpdateBOM.
  destruct (WalkDir fs (analyseFile fs) [] lg) as [[[err certificates] lg1]|p]; simpl; [|done].
  destruct err as [e|]; simpl; [done|].
  destruct (mergeCertificates certificates NewBomDAG (rand_NewSource uuidSeed)
              (slog_Info searchingDone lg1)) as [[[err dag'] rng'] lg3].
  destruct err as [e|]; simpl; [done|].
  destruct (GetCDXComponents dag') as [[components dependencyMap] err].
  destruct err as [e|]; simpl; [done|].
  destruct (addToBOM_sameUpToNewRecords ρ1 ρ2 bom components dependencyMap Hdeps)
    as (bom1 & bom2 & -> & -> & Hsame).
  simpl. by split.
Qed.

End RangeOrder.

Lemma UpdateBOM_same_up_to_range_order_witness :
  sameRun (length (dependenciesOf existingBOM))
    (UpdateBOM forwardOrder twoCertificateFiles existingBOM [])
    (UpdateBOM backwardOrder twoCertificateFiles existingBOM []).
Proof.
  apply (UpdateBOM_same_up_to_range_order forwardOrder backwardOrder twoCertificateFiles
           existingBOM []).
  repeat constructor; eexists; reflexivity.
Defined.

(** ** More on the reference-blind equality *)

Lemma agreeOnEight_refl a : agreeOnEight a a.
Proof. by constructor. Qed.

Lemma agreeOnEight_sym a b : agreeOnEight a b -> agreeOnEight b a.
Proof. intros []. by constructor. Qed.

Lemma agreeOnEight_trans a b c : agreeOnEight a b -> agreeOnEight b c -> agreeOnEight a c.
Proof. intros [] []. constructor; congruence. Qed.

(** X10: on algorithm components whose pointers are set,
    [strippedAlgorithmEquals] is an equivalence: every component equals
    itself, the result does not depend on the order of the arguments, and
    two components equal to a third are equal to each other. *)
Theorem strippedAlgorithmEquals_equivalence (a b c : cdx.Component) :
  isAlgorithm a = true -> algorithmFieldsSet a = true ->
  isAlgorithm b = true -> algorithmFieldsSet b = true ->
  isAlgorithm c = true -> algorithmFieldsSet c = true ->
  strippedAlgorithmEquals a a = Returns true /\
  strippedAlgorithmEquals a b = strippedAlgorithmEquals b a /\
  (strippedAlgorithmEquals a b = Returns true ->
   strippedAlgorithmEquals b c = Returns true ->
   strippedAlgorithmEquals a c = Returns true).
Proof.
  intros Ha Hfa Hb Hfb Hc Hfc.
  destruct (strippedAlgorithmEquals_returns a a Ha Ha Hfa Hfa) as (raa & Eaa & Haa).
  destruct (strippedAlgorithmEquals_returns a b Ha Hb Hfa Hfb) as (rab & Eab & Hab).
  destruct (strippedAlgorithmEquals_returns b a Hb Ha Hfb Hfa) as (rba & Eba & Hba).
  destruct (strippedAlgorithmEquals_returns b c Hb Hc Hfb Hfc) as (rbc & Ebc & Hbc).
  destruct (strippedAlgorithmEquals_returns a c Ha Hc Hfa Hfc) as (rac & Eac & Hac).
  rewrite Eaa, Eab, Eba, Ebc, Eac. split; [|split].
  - f_equal. apply Haa, agreeOnEight_refl.
  - f_equal. destruct rab, rba; try done.
    + symmetry. apply Hba, agreeOnEight_sym, Hab. done.
    + apply Hab, agreeOnEight_sym, Hba. done.
  - intros [= ->] [= ->]. f_equal. apply Hac.
    eapply agreeOnEight_trans; [by apply Hab | by apply Hbc].
Qed.

Lemma strippedAlgorithmEquals_equivalence_witness :
  strippedAlgorithmEquals (sha256WithRSA "1") (sha256WithRSA "1") = Returns true /\
  strippedAlgorithmEquals (sha256WithRSA "1") (sha256WithRSA "2")
    = strippedAlgorithmEquals (sha256WithRSA "2") (sha256WithRSA "1") /\
  (strippedAlgorithmEquals (sha256WithRSA "1") (sha256WithRSA "2") = Returns true ->
   strippedAlgorithmEquals (sha256WithRSA "2") (sha256WithRSA "3") = Returns true ->
   strippedAlgorithmEquals (sha256WithRSA "1") (sha256WithRSA "3") = Returns true).
Proof.
  apply (strippedAlgorithmEquals_equivalence (sha256WithRSA "1") (sha256WithRSA "2")
           (sha256WithRSA "3")); reflexivity.
Defined.

(** X11: two algorithm components with different names are judged different
    without their [AlgorithmProperties] being looked at: the comparison
    returns [false] even when those pointers are nil. *)
Theorem strippedAlgorithmEquals_names_differ (a b : cdx.Component) :
  isAlgorithm a = true -> isAlgorithm b = true -> cdx.Name a ≠ cdx.Name b ->
  strippedAlgorithmEquals a b = Returns false.
Proof.
  intros Ha%isAlgorithm_assetType Hb%isAlgorithm_assetType Hne.
  unfold strippedAlgorithmEquals. rewrite Ha; simpl. rewrite Hb; simpl.
  unfold str_eq. by rewrite bool_decide_eq_false_2.
Qed.

Lemma strippedAlgorithmEquals_names_differ_witness :
  strippedAlgorithmEquals (sha256WithRSA_noLevels "1")
    (setCryptoProperties
       (Some {| cdx.AssetType := cdx.CryptoAssetTypeAlgorithm;
                cdx.AlgorithmProperties := None;
                cdx.CertificatePropertiesOf := None;
                cdx.RelatedCryptoMaterialPropertiesOf := None; cdx.OID := "" |})
       (certificateComponent "2" "" "")) = Returns false.
Proof.
  apply strippedAlgorithmEquals_names_differ; [reflexivity | reflexivity | discriminate].
Defined.

Lemma assetType_isAlgorithm x t :
  assetType x = Returns t ->
  isAlgorithm x = str_eq t cdx.CryptoAssetTypeAlgorithm /\
  exists cp, cdx.CryptoPropertiesOf x = Some cp.
Proof.
  unfold assetType, isAlgorithm. destruct (cdx.CryptoPropertiesOf x) as [cp|]; simpl; [|done].
  intros [= <-]. split; [done | by eexists].
Qed.

Lemma strippedAlgorithmContains_loop_returns comp lst found comp2 :
  strippedAlgorithmContains_loop comp lst = Returns (found, comp2) ->
  if found then
    exists before after, lst = before ++ comp2 :: after /\
      matches comp comp2 /\ Forall (differs comp) before
  else comp2 = cdx.zeroComponent /\ Forall (differs comp) lst.
Proof.
  induction lst as [|x rest IH]; simpl.
  - intros [= <- <-]. by split.
  - destruct (assetType x) as [t|] eqn:Ht; simpl; [|done].
    destruct (assetType_isAlgorithm _ _ Ht) as [Halg [cp Hcp]].
    destruct (str_eq t cdx.CryptoAssetTypeAlgorithm) eqn:E.
    + destruct (strippedAlgorithmEquals comp x) as [[]|] eqn:Heq; simpl; [| |done].
      * intros [= <- <-]. exists [], rest. by repeat split.
      * intros Hrest. specialize (IH Hrest). destruct found.
        -- destruct IH as (before & after & -> & Hm & Hd).
           exists (x :: before), after. split; [done|]. split; [done|].
           constructor; [by right | done].
        -- destruct IH as [-> Hd]. split; [done|]. constructor; [by right | done].
    + intros Hrest. specialize (IH Hrest). destruct found.
      * destruct IH as (before & after & -> & Hm & Hd).
        exists (x :: before), after. split; [done|]. split; [done|].
        constructor; [left; by exists cp | done].
      * destruct IH as [-> Hd]. split; [done|]. constructor; [left; by exists cp | done].
Qed.

(** X12: when [strippedAlgorithmContains] returns, the probe is an algorithm
    component, and the result is either [true] with the first element of
    the list that is an algorithm judged equal to the probe (every element
    before it being of another type or judged different), or [false] with
    the zero component, every element of the list being of another type or
    judged different. *)
Theorem strippedAlgorithmContains_first_match (comp : cdx.Component)
  (lst : list cdx.Component) (found : bool) (comp2 : cdx.Component) :
  strippedAlgorithmContains comp lst = Returns (found, comp2) ->
  isAlgorithm comp = true /\
  if found then
    exists before after, lst = before ++ comp2 :: after /\
      matches comp comp2 /\ Forall (differs comp) before
  else comp2 = cdx.zeroComponent /\ Forall (differs comp) lst.
Proof.
  unfold strippedAlgorithmContains.
  destruct (assetType comp) as [t|] eqn:Ht; simpl; [|done].
  destruct (assetType_isAlgorithm _ _ Ht) as [Halg _].
  destruct (str_eq t cdx.CryptoAssetTypeAlgorithm) eqn:E; simpl; [|done].
  intros Hloop. split; [done|]. by apply strippedAlgorithmContains_loop_returns.
Qed.

Lemma strippedAlgorithmContains_first_match_witness :
  isAlgorithm (sha256WithRSA "new") = true /\
  exists before after,
    [certificateComponent "c" "s" "k"; sha256WithRSA "old-1"; sha256WithRSA "old-2"]
      = before ++ sha256WithRSA "old-1" :: after /\
    matches (sha256WithRSA "new") (sha256WithRSA "old-1") /\
    Forall (differs (sha256WithRSA "new")) before.
Proof.
  apply (strippedAlgorithmContains_first_match (sha256WithRSA "new")
    [certificateComponent "c" "s" "k"; sha256WithRSA "old-1"; sha256WithRSA "old-2"]
    true (sha256WithRSA "old-1")).
  reflexivity.
Defined.

(** X13: on a probe that is an algorithm component with its pointers set
    and a list whose components all have their [CryptoProperties] set and,
    when they are algorithms, their pointers too, [strippedAlgorithmContains]
    does not panic. *)
Theorem strippedAlgorithmContains_returns (comp : cdx.Component) (lst : list cdx.Component) :
  isAlgorithm comp = true -> algorithmFieldsSet comp = true -> Forall scannable lst ->
  exists found comp2, strippedAlgorithmContains comp lst = Returns (found, comp2).
Proof.
  intros Hc Hfc Hlst. unfold strippedAlgorithmContains.
  rewrite (isAlgorithm_assetType _ Hc); simpl.
  induction Hlst as [|x rest [[cp Hcp] Hx] Hrest IH]; simpl; [by eexists _, _|].
  unfold assetType. rewrite Hcp; simpl.
  destruct (str_eq (cdx.AssetType cp) cdx.CryptoAssetTypeAlgorithm) eqn:E; [|done].
  assert (isAlgorithm x = true) as Hax by (unfold isAlgorithm; by rewrite Hcp).
  destruct (strippedAlgorithmEquals_returns comp x Hc Hax Hfc (Hx Hax)) as ([] & -> & _);
    simpl; [by eexists _, _ | done].
Qed.

Lemma strippedAlgorithmContains_returns_witness :
  exists found comp2,
    strippedAlgorithmContains (sha256WithRSA "new")
      [certificateComponent "c" "s" "k"; sha256WithRSA "old-1"] = Returns (found, comp2).
Proof.
  apply (strippedAlgorithmContains_returns (sha256WithRSA "new")
    [certificateComponent "c" "s" "k"; sha256WithRSA "old-1"]); [reflexivity..|].
  repeat constructor; try (by eexists); try reflexivity. discriminate.
Defined.

(** ** More on [replaceBomRefUsages] *)

Lemma str_eq_false x y : str_eq x y = false <-> x ≠ y.
Proof. unfold str_eq. apply bool_decide_eq_false. Qed.

Lemma replaceBomRefUsages_returns oldRef newRef components :
  replaceBomRefUsages oldRef newRef (Some components)
  = Returns (map (fun elem => setCryptoProperties
       (replaceInCryptoProperties oldRef newRef <$> cdx.CryptoPropertiesOf elem) elem)
       components).
Proof.
  unfold replaceBomRefUsages. simpl. f_equal. apply map_ext. intros elem.
  apply replaceBomRefUsages_iteration_element.
Qed.

Lemma replaceInCryptoProperties_frame oldRef newRef c :
  let c' := setCryptoProperties
              (replaceInCryptoProperties oldRef newRef <$> cdx.CryptoPropertiesOf c) c in
  setCryptoProperties None c' = setCryptoProperties None c /\
  descriptiveFields c' = descriptiveFields c /\
  Forall2 (rewritten oldRef newRef) (referenceFields c) (referenceFields c') /\
  withoutReferences c' = withoutReferences c.
Proof.
  destruct c as [ref ty name ver desc [[t ap [[sn iss nb na sig key fmt ext]|]
    [[mt mi ms alg mv msz]|] oid]|]];
    unfold descriptiveFields, referenceFields, replaceInCryptoProperties, withoutReferences;
    simpl;
    repeat match goal with
    | |- context [str_eq ?x ?y] =>
        let E := fresh "E" in destruct (str_eq x y) eqn:E;
        [apply str_eq_true in E | ]; simpl
    end;
    (split; [reflexivity|]); (split; [reflexivity|]); (split; [|reflexivity]);
    repeat match goal with |- Forall2 _ _ _ => constructor end;
    unfold rewritten; simpl;
    first [left; reflexivity | right; split; [assumption | reflexivity]].
Qed.

(** X14: when [replaceBomRefUsages] returns, the list has the same length;
    every component keeps its own [BOMRef] and every field other than the
    three reference fields: the fields outside the [CryptoProperties], the
    asset type, the algorithm properties and the OID inside them, and every
    other field of the [CertificateProperties] and of the
    [RelatedCryptoMaterialProperties] (the component with its three
    references cleared is the same before and after); and each of the
    three reference fields is unchanged or was [oldRef] and is now
    [newRef]. *)
Theorem replaceBomRefUsages_frame (oldRef newRef : cdx.BOMReference)
  (components result : list cdx.Component) :
  replaceBomRefUsages oldRef newRef (Some components) = Returns result ->
  length result = length components /\
  forall i c, components !! i = Some c ->
    exists c', result !! i = Some c' /\
      cdx.BOMRef c' = cdx.BOMRef c /\
      setCryptoProperties None c' = setCryptoProperties None c /\
      descriptiveFields c' = descriptiveFields c /\
      Forall2 (rewritten oldRef newRef) (referenceFields c) (referenceFields c') /\
      withoutReferences c' = withoutReferences c.
Proof.
  rewrite replaceBomRefUsages_returns. intros [= <-]. split; [by rewrite length_map|].
  intros i c Hc. eexists. split.
  - change map with (@fmap list _) at 1. rewrite list_lookup_fmap, Hc. done.
  - split; [done|]. apply replaceInCryptoProperties_frame.
Qed.

Lemma replaceBomRefUsages_frame_witness :
  length [certificateComponent "cert-1" "canon" "dup"; sha256WithRSA "dup"]
    = length selfSignedWithDuplicate /\
  forall i c, selfSignedWithDuplicate !! i = Some c ->
    exists c',
      [certificateComponent "cert-1" "canon" "dup"; sha256WithRSA "dup"] !! i = Some c' /\
      cdx.BOMRef c' = cdx.BOMRef c /\
      setCryptoProperties None c' = setCryptoProperties None c /\
      descriptiveFields c' = descriptiveFields c /\
      Forall2 (rewritten "dup" "canon") (referenceFields c) (referenceFields c') /\
      withoutReferences c' = withoutReferences c.
Proof.
  apply (replaceBomRefUsages_frame "dup" "canon" selfSignedWithDuplicate).
  reflexivity.
Defined.

Lemma replaceInCryptoProperties_id oldRef newRef c :
  oldRef ∉ visitedReferences c \/ oldRef = newRef ->
  setCryptoProperties
    (replaceInCryptoProperties oldRef newRef <$> cdx.CryptoPropertiesOf c) c = c.
Proof.
  destruct c as [ref ty name ver desc [[t ap [[sn iss nb na sig key fmt ext]|]
    [[mt mi ms alg mv msz]|] oid]|]];
    unfold visitedReferences, replaceInCryptoProperties; simpl; try done;
    intros Hno;
    repeat match goal with
    | |- context [str_eq ?x ?y] =>
        let E := fresh "E" in destruct (str_eq x y) eqn:E;
        [apply str_eq_true in E | ]; simpl
    end; try done;
    destruct Hno as [Hno | ->]; subst; try done;
    exfalso; apply Hno; rewrite ?elem_of_cons; auto.
Qed.

(** X15: [replaceBomRefUsages] returns the list unchanged when [oldRef] is
    none of the references it looks at (the two references of certificate
    properties, and the algorithm reference of related material of a
    component without certificate properties), whatever the [BOMRef]s of
    the components are, and when [newRef] is [oldRef]; on a nil list pointer
    it panics. *)
Theorem replaceBomRefUsages_no_op (oldRef newRef : cdx.BOMReference)
  (components : list cdx.Component) :
  ((forall c, c ∈ components -> oldRef ∉ visitedReferences c) \/ oldRef = newRef ->
   replaceBomRefUsages oldRef newRef (Some components) = Returns components) /\
  replaceBomRefUsages oldRef newRef None = Panics NilDereference.
Proof.
  split; [|done]. intros Hno. rewrite replaceBomRefUsages_returns. f_equal.
  rewrite <- (map_id components) at 2. apply map_ext_in. intros c Hc%list_elem_of_In.
  apply replaceInCryptoProperties_id. destruct Hno as [Hno|Heq]; [left; by apply Hno | by right].
Qed.

Lemma replaceBomRefUsages_no_op_witness :
  replaceBomRefUsages "n2" "n9" (Some [certificateComponent "n2" "n3" "n4"; sha256WithRSA "n2"])
  = Returns [certificateComponent "n2" "n3" "n4"; sha256WithRSA "n2"].
Proof.
  apply (replaceBomRefUsages_no_op "n2" "n9"
           [certificateComponent "n2" "n3" "n4"; sha256WithRSA "n2"]).
  left. apply Forall_forall. apply (bool_decide_unpack _). vm_compute. exact I.
Defined.

Lemma replaceInCryptoProperties_twice oldRef newRef c :
  oldRef ≠ newRef ->
  let once c := setCryptoProperties
                  (replaceInCryptoProperties oldRef newRef <$> cdx.CryptoPropertiesOf c) c in
  once (once (once c)) = once (once c) /\ oldRef ∉ visitedReferences (once (once c)).
Proof.
  intros Hne.
  destruct c as [ref ty name ver desc [[t ap [[sn iss nb na sig key fmt ext]|]
    [[mt mi ms alg mv msz]|] oid]|]];
    unfold visitedReferences, replaceInCryptoProperties; simpl;
    repeat match goal with
    | |- context [str_eq ?x ?y] =>
        let E := fresh "E" in destruct (str_eq x y) eqn:E;
        [apply str_eq_true in E | apply str_eq_false in E]; simpl
    end;
    subst; try congruence;
    (split; [done|]);
    rewrite ?elem_of_cons, ?elem_of_nil; intros Hin;
    repeat destruct Hin as [Hin|Hin]; congruence.
Qed.

(** X16: for [oldRef] different from [newRef], running
    [replaceBomRefUsages] twice reaches a list that a further run leaves
    unchanged, and in which [oldRef] is none of the references the function
    looks at: neither reference of any certificate properties, nor the
    algorithm reference of related material of a component without
    certificate properties. *)
Theorem replaceBomRefUsages_twice (oldRef newRef : cdx.BOMReference)
  (components once twice : list cdx.Component) :
  oldRef ≠ newRef ->
  replaceBomRefUsages oldRef newRef (Some components) = Returns once ->
  replaceBomRefUsages oldRef newRef (Some once) = Returns twice ->
  replaceBomRefUsages oldRef newRef (Some twice) = Returns twice /\
  forall c, c ∈ twice -> oldRef ∉ visitedReferences c.
Proof.
  intros Hne. rewrite !replaceBomRefUsages_returns. intros [= <-] [= <-].
  rewrite !map_map. split.
  - f_equal. apply map_ext. intros c. by apply replaceInCryptoProperties_twice.
  - intros c (c0 & <- & _)%list_elem_of_In%in_map_iff.
    by apply replaceInCryptoProperties_twice.
Qed.

Lemma replaceBomRefUsages_twice_witness :
  replaceBomRefUsages "dup" "canon"
    (Some [certificateComponent "cert-1" "canon" "canon"; keyComponent "key-1" "canon"])
  = Returns [certificateComponent "cert-1" "canon" "canon"; keyComponent "key-1" "canon"] /\
  forall c, c ∈ [certificateComponent "cert-1" "canon" "canon"; keyComponent "key-1" "canon"] ->
    "dup" ∉ visitedReferences c.
Proof.
  apply (replaceBomRefUsages_twice "dup" "canon"
    [certificateComponent "cert-1" "dup" "dup"; keyComponent "key-1" "dup"]
    [certificateComponent "cert-1" "canon" "dup"; keyComponent "key-1" "canon"]);
    [discriminate | reflexivity | reflexivity].
Defined.

(** ** More on the walk *)

Lemma walkDirFunc_error {S} (fn : FilePathAnalysisFunc S) entry st lg e st' lg' :
  walkDirFunc fn entry st lg = Returns (Some e, st', lg') ->
  walkError entry e \/ errors_Is (Some e) ErrParsingFailedAlthoughChecked = false.
Proof.
  unfold walkDirFunc, walkError.
  destruct (entry_err entry) as [e0|]; [intros [= <- <- <-]; left; by left|].
  destruct (entry_IsDir entry); [done|].
  destruct (entry_Rel entry) as [relativePath [e0|]]; [intros [= <- <- <-]; left; by right|].
  destruct (fn relativePath st lg) as [[[err st1] lg1]|]; simpl; [|done].
  destruct (errors_Is err ErrParsingFailedAlthoughChecked) eqn:His; [done|].
  intros [= -> <- <-]. by right.
Qed.

Lemma walkEntries_error {S} (fn : FilePathAnalysisFunc S) skip entries st lg e st' lg' :
  walkEntries (walkDirFunc fn) skip entries st lg = Returns (Some e, st', lg') ->
  (exists entry, entry ∈ entries /\ walkError entry e) \/
  errors_Is (Some e) ErrParsingFailedAlthoughChecked = false.
Proof.
  revert skip st lg.
  induction entries as [|entry rest IH]; intros skip st lg; cbn [walkEntries]; [done|].
  assert (forall skip' st1 lg1,
            walkEntries (walkDirFunc fn) skip' rest st1 lg1 = Returns (Some e, st', lg') ->
            (exists entry', entry' ∈ entry :: rest /\ walkError entry' e) \/
            errors_Is (Some e) ErrParsingFailedAlthoughChecked = false) as Hrest.
  { intros skip' st1 lg1 [(entry' & Hin & Hw)|His]%IH; [|by right].
    left. exists entry'. split; [by right | done]. }
  destruct (skipped skip entry); [apply Hrest|].
  destruct (walkDirFunc fn entry st lg) as [[[err st1] lg1]|] eqn:Hstep; simpl; [|done].
  destruct err as [e0|]; [|apply Hrest].
  case_bool_decide; [apply Hrest|]. case_bool_decide; [done|].
  intros [= <- <- <-]. apply walkDirFunc_error in Hstep as [Hw|His]; [|by right].
  left. exists entry. split; [by left | done].
Qed.

(** X17: an error returned by [WalkDir] either was raised by the directory
    walk itself on some entry (an error of the walk or of the relative
    path), or is not the [ErrParsingFailedAlthoughChecked] condition: an
    error of that kind returned by the per-file function never reaches the
    caller. *)
Theorem WalkDir_returns_no_soft_error (S : Type) (fs : Filesystem)
  (fn : FilePathAnalysisFunc S) (st st' : S) (lg lg' : log) (e : error) :
  WalkDir fs fn st lg = Returns (Some e, st', lg') ->
  (exists entry, entry ∈ fs_entries fs /\ walkError entry e) \/
  errors_Is (Some e) ErrParsingFailedAlthoughChecked = false.
Proof. apply walkEntries_error. Qed.

Lemma WalkDir_returns_no_soft_error_witness :
  (exists entry, entry ∈ fs_entries unreadableFile /\ walkError entry notExist) \/
  errors_Is (Some notExist) ErrParsingFailedAlthoughChecked = false.
Proof.
  apply (WalkDir_returns_no_soft_error (list toyCertWithMetadata) unreadableFile
           (analyseFile unreadableFile) [] [] [] []).
  reflexivity.
Defined.

Section WalkMore.
Context `{PemDecoder} {Certificate CertWithMetadata : Type}.
Context `{!CertificateParsers Certificate CertWithMetadata}.

Lemma parsex509CertFromPath_log raw path lg :
  snd (parsex509CertFromPath raw path lg) = lg ++ unsupportedWarnings raw.
Proof.
  unfold parsex509CertFromPath. rewrite collectBlocks_certificateBlocks. simpl.
  by destruct (certificateBlocks raw).
Qed.

Lemma analyseFile_grows fs path certificates lg err certificates' lg' :
  analyseFile fs path certificates lg = Returns (err, certificates', lg') ->
  certificates `prefix_of` certificates' /\ lg `prefix_of` lg'.
Proof.
  unfold analyseFile. repeat case_bool_decide.
  - destruct (fs_ReadFile fs path) as [raw [e|]]; [by intros [= <- <- <-]|].
    pose proof (parsex509CertFromPath_log raw path lg) as Hlog.
    destruct (parsex509CertFromPath raw path lg) as [[certs [e|]] lg1]; simpl in Hlog;
      intros [= <- <- <-]; subst lg1; split; try done; by eexists.
  - destruct (fs_ReadFile fs path) as [raw [e|]]; [by intros [= <- <- <-]|].
    destruct (parsePKCS7FromPath raw path) as [[certs [e|]]|]; simpl; [| |done];
      intros [= <- <- <-]; split; try done; by eexists.
  - by intros [= <- <- <-].
Qed.

Lemma walkDirFunc_analyseFile_grows fs entry certificates lg err certificates' lg' :
  walkDirFunc (analyseFile fs) entry certificates lg = Returns (err, certificates', lg') ->
  certificates `prefix_of` certificates' /\ lg `prefix_of` lg'.
Proof.
  unfold walkDirFunc.
  destruct (entry_err entry) as [e0|]; [by intros [= <- <- <-]|].
  destruct (entry_IsDir entry); [by intros [= <- <- <-]|].
  destruct (entry_Rel entry) as [relativePath [e0|]]; [by intros [= <- <- <-]|].
  destruct (analyseFile fs relativePath certificates lg) as [[[err1 st1] lg1]|] eqn:Hfn;
    simpl; [|done].
  apply analyseFile_grows in Hfn as [Hc Hl].
  destruct (errors_Is err1 ErrParsingFailedAlthoughChecked); intros [= <- <- <-];
    (split; [done|]); [|done].
  etrans; [done|]. unfold slog_Warn. by eexists.
Qed.

Lemma walkEntries_analyseFile_grows fs skip entries certificates lg err certificates' lg' :
  walkEntries (walkDirFunc (analyseFile fs)) skip entries certificates lg
  = Returns (err, certificates', lg') ->
  certificates `prefix_of` certificates' /\ lg `prefix_of` lg'.
Proof.
  revert skip certificates lg.
  induction entries as [|entry rest IH]; intros skip certificates lg; cbn [walkEntries].
  - by intros [= <- <- <-].
  - destruct (skipped skip entry); [apply IH|].
    destruct (walkDirFunc (analyseFile fs) entry certificates lg)
      as [[[err1 st1] lg1]|] eqn:Hstep; simpl; [|done].
    apply walkDirFunc_analyseFile_grows in Hstep as [Hc Hl].
    assert (forall skip', walkEntries (walkDirFunc (analyseFile fs)) skip' rest st1 lg1
                          = Returns (err, certificates', lg') ->
                          certificates `prefix_of` certificates' /\ lg `prefix_of` lg') as Hrest.
    { intros skip' [Hc' Hl']%IH. split; by etrans. }
    destruct err1 as [e|]; [|apply Hrest].
    case_bool_decide; [apply Hrest|].
    case_bool_decide; by intros [= <- <- <-].
Qed.

Lemma WalkDir_analyseFile_grows fs certificates lg err certificates' lg' :
  WalkDir fs (analyseFile fs) certificates lg = Returns (err, certificates', lg') ->
  certificates `prefix_of` certificates' /\ lg `prefix_of` lg'.
Proof. apply walkEntries_analyseFile_grows. Qed.

(** X18: the walk of [UpdateBOM] only adds: when it returns, with or without
    an error, the certificates collected before are the first of the
    certificates collected, in their order, and the log entries written
    before are the first entries of the log. *)
Theorem WalkDir_only_adds (fs : Filesystem) (certificates certificates' : list CertWithMetadata)
  (lg lg' : log) (err : option error) :
  WalkDir fs (analyseFile fs) certificates lg = Returns (err, certificates', lg') ->
  certificates `prefix_of` certificates' /\ lg `prefix_of` lg'.
Proof. apply WalkDir_analyseFile_grows. Qed.

(** X19: a tree in which every entry is a directory or a file whose
    extension is in neither family is walked to the end without error and
    leaves the collected certificates and the log as they were, whatever
    reading the files would return: such files are neither read nor
    parsed. *)
Theorem WalkDir_ignores_other_files (fs : Filesystem) (certificates : list CertWithMetadata)
  (lg : log) :
  Forall ignoredEntry (fs_entries fs) ->
  WalkDir fs (analyseFile fs) certificates lg = Returns (None, certificates, lg).
Proof.
  unfold WalkDir, filepath_WalkDir. generalize (@None nat) as skip.
  generalize (fs_entries fs) as entries. intros entries skip Hign. revert skip.
  induction Hign as [|entry rest [Herr Hentry] Hrest IH]; intros skip;
    cbn [walkEntries]; [done|].
  destruct (skipped skip entry); [apply IH|].
  assert (walkDirFunc (analyseFile fs) entry certificates lg
          = Returns (None, certificates, lg)) as ->; [|apply IH].
  unfold walkDirFunc. rewrite Herr.
  destruct Hentry as [-> | (Hrel & Hc & Hp)]; [done|].
  destruct (entry_IsDir entry); [done|].
  destruct (entry_Rel entry) as [relativePath err]. simpl in *. subst err.
  unfold analyseFile. by rewrite !bool_decide_eq_false_2 by done.
Qed.

End WalkMore.

Lemma WalkDir_only_adds_witness :
  [("9"%byte, "old.pem")] `prefix_of` [("9"%byte, "old.pem"); ("1"%byte, "good.pem")] /\
  [] `prefix_of` [{| entryLevel := LevelWarn; entryMsg := skippedFile |}].
Proof.
  apply (WalkDir_only_adds brokenThenGood [("9"%byte, "old.pem")]
           [("9"%byte, "old.pem"); ("1"%byte, "good.pem")] []
           [{| entryLevel := LevelWarn; entryMsg := skippedFile |}] None).
  reflexivity.
Defined.

Lemma WalkDir_ignores_other_files_witness :
  WalkDir otherFiles (analyseFile otherFiles) [("9"%byte, "old.pem")] []
  = Returns (None, [("9"%byte, "old.pem")], []).
Proof.
  apply (WalkDir_ignores_other_files otherFiles [("9"%byte, "old.pem")] []).
  repeat match goal with |- Forall _ _ => constructor end.
  - split; [reflexivity | left; reflexivity].
  - split; [reflexivity | right].
    split; [reflexivity | split; apply (bool_decide_unpack _); vm_compute; exact I].
  - split; [reflexivity | right].
    split; [reflexivity | split; apply (bool_decide_unpack _); vm_compute; exact I].
Defined.

(** ** More on [UpdateBOM] *)

Section UpdateBOMMore.
Context `{PemDecoder} {Certificate CertWithMetadata DAG Rand : Type}.
Context `{!CertificateParsers Certificate CertWithMetadata}.
Context `{!BomDAG CertWithMetadata DAG Rand}.

Lemma mergeCertificate_log cert dag rng lg :
  match mergeCertificate cert dag rng lg with
  | inl (_, _, lg') => lg `prefix_of` lg'
  | inr (_, _, _, lg') => lg `prefix_of` lg'
  end.
Proof.
  unfold mergeCertificate.
  destruct (generateDAG cert rng) as [[certDAG err] rng1].
  destruct (errors_Is err errX509UnknownAlgorithm).
  - destruct (dag_Merge dag certDAG rng1) as [[dag' [e|]] rng2];
      unfold slog_Info, slog_Error; [rewrite <- app_assoc|]; by eexists.
  - destruct err as [e|]; [done|].
    destruct (dag_Merge dag certDAG rng1) as [[dag' [e|]] rng2];
      unfold slog_Error; [by eexists | done].
Qed.

Lemma mergeCertificates_log certificates dag rng lg err dag' rng' lg' :
  mergeCertificates certificates dag rng lg = (err, dag', rng', lg') -> lg `prefix_of` lg'.
Proof.
  revert dag rng lg. induction certificates as [|cert rest IH]; intros dag rng lg; simpl.
  - by intros [= _ _ _ <-].
  - pose proof (mergeCertificate_log cert dag rng lg) as Hstep.
    destruct (mergeCertificate cert dag rng lg) as [[[d r] l]|[[[e d] r] l]].
    + intros Hrest%IH. by etrans.
    + by intros [= _ _ _ <-].
Qed.

(** X20: the certificates of a list are merged in order until the first
    one that fails: the loop over a concatenation is the loop over the
    first list and, only when that one ends without error, the loop over
    the second list from the state it reached; after an error no further
    certificate is looked at. *)
Theorem mergeCertificates_app (certificates1 certificates2 : list CertWithMetadata)
  (dag : DAG) (rng : Rand) (lg : log) :
  mergeCertificates (certificates1 ++ certificates2) dag rng lg
  = match mergeCertificates certificates1 dag rng lg with
    | (None, dag', rng', lg') => mergeCertificates certificates2 dag' rng' lg'
    | (Some e, dag', rng', lg') => (Some e, dag', rng', lg')
    end.
Proof.
  revert dag rng lg. induction certificates1 as [|cert rest IH]; intros dag rng lg; simpl.
  - done.
  - destruct (mergeCertificate cert dag rng lg) as [[[d r] l]|[[[e d] r] l]]; [apply IH | done].
Qed.

(** X21: when [UpdateBOM] returns an error, the document it returns is the
    document it was given: nothing has been added to it. *)
Theorem UpdateBOM_error_leaves_document (ρ : MapRangeOrder) (fs : Filesystem) (bom bom' : BOM)
  (lg lg' : log) (e : error) :
  UpdateBOM ρ fs bom lg = Returns (Some e, bom', lg') -> bom' = bom.
Proof.
  unfold UpdateBOM.
  destruct (WalkDir fs (analyseFile fs) [] lg) as [[[err certificates] lg1]|p]; simpl; [|done].
  destruct err as [e1|]; [by intros [= _ <- _]|].
  destruct (mergeCertificates certificates NewBomDAG (rand_NewSource uuidSeed)
              (slog_Info searchingDone lg1)) as [[[err dag'] rng'] lg3].
  destruct err as [e1|]; [by intros [= _ <- _]|].
  destruct (GetCDXComponents dag') as [[components dependencyMap] err].
  destruct err as [e1|]; [by intros [= _ <- _]|].
  by destruct (addToBOM ρ bom components dependencyMap).
Qed.

(** X22: when [UpdateBOM] succeeds it has only appended: the serial number
    is unchanged, the components of the document are the first components
    of the result, in their order, every dependency record of the document
    is still at its position with its [Ref] and with its targets as the
    first targets of the record there, and the log entries written before
    are the first entries of the log. *)
Theorem UpdateBOM_appends (ρ : MapRangeOrder) (fs : Filesystem) (bom bom' : BOM)
  (lg lg' : log) :
  UpdateBOM ρ fs bom lg = Returns (None, bom', lg') ->
  SerialNumber bom' = SerialNumber bom /\
  is_Some (Components bom') /\ is_Some (BomDependencies bom') /\
  componentsOf bom `prefix_of` componentsOf bom' /\
  (forall i rec, dependenciesOf bom !! i = Some rec ->
     exists rec', dependenciesOf bom' !! i = Some rec' /\ cdx.Ref rec' = cdx.Ref rec /\
       targetsOf rec `prefix_of` targetsOf rec') /\
  lg `prefix_of` lg'.
Proof.
  unfold UpdateBOM.
  destruct (WalkDir fs (analyseFile fs) [] lg) as [[[err certificates] lg1]|p] eqn:Hwalk;
    simpl; [|done].
  destruct err as [e1|]; [done|].
  destruct (mergeCertificates certificates NewBomDAG (rand_NewSource uuidSeed)
              (slog_Info searchingDone lg1)) as [[[err dag'] rng'] lg3] eqn:Hloop.
  destruct err as [e1|]; [done|].
  destruct (GetCDXComponents dag') as [[components dependencyMap] err].
  destruct err as [e1|]; [done|].
  unfold addToBOM. fold (dependenciesOf bom). fold (componentsOf bom).
  destruct (MergeDependencyStructSlice (dependenciesOf bom)
              (dependencyMapToStructSlice ρ dependencyMap)) as [merged|] eqn:Hmerge;
    simpl; [|done].
  intros [= <- <-]. simpl. split; [done|]. split; [by eexists|]. split; [by eexists|].
  split; [by eexists|]. split.
  - apply MergeDependencyStructSlice_keepsRecords in Hmerge as (kept & added & -> & Hkept).
    intros i rec Hrec.
    destruct (Forall2_lookup_l _ _ _ _ _ Hkept Hrec) as (rec' & Hrec' & Href & Hpre).
    exists rec'. split; [|done].
    unfold dependenciesOf; simpl. by apply lookup_app_l_Some.
  - apply WalkDir_analyseFile_grows in Hwalk as [_ Hl1].
    apply mergeCertificates_log in Hloop.
    etrans; [done|]. etrans; [|done]. unfold slog_Info. by eexists.
Qed.

End UpdateBOMMore.

Lemma UpdateBOM_error_leaves_document_witness : emptyBOM = emptyBOM.
Proof.
  apply (UpdateBOM_error_leaves_document forwardOrder unreadableFile emptyBOM emptyBOM
           [] [] notExist).
  vm_compute. reflexivity.
Defined.

Lemma UpdateBOM_appends_witness :
  exists bom', UpdateBOM forwardOrder twoCertificateFiles existingBOM []
    = Returns (None, bom', [{| entryLevel := LevelInfo; entryMsg := searchingDone |}]) /\
  SerialNumber bom' = SerialNumber existingBOM /\
  is_Some (Components bom') /\ is_Some (BomDependencies bom') /\
  componentsOf existingBOM `prefix_of` componentsOf bom' /\
  (forall i rec, dependenciesOf existingBOM !! i = Some rec ->
     exists rec', dependenciesOf bom' !! i = Some rec' /\ cdx.Ref rec' = cdx.Ref rec /\
       targetsOf rec `prefix_of` targetsOf rec') /\
  [] `prefix_of` [{| entryLevel := LevelInfo; entryMsg := searchingDone |}].
Proof.
  eexists. split; [vm_compute; reflexivity|].
  apply (UpdateBOM_appends forwardOrder twoCertificateFiles existingBOM _ []
           [{| entryLevel := LevelInfo; entryMsg := searchingDone |}]).
  vm_compute. reflexivity.
Defined.

(** ** More on [parsePKCS7FromPath] and on [PlainFilesystem] *)

Section PKCS7More.
Context `{PemDecoder} {Certificate CertWithMetadata : Type}.
Context `{!CertificateParsers Certificate CertWithMetadata}.

Lemma certificatesWithMetadata_result certificates path acc certs err :
  certificatesWithMetadata certificates path acc = (certs, err) ->
  match err with
  | Some _ => certs = []
  | None => exists new, certs = acc ++ new /\
      Forall2 (fun cert certWithMetadata =>
        newX509CertificateWithMetadata cert path = (certWithMetadata, None)) certificates new
  end.
Proof.
  revert acc. induction certificates as [|cert rest IH]; intros acc; simpl.
  - intros [= <- <-]. exists []. split; [by rewrite app_nil_r | constructor].
  - destruct (newX509CertificateWithMetadata cert path) as [certWithMetadata [e|]] eqn:Hnew.
    + by intros [= <- <-].
    + intros Hrest. specialize (IH _ Hrest). destruct err as [e|]; [done|].
      destruct IH as (new & -> & Hall). exists (certWithMetadata :: new).
      split; [by rewrite <- app_assoc | by constructor].
Qed.

(** X23: when [parsePKCS7FromPath] returns an error it returns no
    certificate, also when some certificates of the container had been
    converted before the failure; when it returns without error, either
    the parsed object was nil and the list is empty, or the list holds one
    certificate with metadata for each certificate of the container, in the
    order of the container. *)
Theorem parsePKCS7FromPath_all_or_nothing (raw : bytes) (path : string)
  (certs : list CertWithMetadata) (err : option error) :
  parsePKCS7FromPath raw path = Returns (certs, err) ->
  exists block rest, pem_Decode raw = (Some block, rest) /\
    match err with
    | Some _ => certs = []
    | None =>
        (fst (pkcs7_Parse (BlockBytes block)) = None /\ certs = []) \/
        exists certificates,
          pkcs7_Parse (BlockBytes block) = (Some certificates, None) /\
          Forall2 (fun cert certWithMetadata =>
            newX509CertificateWithMetadata cert path = (certWithMetadata, None))
            certificates certs
    end.
Proof.
  unfold parsePKCS7FromPath.
  destruct (pem_Decode raw) as [[block|] rest]; simpl; [|done].
  intros Hret. exists block, rest. split; [done|].
  destruct (pkcs7_Parse (BlockBytes block)) as [[certificates|] [e|]]; simpl in *.
  - by injection Hret as <- <-.
  - injection Hret as Hloop. apply certificatesWithMetadata_result in Hloop.
    destruct err as [e|]; [done|]. destruct Hloop as (new & -> & Hall).
    right. by exists certificates.
  - by injection Hret as <- <-.
  - injection Hret as <- <-. by left.
Qed.

End PKCS7More.

Lemma parsePKCS7FromPath_all_or_nothing_witness :
  exists block rest, pem_Decode ["C"; "1"]%byte = (Some block, rest) /\
    ((fst (pkcs7_Parse (BlockBytes block)) = None /\ [("1"%byte, "bundle.p7b")] = []) \/
     exists certificates,
       pkcs7_Parse (BlockBytes block) = (Some certificates, None) /\
       Forall2 (fun cert certWithMetadata =>
         newX509CertificateWithMetadata cert "bundle.p7b" = (certWithMetadata, None))
         certificates [("1"%byte, "bundle.p7b")]).
Proof.
  apply (parsePKCS7FromPath_all_or_nothing ["C"; "1"]%byte "bundle.p7b"
           [("1"%byte, "bundle.p7b")] None).
  reflexivity.
Defined.

Lemma string_app_inv_head (p s1 s2 : string) :
  String.append p s1 = String.append p s2 -> s1 = s2.
Proof. induction p as [|c p IH]; simpl; [done|]. intros [= Hp]. by apply IH. Qed.

Lemma string_app_inv_tail (s1 s2 : string) (c : ascii) :
  String.append s1 (String c EmptyString) = String.append s2 (String c EmptyString) ->
  s1 = s2.
Proof.
  revert s2. induction s1 as [|a s1 IH]; intros [|b s2]; simpl; try done.
  - intros [= _ Hs]. by destruct s2.
  - intros [= _ Hs]. by destruct s1.
  - intros [= -> Hs]. f_equal. by apply IH.
Qed.

(** X24: the identifier of a plain filesystem determines its root path:
    two plain filesystems with the same identifier are the same. *)
Theorem GetIdentifier_unique (fs1 fs2 : PlainFilesystem) :
  GetIdentifier fs1 = GetIdentifier fs2 -> fs1 = fs2.
Proof.
  unfold GetIdentifier. intros Hid%string_app_inv_head%string_app_inv_tail.
  destruct fs1, fs2; simpl in *. by subst.
Qed.

Lemma GetIdentifier_unique_witness :
  NewPlainFilesystem "/srv/image" = NewPlainFilesystem "/srv/image".
Proof. apply GetIdentifier_unique. reflexivity. Defined.

Section Rescan.
Context `{PemDecoder} {Certificate CertWithMetadata DAG Rand : Type}.
Context `{!CertificateParsers Certificate CertWithMetadata}.
Context `{!BomDAG CertWithMetadata DAG Rand}.

Lemma addToBOM_again ρ1 ρ2 bom components dependencyMap :
  Forall depsSet (dependenciesOf bom) ->
  exists bom1 bom2,
    addToBOM ρ1 bom components dependencyMap = Returns bom1 /\
    addToBOM ρ2 bom1 components dependencyMap = Returns bom2 /\
    BomDependencies bom2 = BomDependencies bom1 /\
    componentsOf bom1 = componentsOf bom ++ components /\
    componentsOf bom2 = componentsOf bom1 ++ components.
Proof.
  intros Hdeps. unfold addToBOM at 1. fold (dependenciesOf bom). fold (componentsOf bom).
  rewrite MergeDependencyStructSlice_unionRecords
    by (done || apply dependencyMapToStructSlice_depsSet).
  simpl. eexists. eexists. split; [done|].
  unfold addToBOM. simpl.
  rewrite MergeDependencyStructSlice_unionRecords;
    [|by apply unionRecords_depsSet, dependencyMapToStructSlice_depsSet
     |apply dependencyMapToStructSlice_depsSet].
  simpl. split; [done|]. simpl. split; [|done]. f_equal.
  apply unionRecords_absorbed.
  - by apply unionRecords_depsSet, dependencyMapToStructSlice_depsSet.
  - rewrite (dependencyMapToStructSlice_perm ρ2 ρ1). apply unionRecords_absorbs.
Qed.

(** X25: for a document whose dependency records have their pointers set,
    a second run of [UpdateBOM] over the same filesystem into the document
    the first run returned succeeds again and, whatever the order of its
    range over the dependency map, leaves the dependency records as the
    first run left them, while it appends the same components a second
    time. *)
Theorem UpdateBOM_second_run (ρ1 ρ2 : MapRangeOrder) (fs : Filesystem) (bom bom1 : BOM)
  (lg lg1 : log) :
  Forall depsSet (dependenciesOf bom) ->
  UpdateBOM ρ1 fs bom lg = Returns (None, bom1, lg1) ->
  exists bom2 added,
    UpdateBOM ρ2 fs bom1 lg = Returns (None, bom2, lg1) /\
    BomDependencies bom2 = BomDependencies bom1 /\
    componentsOf bom1 = componentsOf bom ++ added /\
    componentsOf bom2 = componentsOf bom1 ++ added.
Proof.
  intros Hdeps. unfold UpdateBOM.
  destruct (WalkDir fs (analyseFile fs) [] lg) as [[[err certificates] lg2]|p]; simpl; [|done].
  destruct err as [e|]; [done|].
  destruct (mergeCertificates certificates NewBomDAG (rand_NewSource uuidSeed)
              (slog_Info searchingDone lg2)) as [[[err dag'] rng'] lg3].
  destruct err as [e|]; [done|].
  destruct (GetCDXComponents dag') as [[components dependencyMap] err].
  destruct err as [e|]; [done|].
  destruct (addToBOM_again ρ1 ρ2 bom components dependencyMap Hdeps)
    as (b1 & b2 & -> & Hsecond & Hd & Hc1 & Hc2).
  simpl. intros [= <- <-]. rewrite Hsecond. simpl.
  by exists b2, components.
Qed.

End Rescan.

Lemma UpdateBOM_second_run_witness :
  exists bom1 bom2 added,
    UpdateBOM forwardOrder twoCertificateFiles existingBOM []
      = Returns (None, bom1, [{| entryLevel := LevelInfo; entryMsg := searchingDone |}]) /\
    UpdateBOM backwardOrder twoCertificateFiles bom1 []
      = Returns (None, bom2, [{| entryLevel := LevelInfo; entryMsg := searchingDone |}]) /\
    BomDependencies bom2 = BomDependencies bom1 /\
    componentsOf bom1 = componentsOf existingBOM ++ added /\
    componentsOf bom2 = componentsOf bom1 ++ added.
Proof.
  eexists.
  assert (UpdateBOM forwardOrder twoCertificateFiles existingBOM []
          = Returns (None, _, [{| entryLevel := LevelInfo; entryMsg := searchingDone |}]))
    as Hfirst by (vm_compute; reflexivity).
  destruct (UpdateBOM_second_run forwardOrder backwardOrder twoCertificateFiles
              existingBOM _ [] _ ltac:(repeat constructor; eexists; reflexivity) Hfirst)
    as (bom2 & added & Hsecond & Hrest).
  exists bom2, added. split; [exact Hfirst|]. split; [exact Hsecond|]. exact Hrest.
Defined.
